(** * Adversarial search for Pacman: minimax, hminimax0, hminimax1

    A shallow embedding of the three search engines of the repository
    (src/minimax.py, src/hminimax0.py, src/hminimax1.py) and of the
    single-slot move buffer of their [PacmanAgent] classes, followed by the
    properties established about them.

    Conventions.
    - Python integers (positions, distances, scores, depth) are [Z] or [nat];
      Python floats are exact rationals [Q]; [float('inf')] and
      [float('-inf')] are the constructors [PosInf] and [NegInf] of [ext].
    - The game state of [pacman_module] is an interface ([GameState]); the
      search engines are written against it.
    - The recursion of the engines is not structural (the state graph may
      have cycles), so the engines take a [fuel] argument and return [None]
      when it runs out.
    - The dictionary [visited] is mutated in place and shared by the whole
      recursion: it is threaded through every call and returned. *)

From Stdlib Require Import ZArith QArith Lqa Lia List Bool.
From stdpp Require Import base decidable countable gmap list.

Open Scope Z_scope.

(** ** Numbers extended with the two infinities *)

Inductive ext (A : Type) : Type :=
| NegInf : ext A
| Fin : A -> ext A
| PosInf : ext A.

Arguments NegInf {A}.
Arguments Fin {A} _.
Arguments PosInf {A}.

Section Ext.
Context {A : Type} (ltb : A -> A -> bool).

(** [x < y] on extended numbers. *)
Definition ext_ltb (x y : ext A) : bool :=
  match x, y with
  | NegInf, NegInf => false
  | NegInf, _ => true
  | Fin a, Fin b => ltb a b
  | Fin _, PosInf => true
  | _, _ => false
  end.

(** [x >= y]. *)
Definition ext_geb (x y : ext A) : bool := negb (ext_ltb x y).

(** [x <= y]. *)
Definition ext_leb (x y : ext A) : bool := negb (ext_ltb y x).

(** Python's [max(a, b)]: [b] when [b > a], else [a]. *)
Definition ext_max (a b : ext A) : ext A := if ext_ltb a b then b else a.

(** Python's [min(a, b)]: [b] when [b < a], else [a]. *)
Definition ext_min (a b : ext A) : ext A := if ext_ltb b a then b else a.
End Ext.

Definition is_PosInf {A} (x : ext A) : bool :=
  match x with PosInf => true | _ => false end.

Definition is_NegInf {A} (x : ext A) : bool :=
  match x with NegInf => true | _ => false end.

Definition Qltb (x y : Q) : bool := negb (Qle_bool y x).

Abbreviation ZVal := (ext Z).
Abbreviation QVal := (ext Q).

(** ** The state provider *)

(** [pacman_module.pacman.Directions]. *)
Inductive Direction : Type := North | South | East | West | Stop.

#[export] Instance Direction_eq_dec : EqDecision Direction.
Proof. solve_decision. Defined.

Definition Direction_to_nat (d : Direction) : nat :=
  match d with North => 0 | South => 1 | East => 2 | West => 3 | Stop => 4 end%nat.

Definition Direction_of_nat (n : nat) : option Direction :=
  match n with
  | 0 => Some North | 1 => Some South | 2 => Some East | 3 => Some West
  | 4 => Some Stop | _ => None
  end%nat.

#[export] Instance Direction_countable : Countable Direction.
Proof.
  refine (inj_countable Direction_to_nat Direction_of_nat _).
  intros d; destruct d; reflexivity.
Defined.

(** The methods of [pacman.GameState] that the engines call.  The class
    itself lives in [pacman_module], outside src/; it is taken as an
    interface.  Ghost methods are the ones of ghost 1, [getLegalActions]
    is the one of agent 0.  The food grid is iterated as a sequence of
    sequences of booleans. *)
Class GameState (State : Type) : Type := {
  getPacmanPosition : State -> Z * Z;
  getGhostPosition : State -> Z * Z;
  getGhostDirection : State -> Direction;
  getFood : State -> list (list bool);
  getScore : State -> Z;
  isWin : State -> bool;
  isLose : State -> bool;
  getLegalActions : State -> list Direction;
  generatePacmanSuccessors : State -> list (State * Direction);
  generateGhostSuccessors : State -> list (State * Direction)
}.

(** Modelled from the spec: [pacman_module.util.manhattanDistance] is not
    under src/; the spec calls it the grid (Manhattan) distance between two
    coordinates. *)
Definition manhattanDistance (p q : Z * Z) : Z :=
  Z.abs (fst p - fst q) + Z.abs (snd p - snd q).

(** The state key of minimax.py and hminimax1.py. *)
Definition Key : Type := (Z * Z) * list (list bool) * (Z * Z) * Direction.

Abbreviation Visited := (gmap Key Z).

Section StateKey.
Context {State : Type} `{GameState State}.

(** [key(state)] (minimax.py l.5-19, hminimax1.py l.6-21). *)
Definition key (state : State) : Key :=
  (getPacmanPosition state, getFood state, getGhostPosition state,
   getGhostDirection state).

(** The test that guards the recursion in the successor loops of
    minimax.py (l.84-90, l.112-119) and hminimax1.py (l.150-157,
    l.180-187): [next_key not in visited.keys() or better_state], where
    [better_state] holds when the key is present and
    [score > visited[next_key]]. *)
Definition admissible (visited : Visited) (next_state : State) : bool :=
  let next_key := key next_state in
  let score := getScore next_state in
  let better_state :=
    match visited !! next_key with
    | Some old => old <? score
    | None => false
    end in
  negb (bool_decide (is_Some (visited !! next_key))) || better_state.
End StateKey.

(** [list.pop()]: removes and returns the last item; [None] stands for the
    [IndexError] raised on an empty list. *)
Definition pop {A : Type} (l : list A) : option (A * list A) :=
  match rev l with
  | [] => None
  | x :: r => Some (x, rev r)
  end.

(** ** Heuristic variant A: src/hminimax0.py *)

Module HMinimax0.

(** The fields of [PacmanAgent] ([__init__], l.11-21) apart from [args].
    An entry of [moves] is a direction or Python's [None]. *)
Record PacmanAgent : Type := {
  moves : list (option Direction);
  previousKeyStates : gset ((Z * Z) * list (list bool));
  current_score : Z
}.

Section Engine.
Context {State : Type} `{GameState State}.

(** Loop state of the food scan of [eval_function] (l.72-90):
    [num_food], [min_pac_food_dist], [max_pac_food_dist]. *)
Definition food_acc : Type := (Z * ZVal * ZVal)%type.

(** The inner loop [for element in row] (l.78-87). *)
Fixpoint scan_row (pac_pos : Z * Z) (i : Z) (row : list bool) (j : Z)
    (acc : food_acc) : food_acc :=
  match row with
  | [] => acc
  | element :: row' =>
      let acc' :=
        if element then
          let '(num_food, min_pac_food_dist, max_pac_food_dist) := acc in
          let dist := manhattanDistance (i, j) pac_pos in
          (num_food + 1,
           if ext_ltb Z.ltb (Fin dist) min_pac_food_dist
           then Fin dist else min_pac_food_dist,
           if ext_ltb Z.ltb max_pac_food_dist (Fin dist)
           then Fin dist else max_pac_food_dist)
        else acc in
      scan_row pac_pos i row' (j + 1) acc'
  end.

(** The outer loop [for row in state.getFood()] (l.77-90). *)
Fixpoint scan_grid (pac_pos : Z * Z) (grid : list (list bool)) (i : Z)
    (acc : food_acc) : food_acc :=
  match grid with
  | [] => acc
  | row :: grid' =>
      scan_grid pac_pos grid' (i + 1) (scan_row pac_pos i row 0 acc)
  end.

(** [eval_function] (l.49-102).  Should a distance still be an infinity
    in the last expression, Python's float arithmetic gives [-inf]. *)
Definition eval_function (self : PacmanAgent) (state : State) : QVal :=
  let pac_pos := getPacmanPosition state in
  let ghost_pos := getGhostPosition state in
  let pac_ghost_dist := manhattanDistance pac_pos ghost_pos in
  let '(num_food, min0, max0) :=
    scan_grid pac_pos (getFood state) 0 (0, PosInf, NegInf) in
  let '(min_pac_food_dist, max_pac_food_dist) :=
    if num_food =? 0 then (Fin 0, Fin 0) else (min0, max0) in
  let already_visited_state_penalty :=
    if bool_decide ((getPacmanPosition state, getFood state)
                      ∈ previousKeyStates self)
    then 400 else 0 in
  match min_pac_food_dist, max_pac_food_dist with
  | Fin mn, Fin mx =>
      Fin (inject_Z (getScore state - current_score self
                     - already_visited_state_penalty)
           + (1 # 2) * inject_Z pac_ghost_dist
           - inject_Z mn - inject_Z (2 * num_food)
           + (1 # 2) * inject_Z mx
           + (1 # 2) * inject_Z (Z.of_nat (length (getLegalActions state))))%Q
  | _, _ => NegInf
  end.

(** [cutoff] (l.104-159).  The strings [horizontal_dir] and
    [vertical_dir] start as the empty string, which is no direction:
    [None] here. *)
Definition cutoff (state : State) (depth : nat) (is_pacman : bool) : bool :=
  if (0 <? depth)%nat then
    if isWin state || isLose state then true
    else
      let pac_pos := getPacmanPosition state in
      let ghost_pos := getGhostPosition state in
      let pac_ghost_dist := manhattanDistance pac_pos ghost_pos in
      if (if is_pacman then 2 <? pac_ghost_dist else 2 <=? pac_ghost_dist)
      then true
      else
        let x_diff := fst ghost_pos - fst pac_pos in
        let y_diff := snd ghost_pos - snd pac_pos in
        let ghost_dir := getGhostDirection state in
        let horizontal_dir :=
          if 0 <? x_diff then Some East
          else if x_diff <? 0 then Some West else None in
        let vertical_dir :=
          if 0 <? y_diff then Some North
          else if y_diff <? 0 then Some South else None in
        if bool_decide (vertical_dir = Some ghost_dir)
           || bool_decide (horizontal_dir = Some ghost_dir)
        then true else false
  else false.

(** The maximiser's loop of [hminimax_aux] (l.187-203); [rec] is the
    recursive call, giving component [0] of the returned pair. *)
Fixpoint max_loop (rec : State -> QVal -> QVal -> option QVal)
    (succs : list (State * Direction)) (max_value : QVal)
    (best_action : option Direction) (alpha beta : QVal)
    : option (QVal * option Direction) :=
  match succs with
  | [] => Some (max_value, best_action)
  | (next_state, action) :: rest =>
      match rec next_state alpha beta with
      | None => None
      | Some value =>
          let '(max_value, best_action) :=
            if ext_ltb Qltb max_value value && negb (is_PosInf value)
            then (value, Some action) else (max_value, best_action) in
          if ext_geb Qltb max_value beta then Some (max_value, best_action)
          else max_loop rec rest max_value best_action
                 (ext_max Qltb alpha max_value) beta
      end
  end.

(** The minimiser's loop of [hminimax_aux] (l.208-223). *)
Fixpoint min_loop (rec : State -> QVal -> QVal -> option QVal)
    (succs : list (State * Direction)) (min_value : QVal)
    (best_action : option Direction) (alpha beta : QVal)
    : option (QVal * option Direction) :=
  match succs with
  | [] => Some (min_value, best_action)
  | (next_state, action) :: rest =>
      match rec next_state alpha beta with
      | None => None
      | Some value =>
          let min_value :=
            if ext_ltb Qltb value min_value && negb (is_NegInf value)
            then value else min_value in
          if ext_leb Qltb min_value alpha then Some (min_value, best_action)
          else min_loop rec rest min_value best_action
                 alpha (ext_min Qltb beta min_value)
      end
  end.

(** [hminimax_aux] (l.161-223). *)
Fixpoint hminimax_aux (fuel : nat) (self : PacmanAgent) (state : State)
    (alpha beta : QVal) (is_pacman : bool) (depth : nat)
    : option (QVal * option Direction) :=
  match fuel with
  | O => None
  | S fuel' =>
      if cutoff state depth is_pacman
      then Some (eval_function self state, None)
      else if is_pacman then
        max_loop
          (fun next_state a b =>
             fst <$> hminimax_aux fuel' self next_state a b false (S depth))
          (generatePacmanSuccessors state) NegInf None alpha beta
      else
        min_loop
          (fun next_state a b =>
             fst <$> hminimax_aux fuel' self next_state a b true (S depth))
          (generateGhostSuccessors state) PosInf None alpha beta
  end.

(** [hminimax] (l.225-238). *)
Definition hminimax (fuel : nat) (self : PacmanAgent) (state : State)
    : option (option Direction) :=
  snd <$> hminimax_aux fuel self state NegInf PosInf true 0.

(** [get_action] (l.23-47): the returned action ([None] is Python's
    [None]) and the agent after the call. *)
Definition get_action (fuel : nat) (self : PacmanAgent) (state : State)
    : option (option Direction * PacmanAgent) :=
  let self :=
    {| moves := moves self;
       previousKeyStates :=
         {[ (getPacmanPosition state, getFood state) ]}
           ∪ previousKeyStates self;
       current_score := current_score self |} in
  self' ← (match moves self with
           | [] =>
               let self :=
                 {| moves := moves self;
                    previousKeyStates := previousKeyStates self;
                    current_score := getScore state |} in
               m ← hminimax fuel self state;
               Some {| moves := moves self ++ [m];
                       previousKeyStates := previousKeyStates self;
                       current_score := current_score self |}
           | _ :: _ => Some self
           end);
  match pop (moves self') with
  | Some (action, rest) =>
      Some (action,
            {| moves := rest;
               previousKeyStates := previousKeyStates self';
               current_score := current_score self' |})
  | None => Some (Some Stop, self')
  end.
End Engine.

End HMinimax0.

(** ** The successor loops with a visited table

    The two loops of [minimax_aux] (minimax.py l.81-104 and l.109-130) and
    of [hminimax_aux] in hminimax1.py (l.147-172 and l.177-201) are the same
    text up to the recursive call, which is the parameter [rec] here: it
    receives the successor, the current bounds and the table just updated,
    and gives component [0] of the returned pair and the table as the call
    left it. *)

Section VisitedLoops.
Context {State : Type} `{GameState State}.

Definition rec_call : Type :=
  State -> ZVal -> ZVal -> Visited -> option (ZVal * Visited).

(** The maximiser's loop. *)
Fixpoint max_loop_visited (rec : rec_call) (succs : list (State * Direction))
    (max_value : ZVal) (best_action : option Direction)
    (alpha beta : ZVal) (visited : Visited)
    : option (ZVal * option Direction * Visited) :=
  match succs with
  | [] => Some (max_value, best_action, visited)
  | (next_state, action) :: rest =>
      if admissible visited next_state then
        match rec next_state alpha beta
                (<[key next_state := getScore next_state]> visited) with
        | None => None
        | Some (value, visited) =>
            let '(max_value, best_action) :=
              if ext_ltb Z.ltb max_value value && negb (is_PosInf value)
              then (value, Some action) else (max_value, best_action) in
            if ext_geb Z.ltb max_value beta
            then Some (max_value, best_action, visited)
            else max_loop_visited rec rest max_value best_action
                   (ext_max Z.ltb alpha max_value) beta visited
        end
      else max_loop_visited rec rest max_value best_action alpha beta visited
  end.

(** The minimiser's loop. *)
Fixpoint min_loop_visited (rec : rec_call) (succs : list (State * Direction))
    (min_value : ZVal) (best_action : option Direction)
    (alpha beta : ZVal) (visited : Visited)
    : option (ZVal * option Direction * Visited) :=
  match succs with
  | [] => Some (min_value, best_action, visited)
  | (next_state, action) :: rest =>
      if admissible visited next_state then
        match rec next_state alpha beta
                (<[key next_state := getScore next_state]> visited) with
        | None => None
        | Some (value, visited) =>
            let min_value :=
              if ext_ltb Z.ltb value min_value && negb (is_NegInf value)
              then value else min_value in
            if ext_leb Z.ltb min_value alpha
            then Some (min_value, best_action, visited)
            else min_loop_visited rec rest min_value best_action
                   alpha (ext_min Z.ltb beta min_value) visited
        end
      else min_loop_visited rec rest min_value best_action alpha beta visited
  end.

(** Component [0] of a returned pair, with the table. *)
Definition value_of (r : option (ZVal * option Direction * Visited))
    : option (ZVal * Visited) :=
  match r with
  | Some (value, _, visited) => Some (value, visited)
  | None => None
  end.
End VisitedLoops.

(** ** The plain engine: src/minimax.py *)

Module Minimax.

(** The field [moves] of [PacmanAgent] (l.154-162). *)
Record PacmanAgent : Type := { moves : list (option Direction) }.

Section Engine.
Context {State : Type} `{GameState State}.

(** [terminal] (l.22-37). *)
Definition terminal (state : State) : bool :=
  if isLose state || isWin state then true else false.

(** [utility_function] (l.40-53): the boolean [state.isWin()], which
    Python compares and prints as the integer 1 or 0. *)
Definition utility_function (state : State) : ZVal :=
  Fin (Z.b2z (isWin state)).

(** [minimax_aux] (l.56-130). *)
Fixpoint minimax_aux (fuel : nat) (state : State) (alpha beta : ZVal)
    (is_pacman : bool) (visited : Visited)
    : option (ZVal * option Direction * Visited) :=
  match fuel with
  | O => None
  | S fuel' =>
      if terminal state then Some (utility_function state, None, visited)
      else if is_pacman then
        max_loop_visited
          (fun next_state a b v =>
             value_of (minimax_aux fuel' next_state a b false v))
          (generatePacmanSuccessors state) NegInf None alpha beta visited
      else
        min_loop_visited
          (fun next_state a b v =>
             value_of (minimax_aux fuel' next_state a b true v))
          (generateGhostSuccessors state) PosInf None alpha beta visited
  end.

(** [minimax] (l.133-146). *)
Definition minimax (fuel : nat) (state : State) : option (option Direction) :=
  match minimax_aux fuel state NegInf PosInf true ∅ with
  | Some (_, action, _) => Some action
  | None => None
  end.

(** [get_action] (l.164-184). *)
Definition get_action (fuel : nat) (self : PacmanAgent) (state : State)
    : option (option Direction * PacmanAgent) :=
  self' ← (match moves self with
           | [] => m ← minimax fuel state; Some {| moves := moves self ++ [m] |}
           | _ :: _ => Some self
           end);
  match pop (moves self') with
  | Some (action, rest) => Some (action, {| moves := rest |})
  | None => Some (Some Stop, self')
  end.
End Engine.

End Minimax.

(** ** Heuristic variant B: src/hminimax1.py *)

Module HMinimax1.

(** The field [moves] of [PacmanAgent] (l.224-232). *)
Record PacmanAgent : Type := { moves : list (option Direction) }.

Section Engine.
Context {State : Type} `{GameState State}.

(** The inner loop of [eval_function] (l.47-54) on [num_food] and
    [min_pac_food_dist]. *)
Fixpoint scan_row (pac_pos : Z * Z) (i : Z) (row : list bool) (j : Z)
    (acc : Z * ZVal) : Z * ZVal :=
  match row with
  | [] => acc
  | element :: row' =>
      let acc' :=
        if element then
          let '(num_food, min_pac_food_dist) := acc in
          let dist := manhattanDistance (i, j) pac_pos in
          (num_food + 1,
           if ext_ltb Z.ltb (Fin dist) min_pac_food_dist
           then Fin dist else min_pac_food_dist)
        else acc in
      scan_row pac_pos i row' (j + 1) acc'
  end.

(** The outer loop of [eval_function] (l.46-56). *)
Fixpoint scan_grid (pac_pos : Z * Z) (grid : list (list bool)) (i : Z)
    (acc : Z * ZVal) : Z * ZVal :=
  match grid with
  | [] => acc
  | row :: grid' =>
      scan_grid pac_pos grid' (i + 1) (scan_row pac_pos i row 0 acc)
  end.

(** [eval_function] (l.24-61).  Should the distance still be [inf] in
    the last expression, Python's arithmetic gives [-inf]. *)
Definition eval_function (state : State) : ZVal :=
  let pac_pos := getPacmanPosition state in
  let '(num_food, min0) :=
    scan_grid pac_pos (getFood state) 0 (0, PosInf) in
  let min_pac_food_dist := if num_food =? 0 then Fin 0 else min0 in
  match min_pac_food_dist with
  | Fin mn => Fin (getScore state - 4 * mn - 10 * num_food)
  | _ => NegInf
  end.

(** The inner loop of [cutoff] (l.102-106) on [pac_food_dist] and
    [ghost_food_dist]. *)
Fixpoint sum_row (pac_pos ghost_pos : Z * Z) (i : Z) (row : list bool)
    (j : Z) (acc : Z * Z) : Z * Z :=
  match row with
  | [] => acc
  | element :: row' =>
      let acc' :=
        if element then
          let '(pac_food_dist, ghost_food_dist) := acc in
          (pac_food_dist + manhattanDistance (i, j) pac_pos,
           ghost_food_dist + manhattanDistance (i, j) ghost_pos)
        else acc in
      sum_row pac_pos ghost_pos i row' (j + 1) acc'
  end.

(** The outer loop of [cutoff] (l.101-108). *)
Fixpoint sum_grid (pac_pos ghost_pos : Z * Z) (grid : list (list bool))
    (i : Z) (acc : Z * Z) : Z * Z :=
  match grid with
  | [] => acc
  | row :: grid' =>
      sum_grid pac_pos ghost_pos grid' (i + 1)
        (sum_row pac_pos ghost_pos i row 0 acc)
  end.

(** [cutoff] (l.64-118). *)
Definition cutoff (state : State) (depth : nat) (is_pacman : bool) : bool :=
  if (0 <? depth)%nat then
    if isWin state || isLose state then true
    else
      let pac_pos := getPacmanPosition state in
      let ghost_pos := getGhostPosition state in
      if (if is_pacman then 2 <? manhattanDistance pac_pos ghost_pos
          else 2 <=? manhattanDistance pac_pos ghost_pos)
      then true
      else
        let '(pac_food_dist, ghost_food_dist) :=
          sum_grid pac_pos ghost_pos (getFood state) 0 (0, 0) in
        if (pac_food_dist <=? ghost_food_dist) && is_pacman
        then true else false
  else false.

(** [hminimax_aux] (l.121-201). *)
Fixpoint hminimax_aux (fuel : nat) (state : State) (alpha beta : ZVal)
    (is_pacman : bool) (visited : Visited) (depth : nat)
    : option (ZVal * option Direction * Visited) :=
  match fuel with
  | O => None
  | S fuel' =>
      if cutoff state depth is_pacman
      then Some (eval_function state, None, visited)
      else if is_pacman then
        max_loop_visited
          (fun next_state a b v =>
             value_of (hminimax_aux fuel' next_state a b false v (S depth)))
          (generatePacmanSuccessors state) NegInf None alpha beta visited
      else
        min_loop_visited
          (fun next_state a b v =>
             value_of (hminimax_aux fuel' next_state a b true v (S depth)))
          (generateGhostSuccessors state) PosInf None alpha beta visited
  end.

(** [hminimax] (l.204-216). *)
Definition hminimax (fuel : nat) (state : State) : option (option Direction) :=
  match hminimax_aux fuel state NegInf PosInf true ∅ 0 with
  | Some (_, action, _) => Some action
  | None => None
  end.

(** [get_action] (l.234-255). *)
Definition get_action (fuel : nat) (self : PacmanAgent) (state : State)
    : option (option Direction * PacmanAgent) :=
  self' ← (match moves self with
           | [] => m ← hminimax fuel state; Some {| moves := moves self ++ [m] |}
           | _ :: _ => Some self
           end);
  match pop (moves self') with
  | Some (action, rest) => Some (action, {| moves := rest |})
  | None => Some (Some Stop, self')
  end.
End Engine.

End HMinimax1.

(** ** Reference definitions, written from the specification

    These follow the words of the specification, not the code; the theorems
    below compare them with the code. *)

(** The remaining targets of a grid, as the cells [(i, j)] holding [true],
    [i] indexing the outer sequence and [j] the inner one. *)
Fixpoint row_targets (i j : Z) (row : list bool) : list (Z * Z) :=
  match row with
  | [] => []
  | element :: row' =>
      (if element then [(i, j)] else []) ++ row_targets i (j + 1) row'
  end.

Fixpoint grid_targets (i : Z) (grid : list (list bool)) : list (Z * Z) :=
  match grid with
  | [] => []
  | row :: grid' => row_targets i 0 row ++ grid_targets (i + 1) grid'
  end.

Definition targets (grid : list (list bool)) : list (Z * Z) :=
  grid_targets 0 grid.

(** "count of remaining targets". *)
Definition count_targets (grid : list (list bool)) : Z :=
  Z.of_nat (length (targets grid)).

(** "distance to nearest remaining target; 0 substituted when no targets
    remain". *)
Definition nearest_target_distance (pos : Z * Z) (grid : list (list bool)) : Z :=
  match map (fun cell => manhattanDistance cell pos) (targets grid) with
  | [] => 0
  | d :: ds => fold_right Z.min d ds
  end.

(** The unit step of a direction.  [pacman_module.game.Actions] is not
    under src/; the axes are the ones the comment of [cutoff] in
    hminimax0.py (l.152-155) relies on: East is [+x], North is [+y]. *)
Definition direction_vector (d : Direction) : Z * Z :=
  match d with
  | North => (0, 1)
  | South => (0, -1)
  | East => (1, 0)
  | West => (-1, 0)
  | Stop => (0, 0)
  end.

(** "the adversary's required horizontal/vertical approach direction toward
    the agent, from the position delta": facing [d], the adversary moves
    toward the agent along an axis when the step of [d] on that axis is not
    zero and has the sign of the agent's coordinate minus the adversary's. *)
Definition approaches_agent (ghost_pos pac_pos : Z * Z) (d : Direction) : bool :=
  let '(dx, dy) := direction_vector d in
  (negb (dx =? 0) && (Z.sgn dx =? Z.sgn (fst pac_pos - fst ghost_pos)))
  || (negb (dy =? 0) && (Z.sgn dy =? Z.sgn (snd pac_pos - snd ghost_pos))).

Section Exhaustive.
Context {State : Type} `{GameState State}.

(** "an exhaustive, non-pruned minimax over the same bounded tree", for
    variant A: the search of hminimax0.py with the same cutoff policy,
    evaluation and update rule, without the bounds [alpha] and [beta] and
    without the early returns. *)
Fixpoint max_loop_exhaustive (rec : State -> option QVal)
    (succs : list (State * Direction)) (max_value : QVal)
    (best_action : option Direction) : option (QVal * option Direction) :=
  match succs with
  | [] => Some (max_value, best_action)
  | (next_state, action) :: rest =>
      match rec next_state with
      | None => None
      | Some value =>
          let '(max_value, best_action) :=
            if ext_ltb Qltb max_value value && negb (is_PosInf value)
            then (value, Some action) else (max_value, best_action) in
          max_loop_exhaustive rec rest max_value best_action
      end
  end.

Fixpoint min_loop_exhaustive (rec : State -> option QVal)
    (succs : list (State * Direction)) (min_value : QVal)
    (best_action : option Direction) : option (QVal * option Direction) :=
  match succs with
  | [] => Some (min_value, best_action)
  | (next_state, action) :: rest =>
      match rec next_state with
      | None => None
      | Some value =>
          let min_value :=
            if ext_ltb Qltb value min_value && negb (is_NegInf value)
            then value else min_value in
          min_loop_exhaustive rec rest min_value best_action
      end
  end.

Fixpoint hminimax0_exhaustive (fuel : nat) (self : HMinimax0.PacmanAgent)
    (state : State) (is_pacman : bool) (depth : nat)
    : option (QVal * option Direction) :=
  match fuel with
  | O => None
  | S fuel' =>
      if HMinimax0.cutoff state depth is_pacman
      then Some (HMinimax0.eval_function self state, None)
      else if is_pacman then
        max_loop_exhaustive
          (fun next_state =>
             fst <$> hminimax0_exhaustive fuel' self next_state false (S depth))
          (generatePacmanSuccessors state) NegInf None
      else
        min_loop_exhaustive
          (fun next_state =>
             fst <$> hminimax0_exhaustive fuel' self next_state true (S depth))
          (generateGhostSuccessors state) PosInf None
  end.

(** The same for the plain engine of minimax.py: the visited-table
    admissibility rule is kept, the bounds and early returns are gone. *)
Fixpoint max_loop_visited_exhaustive
    (rec : State -> Visited -> option (ZVal * Visited))
    (succs : list (State * Direction)) (max_value : ZVal)
    (best_action : option Direction) (visited : Visited)
    : option (ZVal * option Direction * Visited) :=
  match succs with
  | [] => Some (max_value, best_action, visited)
  | (next_state, action) :: rest =>
      if admissible visited next_state then
        match rec next_state
                (<[key next_state := getScore next_state]> visited) with
        | None => None
        | Some (value, visited) =>
            let '(max_value, best_action) :=
              if ext_ltb Z.ltb max_value value && negb (is_PosInf value)
              then (value, Some action) else (max_value, best_action) in
            max_loop_visited_exhaustive rec rest max_value best_action visited
        end
      else max_loop_visited_exhaustive rec rest max_value best_action visited
  end.

Fixpoint min_loop_visited_exhaustive
    (rec : State -> Visited -> option (ZVal * Visited))
    (succs : list (State * Direction)) (min_value : ZVal)
    (best_action : option Direction) (visited : Visited)
    : option (ZVal * option Direction * Visited) :=
  match succs with
  | [] => Some (min_value, best_action, visited)
  | (next_state, action) :: rest =>
      if admissible visited next_state then
        match rec next_state
                (<[key next_state := getScore next_state]> visited) with
        | None => None
        | Some (value, visited) =>
            let min_value :=
              if ext_ltb Z.ltb value min_value && negb (is_NegInf value)
              then value else min_value in
            min_loop_visited_exhaustive rec rest min_value best_action visited
        end
      else min_loop_visited_exhaustive rec rest min_value best_action visited
  end.

Fixpoint minimax_exhaustive (fuel : nat) (state : State) (is_pacman : bool)
    (visited : Visited) : option (ZVal * option Direction * Visited) :=
  match fuel with
  | O => None
  | S fuel' =>
      if Minimax.terminal state
      then Some (Minimax.utility_function state, None, visited)
      else if is_pacman then
        max_loop_visited_exhaustive
          (fun next_state v =>
             value_of (minimax_exhaustive fuel' next_state false v))
          (generatePacmanSuccessors state) NegInf None visited
      else
        min_loop_visited_exhaustive
          (fun next_state v =>
             value_of (minimax_exhaustive fuel' next_state true v))
          (generateGhostSuccessors state) PosInf None visited
  end.

(** The same for variant B, hminimax1.py. *)
Fixpoint hminimax1_exhaustive (fuel : nat) (state : State) (is_pacman : bool)
    (visited : Visited) (depth : nat)
    : option (ZVal * option Direction * Visited) :=
  match fuel with
  | O => None
  | S fuel' =>
      if HMinimax1.cutoff state depth is_pacman
      then Some (HMinimax1.eval_function state, None, visited)
      else if is_pacman then
        max_loop_visited_exhaustive
          (fun next_state v =>
             value_of (hminimax1_exhaustive fuel' next_state false v (S depth)))
          (generatePacmanSuccessors state) NegInf None visited
      else
        min_loop_visited_exhaustive
          (fun next_state v =>
             value_of (hminimax1_exhaustive fuel' next_state true v (S depth)))
          (generateGhostSuccessors state) PosInf None visited
  end.

(** One write to the visited table as the specification allows it: a
    fresh key, or a stored score replaced by a strictly greater one. *)
Inductive visited_write : Visited -> Visited -> Prop :=
| write_fresh (visited : Visited) (k : Key) (score : Z) :
    visited !! k = None ->
    visited_write visited (<[k := score]> visited)
| write_better (visited : Visited) (k : Key) (old score : Z) :
    visited !! k = Some old -> old < score ->
    visited_write visited (<[k := score]> visited).

(** One ply: [t] is a legal successor of [s] for either side. *)
Definition successor (s t : State) : Prop :=
  exists action,
    In (t, action) (generatePacmanSuccessors s)
    \/ In (t, action) (generateGhostSuccessors s).
End Exhaustive.

(** ** Concrete providers

    Finite games given by tables, on which the engines are run. *)

Record Snapshot : Type := {
  pac : Z * Z;
  ghost : Z * Z;
  gdir : Direction;
  food : list (list bool);
  score : Z;
  win : bool;
  lose : bool;
  legal : list Direction
}.

(** The provider whose states are the indices of a table of snapshots. *)
Definition table_game (data : nat -> Snapshot)
    (psucc gsucc : nat -> list (nat * Direction)) : GameState nat :=
  {| getPacmanPosition n := pac (data n);
     getGhostPosition n := ghost (data n);
     getGhostDirection n := gdir (data n);
     getFood n := food (data n);
     getScore n := score (data n);
     isWin n := win (data n);
     isLose n := lose (data n);
     getLegalActions n := legal (data n);
     generatePacmanSuccessors := psucc;
     generateGhostSuccessors := gsucc |}.

(** The provider with a single snapshot and no successor. *)
Definition single (s : Snapshot) : GameState unit :=
  {| getPacmanPosition _ := pac s;
     getGhostPosition _ := ghost s;
     getGhostDirection _ := gdir s;
     getFood _ := food s;
     getScore _ := score s;
     isWin _ := win s;
     isLose _ := lose s;
     getLegalActions _ := legal s;
     generatePacmanSuccessors _ := [];
     generateGhostSuccessors _ := [] |}.

(** Snapshots used as concrete inputs. *)

(** A won game: no target left, the ghost far away. *)
Definition won_snapshot : Snapshot :=
  {| pac := (1, 1); ghost := (5, 1); gdir := West;
     food := [[false; false]; [false; false]];
     score := 510; win := true; lose := false; legal := [East; West] |}.

(** A lost game: the ghost on Pacman's cell. *)
Definition lost_snapshot : Snapshot :=
  {| pac := (1, 1); ghost := (1, 1); gdir := West;
     food := [[false; true]; [false; false]];
     score := -501; win := false; lose := true; legal := [] |}.

(** The ghost one cell east of Pacman and facing West, that is, facing
    Pacman. *)
Definition ghost_facing_pacman : Snapshot :=
  {| pac := (1, 1); ghost := (2, 1); gdir := West;
     food := [[false; true]; [false; false]];
     score := 0; win := false; lose := false; legal := [West] |}.

(** The same position with the ghost facing East, away from Pacman. *)
Definition ghost_facing_away : Snapshot :=
  {| pac := (1, 1); ghost := (2, 1); gdir := East;
     food := [[false; true]; [false; false]];
     score := 0; win := false; lose := false; legal := [West] |}.

(** The ghost three cells from Pacman. *)
Definition ghost_three_away : Snapshot :=
  {| pac := (1, 1); ghost := (3, 2); gdir := North;
     food := [[false; true]; [true; false]];
     score := 7; win := false; lose := false; legal := [East; West] |}.

(** An agent of hminimax0.py before its first decision. *)
Definition fresh_agent0 : HMinimax0.PacmanAgent :=
  {| HMinimax0.moves := []; HMinimax0.previousKeyStates := ∅;
     HMinimax0.current_score := 0 |}.

(** A corridor with one target, at cell (2, 0). *)
Definition corridor_food : list (list bool) :=
  [[false; false; false; false; false];
   [false; false; false; false; false];
   [true; false; false; false; false];
   [false; false; false; false; false]].

(** A game where Pacman's two moves lead to symmetric positions, the ghost
    being four cells away: state 0 is the root, 1 and 2 its successors by
    West and East, 3 and 4 their successors by the ghost's move South. *)
Definition tie_data (n : nat) : Snapshot :=
  match n with
  | 0%nat => {| pac := (2, 1); ghost := (2, 4); gdir := South;
                food := corridor_food; score := 0;
                win := false; lose := false; legal := [West; East] |}
  | 1%nat => {| pac := (1, 1); ghost := (2, 4); gdir := South;
                food := corridor_food; score := -1;
                win := false; lose := false; legal := [East; North] |}
  | 2%nat => {| pac := (3, 1); ghost := (2, 4); gdir := South;
                food := corridor_food; score := -1;
                win := false; lose := false; legal := [West; North] |}
  | 3%nat => {| pac := (1, 1); ghost := (2, 3); gdir := South;
                food := corridor_food; score := -1;
                win := false; lose := false; legal := [East; North] |}
  | _ => {| pac := (3, 1); ghost := (2, 3); gdir := South;
            food := corridor_food; score := -1;
            win := false; lose := false; legal := [West; North] |}
  end.

Definition tie_psucc (n : nat) : list (nat * Direction) :=
  match n with
  | 0%nat => [(1%nat, West); (2%nat, East)]
  | _ => []
  end.

Definition tie_gsucc (n : nat) : list (nat * Direction) :=
  match n with
  | 1%nat => [(3%nat, South)]
  | 2%nat => [(4%nat, South)]
  | _ => []
  end.

Definition tie_game : GameState nat := table_game tie_data tie_psucc tie_gsucc.

(** A game with a transposition: state 6 is reached from state 4 (a
    successor Pacman's second child skips under pruning) and from state 2.
    States 3 and 5 are lost, state 6 is won; the keys of the seven states
    are pairwise distinct. *)
Definition transposition_data (n : nat) : Snapshot :=
  {| pac := (Z.of_nat n, 1); ghost := (9, 1); gdir := West;
     food := [[false; false]; [false; false]]; score := 0;
     win := match n with 6%nat => true | _ => false end;
     lose := match n with 3%nat | 5%nat => true | _ => false end;
     legal := [] |}.

Definition transposition_psucc (n : nat) : list (nat * Direction) :=
  match n with
  | 0%nat => [(1%nat, West); (2%nat, East)]
  | 4%nat => [(5%nat, North); (6%nat, South)]
  | _ => []
  end.

Definition transposition_gsucc (n : nat) : list (nat * Direction) :=
  match n with
  | 1%nat => [(3%nat, West); (4%nat, East)]
  | 2%nat => [(6%nat, West)]
  | _ => []
  end.

Definition transposition_game : GameState nat :=
  table_game transposition_data transposition_psucc transposition_gsucc.

(** A game with a transposition for variant B: state 6 is reached from
    state 4, after state 5, and from state 2; state 3 is lost (the ghost on
    Pacman's cell); states 1, 2, 4 and 6 are not cut off where the search
    meets them, states 3, 5 and 7 are. *)
Definition transposition_B_data (n : nat) : Snapshot :=
  match n with
  | 0%nat => {| pac := (2, 2); ghost := (2, 3); gdir := South;
                food := corridor_food; score := 0;
                win := false; lose := false; legal := [West; East] |}
  | 1%nat => {| pac := (1, 2); ghost := (2, 2); gdir := South;
                food := corridor_food; score := -1;
                win := false; lose := false; legal := [North; South] |}
  | 2%nat => {| pac := (3, 2); ghost := (3, 3); gdir := East;
                food := corridor_food; score := -1;
                win := false; lose := false; legal := [West] |}
  | 3%nat => {| pac := (1, 2); ghost := (1, 2); gdir := West;
                food := corridor_food; score := -501;
                win := false; lose := true; legal := [] |}
  | 4%nat => {| pac := (1, 2); ghost := (2, 1); gdir := South;
                food := corridor_food; score := -1;
                win := false; lose := false; legal := [North; South] |}
  | 5%nat => {| pac := (1, 3); ghost := (2, 1); gdir := South;
                food := corridor_food; score := -2;
                win := false; lose := false; legal := [South] |}
  | 6%nat => {| pac := (1, 1); ghost := (2, 1); gdir := South;
                food := corridor_food; score := -2;
                win := false; lose := false; legal := [West] |}
  | _ => {| pac := (0, 1); ghost := (2, 1); gdir := South;
            food := corridor_food; score := -3;
            win := false; lose := false; legal := [East] |}
  end.

Definition transposition_B_psucc (n : nat) : list (nat * Direction) :=
  match n with
  | 0%nat => [(1%nat, West); (2%nat, East)]
  | 4%nat => [(5%nat, North); (6%nat, South)]
  | 6%nat => [(7%nat, West)]
  | _ => []
  end.

Definition transposition_B_gsucc (n : nat) : list (nat * Direction) :=
  match n with
  | 1%nat => [(3%nat, West); (4%nat, South)]
  | 2%nat => [(6%nat, West)]
  | _ => []
  end.

Definition transposition_B_game : GameState nat :=
  table_game transposition_B_data transposition_B_psucc transposition_B_gsucc.

(** A game whose search space is exhausted by the visited table: from the
    root 0 Pacman moves to 1, the ghost to 2, and Pacman's only move from 2
    is to stay, which leads to 3: the key of 2 with a lower score. *)
Definition exhausted_data (n : nat) : Snapshot :=
  match n with
  | 0%nat => {| pac := (1, 1); ghost := (4, 1); gdir := West;
                food := corridor_food; score := 0;
                win := false; lose := false; legal := [East] |}
  | 1%nat => {| pac := (2, 1); ghost := (4, 1); gdir := West;
                food := corridor_food; score := -1;
                win := false; lose := false; legal := [West] |}
  | 2%nat => {| pac := (2, 1); ghost := (4, 2); gdir := North;
                food := corridor_food; score := -1;
                win := false; lose := false; legal := [Stop] |}
  | _ => {| pac := (2, 1); ghost := (4, 2); gdir := North;
            food := corridor_food; score := -2;
            win := false; lose := false; legal := [Stop] |}
  end.

Definition exhausted_psucc (n : nat) : list (nat * Direction) :=
  match n with
  | 0%nat => [(1%nat, East)]
  | 2%nat => [(3%nat, Stop)]
  | _ => []
  end.

Definition exhausted_gsucc (n : nat) : list (nat * Direction) :=
  match n with
  | 1%nat => [(2%nat, North)]
  | _ => []
  end.

Definition exhausted_game : GameState nat :=
  table_game exhausted_data exhausted_psucc exhausted_gsucc.

(** ** Auxiliary definitions of the proofs *)

(** The body of the food scan of variant B on one target cell. *)
Definition scan_cell1 (pac_pos : Z * Z) (acc : Z * ZVal) (cell : Z * Z)
    : Z * ZVal :=
  let '(num_food, min_pac_food_dist) := acc in
  (num_food + 1,
   if ext_ltb Z.ltb (Fin (manhattanDistance cell pac_pos)) min_pac_food_dist
   then Fin (manhattanDistance cell pac_pos) else min_pac_food_dist).

(** The body of the food scan of variant A on one target cell. *)
Definition scan_cell0 (pac_pos : Z * Z) (acc : HMinimax0.food_acc)
    (cell : Z * Z) : HMinimax0.food_acc :=
  let '(num_food, min_pac_food_dist, max_pac_food_dist) := acc in
  (num_food + 1,
   if ext_ltb Z.ltb (Fin (manhattanDistance cell pac_pos)) min_pac_food_dist
   then Fin (manhattanDistance cell pac_pos) else min_pac_food_dist,
   if ext_ltb Z.ltb max_pac_food_dist (Fin (manhattanDistance cell pac_pos))
   then Fin (manhattanDistance cell pac_pos) else max_pac_food_dist).

(** Both distances of variant A's scan state are finite. *)
Definition finite_pair (acc : HMinimax0.food_acc) : Prop :=
  (exists mn, snd (fst acc) = Fin mn) /\ (exists mx, snd acc = Fin mx).

(** The order of the extended rationals as propositions, and the relations
    between a run of the exhaustive search and a run of the pruned one that
    the proof of their agreement maintains. *)
Definition qlt (x y : QVal) : Prop := ext_ltb Qltb x y = true.
Definition qle (x y : QVal) : Prop := ext_ltb Qltb y x = false.
Definition finite (x : QVal) : Prop := exists q, x = Fin q.

(** The value [pruned] returned under the window [(alpha, beta)] against the
    true value [exact]: the same, or both finite and both at or below
    [alpha], or both finite and both at or above [beta]. *)
Definition value_rel (alpha beta exact pruned : QVal) : Prop :=
  pruned = exact
  \/ (finite exact /\ finite pruned
      /\ ((qle exact alpha /\ qle pruned alpha)
          \/ (qle beta exact /\ qle beta pruned))).

(** The same on returned pairs. *)
Definition node_rel (alpha beta : QVal)
    (exact pruned : QVal * option Direction) : Prop :=
  pruned = exact
  \/ (finite (fst exact) /\ finite (fst pruned)
      /\ ((qle (fst exact) alpha /\ qle (fst pruned) alpha)
          \/ (qle beta (fst exact) /\ qle beta (fst pruned)))).

(** The current [alpha] of the maximiser's loop is, up to the order, the
    maximum of the initial [alpha0] and the running maximum. *)
Definition alpha_ok (a alpha0 m' : QVal) : Prop :=
  qle alpha0 a /\ qle m' a /\ (qle a alpha0 \/ qle a m').

(** Dually for the current [beta] of the minimiser's loop. *)
Definition beta_ok (b beta0 m' : QVal) : Prop :=
  qle b beta0 /\ qle b m' /\ (qle beta0 b \/ qle m' b).

(** Invariant of the minimiser's loop: same accumulators, or both running
    minima finite and at or above the initial [beta0]. *)
Definition min_inv (beta0 : QVal) (exact pruned : QVal * option Direction) : Prop :=
  pruned = exact
  \/ (finite (fst exact) /\ finite (fst pruned)
      /\ qle beta0 (fst exact) /\ qle beta0 (fst pruned)).

(** Invariant of the maximiser's loop: same accumulators, or both running
    maxima finite and at or below the initial [alpha0]. *)
Definition max_inv (alpha0 : QVal) (exact pruned : QVal * option Direction) : Prop :=
  pruned = exact
  \/ (finite (fst exact) /\ finite (fst pruned)
      /\ qle (fst exact) alpha0 /\ qle (fst pruned) alpha0).

(** ** Quantities over the target cells used by the further properties *)

(** The Manhattan distance from [pos] to the farthest target cell of the
    grid, 0 when there is none. *)
Definition farthest_target_distance (pos : Z * Z) (grid : list (list bool)) : Z :=
  match map (fun cell => manhattanDistance cell pos) (targets grid) with
  | [] => 0
  | d :: ds => fold_right Z.max d ds
  end.

(** The sum of the Manhattan distances from [pos] to the target cells. *)
Definition total_target_distance (pos : Z * Z) (grid : list (list bool)) : Z :=
  fold_right Z.add 0 (map (fun cell => manhattanDistance cell pos) (targets grid)).

(** The body of the food scan of [cutoff] in hminimax1.py on one target
    cell. *)
Definition sum_cell (pac_pos ghost_pos : Z * Z) (acc : Z * Z) (cell : Z * Z)
    : Z * Z :=
  let '(pac_food_dist, ghost_food_dist) := acc in
  (pac_food_dist + manhattanDistance cell pac_pos,
   ghost_food_dist + manhattanDistance cell ghost_pos).

(** The table holds, for the successor, a score not below the successor's
    own. *)
Definition recorded {State : Type} `{GameState State} (visited : Visited)
    (next_state : State) : Prop :=
  exists stored, visited !! key next_state = Some stored
                 /\ getScore next_state <= stored.

(** Every entry of [visited'] is an entry of [visited] or the key and score
    of a snapshot reachable from [state] in one ply or more. *)
Definition entries_from {State : Type} `{GameState State} (state : State)
    (visited visited' : Visited) : Prop :=
  forall k x, visited' !! k = Some x ->
    visited !! k = Some x
    \/ exists t, tc successor state t /\ key t = k /\ getScore t = x.

(** * Properties *)

(** ** The cutoff policies *)

Section CutoffFacts.
Context {State : Type} `{GameState State}.

Lemma cutoff0_depth_0 (state : State) (is_pacman : bool) :
  HMinimax0.cutoff state 0 is_pacman = false.
Proof. reflexivity. Qed.

Lemma cutoff1_depth_0 (state : State) (is_pacman : bool) :
  HMinimax1.cutoff state 0 is_pacman = false.
Proof. reflexivity. Qed.

Lemma depth_positive (depth : nat) : (0 < depth)%nat -> (0 <? depth)%nat = true.
Proof. intros Hd. apply Nat.ltb_lt. exact Hd. Qed.

Lemma cutoff0_terminal (state : State) (depth : nat) (is_pacman : bool) :
  (0 < depth)%nat -> isWin state || isLose state = true ->
  HMinimax0.cutoff state depth is_pacman = true.
Proof.
  intros Hd Ht. unfold HMinimax0.cutoff.
  rewrite (depth_positive depth Hd), Ht. reflexivity.
Qed.

Lemma cutoff1_terminal (state : State) (depth : nat) (is_pacman : bool) :
  (0 < depth)%nat -> isWin state || isLose state = true ->
  HMinimax1.cutoff state depth is_pacman = true.
Proof.
  intros Hd Ht. unfold HMinimax1.cutoff.
  rewrite (depth_positive depth Hd), Ht. reflexivity.
Qed.
End CutoffFacts.

(** C3, as stated, fails: a won snapshot at the root (depth 0) is not cut
    off by either heuristic policy, and variant A's engine does not
    evaluate it: it runs the successor loop, here over no successor, and
    returns [-inf] with no move where the evaluation is 510. *)
Lemma terminal_root_is_expanded :
  @isWin unit (single won_snapshot) tt = true
  /\ @HMinimax0.cutoff unit (single won_snapshot) tt 0 true = false
  /\ @HMinimax1.cutoff unit (single won_snapshot) tt 0 true = false
  /\ @HMinimax0.hminimax_aux unit (single won_snapshot) 1 fresh_agent0 tt
       NegInf PosInf true 0 = Some (NegInf, None)
  /\ @HMinimax0.eval_function unit (single won_snapshot) fresh_agent0 tt
     <> NegInf.
Proof.
  repeat split; try reflexivity.
  vm_compute. discriminate.
Qed.

(** C3, amended: at depth 0 the cutoff policy of both heuristic variants
    never fires, for any snapshot, terminal or not, and either side; a
    terminal win or loss snapshot is cut off at every depth greater than 0. *)
Theorem cutoff_root_never_fires {State : Type} `{GameState State}
    (state : State) (is_pacman : bool) (depth : nat) :
  HMinimax0.cutoff state 0 is_pacman = false
  /\ HMinimax1.cutoff state 0 is_pacman = false
  /\ ((0 < depth)%nat -> isWin state || isLose state = true ->
      HMinimax0.cutoff state depth is_pacman = true
      /\ HMinimax1.cutoff state depth is_pacman = true).
Proof.
  split; [apply cutoff0_depth_0 |].
  split; [apply cutoff1_depth_0 |].
  intros Hd Ht. split.
  - apply cutoff0_terminal; assumption.
  - apply cutoff1_terminal; assumption.
Qed.

Lemma cutoff_root_never_fires_witness :
  (0 < 1)%nat
  /\ @isWin unit (single won_snapshot) tt
     || @isLose unit (single won_snapshot) tt = true
  /\ @HMinimax0.cutoff unit (single won_snapshot) tt 0 true = false
  /\ @HMinimax0.cutoff unit (single won_snapshot) tt 1 true = true
  /\ @HMinimax1.cutoff unit (single won_snapshot) tt 1 true = true.
Proof.
  pose proof (@cutoff_root_never_fires unit (single won_snapshot) tt true 1)
    as [H0 [_ Hpos]].
  assert (Hd : (0 < 1)%nat) by lia.
  assert (Ht : @isWin unit (single won_snapshot) tt
               || @isLose unit (single won_snapshot) tt = true)
    by reflexivity.
  destruct (Hpos Hd Ht) as [Ha Hb].
  repeat split; assumption.
Defined.

(** C5: at any depth greater than 0, on the maximiser's turn a Manhattan
    distance between Pacman and the ghost above 2, and on the minimiser's
    turn a distance of at least 2, make the cutoff policy of both heuristic
    variants return true, whatever the rest of the snapshot. *)
Theorem distance_gate_cuts_off {State : Type} `{GameState State}
    (state : State) (depth : nat) (is_pacman : bool) :
  (0 < depth)%nat ->
  (if is_pacman
   then 2 < manhattanDistance (getPacmanPosition state) (getGhostPosition state)
   else 2 <= manhattanDistance (getPacmanPosition state) (getGhostPosition state)) ->
  HMinimax0.cutoff state depth is_pacman = true
  /\ HMinimax1.cutoff state depth is_pacman = true.
Proof.
  intros Hd Hdist.
  unfold HMinimax0.cutoff, HMinimax1.cutoff.
  rewrite (depth_positive depth Hd).
  destruct (isWin state || isLose state); [split; reflexivity |].
  destruct is_pacman.
  - apply Z.ltb_lt in Hdist. rewrite Hdist. split; reflexivity.
  - apply Z.leb_le in Hdist. rewrite Hdist. split; reflexivity.
Qed.

Lemma distance_gate_cuts_off_witness :
  (0 < 1)%nat
  /\ 2 < manhattanDistance
           (@getPacmanPosition unit (single ghost_three_away) tt)
           (@getGhostPosition unit (single ghost_three_away) tt)
  /\ @HMinimax0.cutoff unit (single ghost_three_away) tt 1 true = true
  /\ @HMinimax1.cutoff unit (single ghost_three_away) tt 1 true = true.
Proof.
  assert (Hd : (0 < 1)%nat) by lia.
  assert (Hdist : 2 < manhattanDistance
                        (@getPacmanPosition unit (single ghost_three_away) tt)
                        (@getGhostPosition unit (single ghost_three_away) tt))
    by reflexivity.
  split; [exact Hd |]. split; [exact Hdist |].
  exact (@distance_gate_cuts_off unit (single ghost_three_away) tt 1 true
           Hd Hdist).
Defined.

(** C4, as stated, fails: with the ghost one cell east of Pacman and facing
    West, the ghost faces its approach direction toward Pacman, no distance
    gate fires (the distance is 1), and the policy of variant A does not
    cut off.  With the ghost facing East, away from Pacman, it does. *)
Lemma approach_direction_does_not_cut_off :
  @isWin unit (single ghost_facing_pacman) tt
  || @isLose unit (single ghost_facing_pacman) tt = false
  /\ manhattanDistance (pac ghost_facing_pacman) (ghost ghost_facing_pacman) = 1
  /\ approaches_agent (ghost ghost_facing_pacman) (pac ghost_facing_pacman)
       (gdir ghost_facing_pacman) = true
  /\ @HMinimax0.cutoff unit (single ghost_facing_pacman) tt 1 true = false
  /\ @HMinimax0.cutoff unit (single ghost_facing_pacman) tt 1 false = false
  /\ approaches_agent (ghost ghost_facing_away) (pac ghost_facing_away)
       (gdir ghost_facing_away) = false
  /\ @HMinimax0.cutoff unit (single ghost_facing_away) tt 1 true = true.
Proof. repeat split; reflexivity. Qed.

(** C4, amended: in variant A, for a non-terminal snapshot at depth greater
    than 0 on which no distance gate fires, the cutoff policy fires exactly
    when the ghost faces away from Pacman along an axis: East with the
    ghost's x above Pacman's, West with it below, North with the ghost's y
    above Pacman's, South with it below. *)
Theorem orientation_gate_faces_away {State : Type} `{GameState State}
    (state : State) (depth : nat) (is_pacman : bool) :
  (0 < depth)%nat ->
  isWin state || isLose state = false ->
  (if is_pacman
   then manhattanDistance (getPacmanPosition state) (getGhostPosition state) <= 2
   else manhattanDistance (getPacmanPosition state) (getGhostPosition state) < 2) ->
  HMinimax0.cutoff state depth is_pacman = true
  <-> (fst (getPacmanPosition state) < fst (getGhostPosition state)
       /\ getGhostDirection state = East)
      \/ (fst (getGhostPosition state) < fst (getPacmanPosition state)
          /\ getGhostDirection state = West)
      \/ (snd (getPacmanPosition state) < snd (getGhostPosition state)
          /\ getGhostDirection state = North)
      \/ (snd (getGhostPosition state) < snd (getPacmanPosition state)
          /\ getGhostDirection state = South).
Proof.
  intros Hd Ht Hgate. unfold HMinimax0.cutoff.
  rewrite (depth_positive depth Hd), Ht.
  assert (Hg : (if is_pacman
                then 2 <? manhattanDistance (getPacmanPosition state)
                                            (getGhostPosition state)
                else 2 <=? manhattanDistance (getPacmanPosition state)
                                             (getGhostPosition state)) = false).
  { destruct is_pacman; [apply Z.ltb_ge | apply Z.leb_gt]; lia. }
  rewrite Hg. clear Hg Hgate.
  set (px := fst (getPacmanPosition state)).
  set (py := snd (getPacmanPosition state)).
  set (gx := fst (getGhostPosition state)).
  set (gy := snd (getGhostPosition state)).
  destruct (Z.ltb_spec 0 (gx - px)) as [Hx | Hx];
    [| destruct (Z.ltb_spec (gx - px) 0) as [Hx' | Hx']];
    (destruct (Z.ltb_spec 0 (gy - py)) as [Hy | Hy];
      [| destruct (Z.ltb_spec (gy - py) 0) as [Hy' | Hy']]);
    destruct (getGhostDirection state); simpl;
    (split; [intros Hc; try discriminate Hc | intros Hc]);
    try reflexivity;
    try (exfalso; destruct Hc as [[? Hc] | [[? Hc] | [[? Hc] | [? Hc]]]];
         (discriminate Hc || lia));
    try (left; split; [lia | reflexivity]);
    try (right; left; split; [lia | reflexivity]);
    try (right; right; left; split; [lia | reflexivity]);
    try (right; right; right; split; [lia | reflexivity]).
Qed.

Lemma orientation_gate_faces_away_witness :
  (0 < 1)%nat
  /\ @isWin unit (single ghost_facing_away) tt
     || @isLose unit (single ghost_facing_away) tt = false
  /\ manhattanDistance (@getPacmanPosition unit (single ghost_facing_away) tt)
       (@getGhostPosition unit (single ghost_facing_away) tt) <= 2
  /\ (@HMinimax0.cutoff unit (single ghost_facing_away) tt 1 true = true
      <-> (fst (@getPacmanPosition unit (single ghost_facing_away) tt)
           < fst (@getGhostPosition unit (single ghost_facing_away) tt)
           /\ @getGhostDirection unit (single ghost_facing_away) tt = East)
          \/ (fst (@getGhostPosition unit (single ghost_facing_away) tt)
              < fst (@getPacmanPosition unit (single ghost_facing_away) tt)
              /\ @getGhostDirection unit (single ghost_facing_away) tt = West)
          \/ (snd (@getPacmanPosition unit (single ghost_facing_away) tt)
              < snd (@getGhostPosition unit (single ghost_facing_away) tt)
              /\ @getGhostDirection unit (single ghost_facing_away) tt = North)
          \/ (snd (@getGhostPosition unit (single ghost_facing_away) tt)
              < snd (@getPacmanPosition unit (single ghost_facing_away) tt)
              /\ @getGhostDirection unit (single ghost_facing_away) tt = South)).
Proof.
  assert (Hd : (0 < 1)%nat) by lia.
  assert (Ht : @isWin unit (single ghost_facing_away) tt
               || @isLose unit (single ghost_facing_away) tt = false)
    by reflexivity.
  assert (Hg : manhattanDistance
                 (@getPacmanPosition unit (single ghost_facing_away) tt)
                 (@getGhostPosition unit (single ghost_facing_away) tt) <= 2)
    by (vm_compute; discriminate).
  split; [exact Hd |]. split; [exact Ht |]. split; [exact Hg |].
  exact (@orientation_gate_faces_away unit (single ghost_facing_away) tt 1 true
           Hd Ht Hg).
Defined.

(** ** The evaluation functions *)

Section FoodScan.

Lemma scan_row1_targets pac_pos i row : forall j acc,
  HMinimax1.scan_row pac_pos i row j acc
  = fold_left (scan_cell1 pac_pos) (row_targets i j row) acc.
Proof.
  induction row as [| element row IH]; intros j acc; simpl; [reflexivity |].
  rewrite IH. destruct element; simpl; [| reflexivity].
  destruct acc as [num_food min_d]. reflexivity.
Qed.

Lemma scan_grid1_targets pac_pos grid : forall i acc,
  HMinimax1.scan_grid pac_pos grid i acc
  = fold_left (scan_cell1 pac_pos) (grid_targets i grid) acc.
Proof.
  induction grid as [| row grid IH]; intros i acc; simpl; [reflexivity |].
  rewrite IH, scan_row1_targets, fold_left_app. reflexivity.
Qed.

Lemma scan_row0_targets pac_pos i row : forall j acc,
  HMinimax0.scan_row pac_pos i row j acc
  = fold_left (scan_cell0 pac_pos) (row_targets i j row) acc.
Proof.
  induction row as [| element row IH]; intros j acc; simpl; [reflexivity |].
  rewrite IH. destruct element; simpl; [| reflexivity].
  destruct acc as [[num_food min_d] max_d]. reflexivity.
Qed.

Lemma scan_grid0_targets pac_pos grid : forall i acc,
  HMinimax0.scan_grid pac_pos grid i acc
  = fold_left (scan_cell0 pac_pos) (grid_targets i grid) acc.
Proof.
  induction grid as [| row grid IH]; intros i acc; simpl; [reflexivity |].
  rewrite IH, scan_row0_targets, fold_left_app. reflexivity.
Qed.

Lemma fold_right_min_init (l : list Z) : forall d x,
  fold_right Z.min (Z.min d x) l = Z.min d (fold_right Z.min x l).
Proof.
  induction l as [| y l IH]; intros d x; simpl; [reflexivity |].
  rewrite IH. lia.
Qed.

(** Scanning from a finite minimum. *)
Lemma scan_cells1_from_Fin pac_pos cells : forall num_food x,
  fold_left (scan_cell1 pac_pos) cells (num_food, Fin x)
  = (num_food + Z.of_nat (length cells),
     Fin (fold_right Z.min x
            (map (fun cell => manhattanDistance cell pac_pos) cells))).
Proof.
  induction cells as [| cell cells IH]; intros num_food x; simpl.
  - f_equal. lia.
  - destruct (Z.ltb_spec (manhattanDistance cell pac_pos) x) as [Hlt | Hge];
      rewrite IH; f_equal; try lia; f_equal.
    + rewrite <- fold_right_min_init. f_equal. lia.
    + rewrite <- fold_right_min_init. f_equal. lia.
Qed.

(** Scanning from the initial [(0, inf)]. *)
Lemma scan_cells1_from_start pac_pos cells :
  fold_left (scan_cell1 pac_pos) cells (0, PosInf)
  = (Z.of_nat (length cells),
     match map (fun cell => manhattanDistance cell pac_pos) cells with
     | [] => PosInf
     | d :: ds => Fin (fold_right Z.min d ds)
     end).
Proof.
  destruct cells as [| cell cells]; simpl; [reflexivity |].
  rewrite scan_cells1_from_Fin. f_equal. lia.
Qed.

(** Variant A's scan counts the cells and, once a cell has been seen,
    holds finite distances. *)
Lemma scan_cells0_count pac_pos cells : forall acc,
  fst (fst (fold_left (scan_cell0 pac_pos) cells acc))
  = fst (fst acc) + Z.of_nat (length cells).
Proof.
  induction cells as [| cell cells IH]; intros [[n mn] mx]; simpl.
  - lia.
  - rewrite IH. simpl. lia.
Qed.

Lemma scan_cell0_finite pac_pos acc cell :
  snd (fst acc) <> NegInf -> snd acc <> PosInf ->
  finite_pair (scan_cell0 pac_pos acc cell).
Proof.
  destruct acc as [[n mn] mx]; simpl. intros Hmn Hmx. split; simpl.
  - destruct mn as [| a |]; simpl; [congruence | | eauto].
    destruct (_ <? a); eauto.
  - destruct mx as [| a |]; simpl; [eauto | | congruence].
    destruct (a <? _); eauto.
Qed.

Lemma scan_cells0_finite pac_pos cells : forall acc,
  finite_pair acc -> finite_pair (fold_left (scan_cell0 pac_pos) cells acc).
Proof.
  induction cells as [| cell cells IH]; intros acc Hacc; simpl; [exact Hacc |].
  apply IH. destruct Hacc as [[mn Hmn] [mx Hmx]].
  apply scan_cell0_finite; congruence.
Qed.

Lemma scan_cells0_from_start pac_pos cells :
  cells <> [] ->
  finite_pair (fold_left (scan_cell0 pac_pos) cells (0, PosInf, NegInf)).
Proof.
  destruct cells as [| cell cells]; [congruence | intros _; simpl].
  apply scan_cells0_finite. split; simpl; eauto.
Qed.
End FoodScan.

Section EvalFacts.
Context {State : Type} `{GameState State}.

Lemma count_targets_zero (grid : list (list bool)) :
  count_targets grid = 0 -> targets grid = [].
Proof.
  unfold count_targets. destruct (targets grid); simpl; [reflexivity | lia].
Qed.

Lemma eval_function1_formula (state : State) :
  HMinimax1.eval_function state
  = Fin (getScore state
         - 4 * nearest_target_distance (getPacmanPosition state) (getFood state)
         - 10 * count_targets (getFood state)).
Proof.
  unfold HMinimax1.eval_function, nearest_target_distance, count_targets.
  rewrite scan_grid1_targets. fold (targets (getFood state)).
  rewrite scan_cells1_from_start.
  destruct (targets (getFood state)) as [| cell cells]; simpl; [reflexivity |].
  replace (Z.pos (Pos.of_succ_nat (length cells)) =? 0) with false
    by (symmetry; apply Z.eqb_neq; lia).
  reflexivity.
Qed.

(** Variant A's evaluation is a finite number on every snapshot. *)
Lemma eval_function0_finite (self : HMinimax0.PacmanAgent) (state : State) :
  exists q, HMinimax0.eval_function self state = Fin q.
Proof.
  unfold HMinimax0.eval_function.
  rewrite scan_grid0_targets.
  pose proof (scan_cells0_count (getPacmanPosition state)
                (grid_targets 0 (getFood state)) (0, PosInf, NegInf)) as Hn.
  pose proof (scan_cells0_from_start (getPacmanPosition state)
                (grid_targets 0 (getFood state))) as Hfin.
  destruct (fold_left _ _ _) as [[n mn] mx]. simpl in Hn.
  destruct (Z.eqb_spec n 0) as [Hz | Hnz]; [eauto |].
  destruct Hfin as [[a Ha] [b Hb]].
  { intros Hnil. rewrite Hnil in Hn. simpl in Hn. lia. }
  simpl in Ha, Hb. subst mn mx. eauto.
Qed.
End EvalFacts.

(** C7: variant B's evaluation is the snapshot score minus 4 times the
    Manhattan distance from Pacman to the nearest remaining target minus 10
    times the count of remaining targets; with no target left the distance
    terms are 0 in variant B (minimum) and in variant A (minimum and
    maximum), which leaves only the other terms of each formula. *)
Theorem eval_function_formula {State : Type} `{GameState State}
    (self : HMinimax0.PacmanAgent) (state : State) :
  HMinimax1.eval_function state
  = Fin (getScore state
         - 4 * nearest_target_distance (getPacmanPosition state) (getFood state)
         - 10 * count_targets (getFood state))
  /\ (count_targets (getFood state) = 0 ->
      nearest_target_distance (getPacmanPosition state) (getFood state) = 0
      /\ HMinimax1.eval_function state = Fin (getScore state - 4 * 0 - 10 * 0)
      /\ HMinimax0.eval_function self state
         = Fin (inject_Z (getScore state - HMinimax0.current_score self
                          - (if bool_decide
                                  ((getPacmanPosition state, getFood state)
                                     ∈ HMinimax0.previousKeyStates self)
                             then 400 else 0))
                + (1 # 2) * inject_Z (manhattanDistance
                                        (getPacmanPosition state)
                                        (getGhostPosition state))
                - inject_Z 0 - inject_Z (2 * 0)
                + (1 # 2) * inject_Z 0
                + (1 # 2) * inject_Z (Z.of_nat (length (getLegalActions state))))%Q).
Proof.
  split; [apply eval_function1_formula |].
  intros Hzero. pose proof (count_targets_zero _ Hzero) as Hnil.
  assert (Hnear : nearest_target_distance (getPacmanPosition state)
                    (getFood state) = 0).
  { unfold nearest_target_distance. rewrite Hnil. reflexivity. }
  split; [exact Hnear |]. split.
  - rewrite eval_function1_formula, Hnear, Hzero. reflexivity.
  - unfold HMinimax0.eval_function. rewrite scan_grid0_targets.
    fold (targets (getFood state)). rewrite Hnil. simpl. reflexivity.
Qed.

Lemma eval_function_formula_witness :
  count_targets (@getFood unit (single won_snapshot) tt) = 0
  /\ @HMinimax1.eval_function unit (single won_snapshot) tt = Fin 510
  /\ @HMinimax0.eval_function unit (single won_snapshot) fresh_agent0 tt
     = Fin (inject_Z 510 + (1 # 2) * inject_Z 4 - inject_Z 0 - inject_Z 0
            + (1 # 2) * inject_Z 0 + (1 # 2) * inject_Z 2)%Q.
Proof.
  assert (Hzero : count_targets (@getFood unit (single won_snapshot) tt) = 0)
    by reflexivity.
  destruct (@eval_function_formula unit (single won_snapshot) fresh_agent0 tt)
    as [_ Hz].
  destruct (Hz Hzero) as [_ [H1 H0]].
  split; [exact Hzero |]. split; [exact H1 | exact H0].
Defined.

(** ** The minimiser never records a move *)

Section MinimiserMove.
Context {State : Type} `{GameState State}.

Lemma min_loop0_move rec (succs : list (State * Direction)) :
  forall min_value best_action alpha beta value move,
    HMinimax0.min_loop rec succs min_value best_action alpha beta
    = Some (value, move) ->
    move = best_action.
Proof.
  induction succs as [| [next_state action] rest IH];
    intros min_value best_action alpha beta value move Hrun; simpl in Hrun.
  - congruence.
  - destruct (rec next_state alpha beta) as [v |]; [| discriminate].
    destruct (ext_leb Qltb _ alpha).
    + congruence.
    + eapply IH. exact Hrun.
Qed.

Lemma min_loop_visited_move rec (succs : list (State * Direction)) :
  forall min_value best_action alpha beta visited value move visited',
    min_loop_visited rec succs min_value best_action alpha beta visited
    = Some (value, move, visited') ->
    move = best_action.
Proof.
  induction succs as [| [next_state action] rest IH];
    intros min_value best_action alpha beta visited value move visited' Hrun;
    simpl in Hrun.
  - congruence.
  - destruct (admissible visited next_state); [| eapply IH; exact Hrun].
    destruct (rec next_state alpha beta _) as [[v visited1] |]; [| discriminate].
    destruct (ext_leb Z.ltb _ alpha).
    + congruence.
    + eapply IH. exact Hrun.
Qed.
End MinimiserMove.

(** C10: in the three engines, a call of the recursive search on the
    minimiser's turn returns a pair whose move component is [None], on the
    early return as on the normal one. *)
Theorem minimiser_returns_no_move {State : Type} `{GameState State}
    (fuel : nat) (self : HMinimax0.PacmanAgent) (state : State)
    (qalpha qbeta : QVal) (alpha beta : ZVal) (visited : Visited)
    (depth : nat) :
  (forall value move,
      HMinimax0.hminimax_aux fuel self state qalpha qbeta false depth
      = Some (value, move) -> move = None)
  /\ (forall value move visited',
         Minimax.minimax_aux fuel state alpha beta false visited
         = Some (value, move, visited') -> move = None)
  /\ (forall value move visited',
         HMinimax1.hminimax_aux fuel state alpha beta false visited depth
         = Some (value, move, visited') -> move = None).
Proof.
  destruct fuel as [| fuel]; [repeat split; intros; discriminate |].
  repeat split.
  - intros value move Hrun. simpl in Hrun.
    destruct (HMinimax0.cutoff state depth false); [congruence |].
    eapply min_loop0_move. exact Hrun.
  - intros value move visited' Hrun. simpl in Hrun.
    destruct (Minimax.terminal state); [congruence |].
    eapply min_loop_visited_move. exact Hrun.
  - intros value move visited' Hrun. simpl in Hrun.
    destruct (HMinimax1.cutoff state depth false); [congruence |].
    eapply min_loop_visited_move. exact Hrun.
Qed.

Lemma minimiser_returns_no_move_witness :
  (exists value,
      @HMinimax0.hminimax_aux nat tie_game 2 fresh_agent0 1%nat
        NegInf PosInf false 0 = Some (value, None))
  /\ (exists value visited',
         @Minimax.minimax_aux nat tie_game 2 1%nat NegInf PosInf false ∅
         = Some (value, None, visited'))
  /\ (exists value visited',
         @HMinimax1.hminimax_aux nat tie_game 2 1%nat NegInf PosInf false ∅ 0
         = Some (value, None, visited')).
Proof.
  destruct (@minimiser_returns_no_move nat tie_game 2 fresh_agent0 1%nat
              NegInf PosInf NegInf PosInf ∅ 0%nat) as [H0 [Hp H1]].
  split; [| split].
  - destruct (@HMinimax0.hminimax_aux nat tie_game 2 fresh_agent0 1%nat
                NegInf PosInf false 0) as [[value move] |] eqn:Hrun.
    + rewrite (H0 value move eq_refl). exists value. reflexivity.
    + exfalso. vm_compute in Hrun. discriminate Hrun.
  - assert (Hsome : is_Some (fst <$> @Minimax.minimax_aux nat tie_game 2 1%nat
                                       NegInf PosInf false ∅))
      by (vm_compute; eauto).
    destruct (@Minimax.minimax_aux nat tie_game 2 1%nat NegInf PosInf false ∅)
      as [[[value move] visited'] |] eqn:Hrun.
    + rewrite (Hp value move visited' eq_refl). exists value, visited'.
      reflexivity.
    + exfalso. destruct Hsome as [x Hx]. discriminate Hx.
  - assert (Hsome : is_Some (fst <$> @HMinimax1.hminimax_aux nat tie_game 2
                                       1%nat NegInf PosInf false ∅ 0))
      by (vm_compute; eauto).
    destruct (@HMinimax1.hminimax_aux nat tie_game 2 1%nat NegInf PosInf
                false ∅ 0) as [[[value move] visited'] |] eqn:Hrun.
    + rewrite (H1 value move visited' eq_refl). exists value, visited'.
      reflexivity.
    + exfalso. destruct Hsome as [x Hx]. discriminate Hx.
Defined.

(** ** The decision cache *)

Section DecisionCache.
Context {State : Type} `{GameState State}.

Lemma pop_snoc {A : Type} (l : list A) (x : A) : pop (l ++ [x]) = Some (x, l).
Proof. unfold pop. rewrite rev_app_distr. simpl. rewrite rev_involutive. reflexivity. Qed.

Lemma get_action_plain_no_move (fuel : nat) (state : State) :
  Minimax.minimax fuel state = Some None ->
  Minimax.get_action fuel {| Minimax.moves := [] |} state
  = Some (None, {| Minimax.moves := [] |}).
Proof. intros Hm. unfold Minimax.get_action. simpl. rewrite Hm. reflexivity. Qed.

Lemma get_action_variant_B_no_move (fuel : nat) (state : State) :
  HMinimax1.hminimax fuel state = Some None ->
  HMinimax1.get_action fuel {| HMinimax1.moves := [] |} state
  = Some (None, {| HMinimax1.moves := [] |}).
Proof. intros Hm. unfold HMinimax1.get_action. simpl. rewrite Hm. reflexivity. Qed.
End DecisionCache.

(** C2, which the code breaks: when the search returns no move,
    [get_action] appends Python's [None] to the empty buffer and pops it
    back, so the request returns [None]; the [IndexError] handler that
    returns [Directions.STOP] is not reached.  In the plain engine and in
    variant B, for every snapshot on which the search returns no move, a
    request on an empty buffer returns [None] and leaves the buffer empty. *)
Theorem get_action_returns_None_when_no_move {State : Type} `{GameState State}
    (fuel : nat) (state : State) :
  (Minimax.minimax fuel state = Some None ->
   Minimax.get_action fuel {| Minimax.moves := [] |} state
   = Some (None, {| Minimax.moves := [] |}))
  /\ (HMinimax1.hminimax fuel state = Some None ->
      HMinimax1.get_action fuel {| HMinimax1.moves := [] |} state
      = Some (None, {| HMinimax1.moves := [] |})).
Proof.
  split.
  - apply get_action_plain_no_move.
  - apply get_action_variant_B_no_move.
Qed.

Lemma get_action_returns_None_when_no_move_witness :
  @Minimax.minimax nat exhausted_game 4 0%nat = Some None
  /\ @Minimax.get_action nat exhausted_game 4 {| Minimax.moves := [] |} 0%nat
     = Some (None, {| Minimax.moves := [] |})
  /\ @HMinimax1.hminimax unit (single ghost_facing_pacman) 1 tt = Some None
  /\ @HMinimax1.get_action unit (single ghost_facing_pacman) 1
       {| HMinimax1.moves := [] |} tt
     = Some (None, {| HMinimax1.moves := [] |})
  /\ fst <$> @HMinimax0.get_action unit (single ghost_facing_pacman) 1
               fresh_agent0 tt
     = Some None.
Proof.
  assert (Hp : @Minimax.minimax nat exhausted_game 4 0%nat = Some None)
    by (vm_compute; reflexivity).
  assert (Hb : @HMinimax1.hminimax unit (single ghost_facing_pacman) 1 tt
               = Some None)
    by (vm_compute; reflexivity).
  destruct (@get_action_returns_None_when_no_move nat exhausted_game 4 0%nat)
    as [Hplain _].
  destruct (@get_action_returns_None_when_no_move unit
              (single ghost_facing_pacman) 1 tt) as [_ HB].
  split; [exact Hp |]. split; [exact (Hplain Hp) |].
  split; [exact Hb |]. split; [exact (HB Hb) |].
  vm_compute. reflexivity.
Defined.

(** ** Pruning against the exhaustive search *)

(** C1, as stated, fails for the engines with a visited table: on the
    transposition game the plain engine, called on the root for the
    maximiser with the full window, returns value 1 with move East, and the
    exhaustive search with the same visited-table rule returns value 0 with
    move West.  Pruning skips state 6 under state 4, so the key of 6 is not
    in the table when 6 is met again under state 2.  The same happens in
    variant B on its transposition game: value -25 with move East against
    value -523 with move West. *)
Lemma pruning_changes_result_with_visited_table :
  fst <$> @Minimax.minimax_aux nat transposition_game 4 0%nat
            NegInf PosInf true ∅
  = Some (Fin 1, Some East)
  /\ fst <$> @minimax_exhaustive nat transposition_game 4 0%nat true ∅
     = Some (Fin 0, Some West)
  /\ fst <$> @HMinimax1.hminimax_aux nat transposition_B_game 4 0%nat
               NegInf PosInf true ∅ 0
     = Some (Fin (-25), Some East)
  /\ fst <$> @hminimax1_exhaustive nat transposition_B_game 4 0%nat true ∅ 0
     = Some (Fin (-523), Some West).
Proof. repeat split; vm_compute; reflexivity. Qed.

(** ** The visited table *)

Section VisitedFacts.
Context {State : Type} `{GameState State}.

Lemma admissible_stored_not_below (visited : Visited) (next_state : State)
    (old : Z) :
  visited !! key next_state = Some old -> getScore next_state <= old ->
  admissible visited next_state = false.
Proof.
  intros Hold Hle. unfold admissible. cbv zeta. rewrite Hold.
  rewrite bool_decide_true by eauto. simpl. apply Z.ltb_ge. exact Hle.
Qed.

Lemma admissible_write (visited : Visited) (next_state : State) :
  admissible visited next_state = true ->
  visited_write visited (<[key next_state := getScore next_state]> visited).
Proof.
  unfold admissible. cbv zeta.
  destruct (visited !! key next_state) as [old |] eqn:Hold; intros Ha.
  - rewrite bool_decide_true in Ha by eauto. simpl in Ha.
    apply Z.ltb_lt in Ha. eapply write_better; eassumption.
  - apply write_fresh. exact Hold.
Qed.

Lemma max_loop_visited_skip (rec : rec_call) (next_state : State)
    (action : Direction) (rest : list (State * Direction))
    (max_value : ZVal) (best_action : option Direction) (alpha beta : ZVal)
    (visited : Visited) (old : Z) :
  visited !! key next_state = Some old -> getScore next_state <= old ->
  max_loop_visited rec ((next_state, action) :: rest) max_value best_action
    alpha beta visited
  = max_loop_visited rec rest max_value best_action alpha beta visited.
Proof.
  intros Hold Hle. simpl.
  rewrite (admissible_stored_not_below visited next_state old Hold Hle).
  reflexivity.
Qed.

Lemma min_loop_visited_skip (rec : rec_call) (next_state : State)
    (action : Direction) (rest : list (State * Direction))
    (min_value : ZVal) (best_action : option Direction) (alpha beta : ZVal)
    (visited : Visited) (old : Z) :
  visited !! key next_state = Some old -> getScore next_state <= old ->
  min_loop_visited rec ((next_state, action) :: rest) min_value best_action
    alpha beta visited
  = min_loop_visited rec rest min_value best_action alpha beta visited.
Proof.
  intros Hold Hle. simpl.
  rewrite (admissible_stored_not_below visited next_state old Hold Hle).
  reflexivity.
Qed.

Lemma max_loop_visited_writes (rec : rec_call)
    (Hrec : forall ns a b v value v',
        rec ns a b v = Some (value, v') -> rtc visited_write v v')
    (succs : list (State * Direction)) :
  forall max_value best_action alpha beta visited r visited',
    max_loop_visited rec succs max_value best_action alpha beta visited
    = Some (r, visited') ->
    rtc visited_write visited visited'.
Proof.
  induction succs as [| [next_state action] rest IH];
    intros max_value best_action alpha beta visited r visited' Hrun;
    simpl in Hrun.
  - inversion Hrun; subst. apply rtc_refl.
  - destruct (admissible visited next_state) eqn:Hadm;
      [| eapply IH; exact Hrun].
    destruct (rec next_state alpha beta _) as [[value visited1] |] eqn:Hcall;
      [| discriminate].
    eapply rtc_l; [apply admissible_write; exact Hadm |].
    eapply rtc_trans; [eapply Hrec; exact Hcall |].
    destruct (ext_ltb Z.ltb max_value value && negb (is_PosInf value));
      destruct (ext_geb Z.ltb _ beta);
      try (inversion Hrun; subst; apply rtc_refl);
      eapply IH; exact Hrun.
Qed.

Lemma min_loop_visited_writes (rec : rec_call)
    (Hrec : forall ns a b v value v',
        rec ns a b v = Some (value, v') -> rtc visited_write v v')
    (succs : list (State * Direction)) :
  forall min_value best_action alpha beta visited r visited',
    min_loop_visited rec succs min_value best_action alpha beta visited
    = Some (r, visited') ->
    rtc visited_write visited visited'.
Proof.
  induction succs as [| [next_state action] rest IH];
    intros min_value best_action alpha beta visited r visited' Hrun;
    simpl in Hrun.
  - inversion Hrun; subst. apply rtc_refl.
  - destruct (admissible visited next_state) eqn:Hadm;
      [| eapply IH; exact Hrun].
    destruct (rec next_state alpha beta _) as [[value visited1] |] eqn:Hcall;
      [| discriminate].
    eapply rtc_l; [apply admissible_write; exact Hadm |].
    eapply rtc_trans; [eapply Hrec; exact Hcall |].
    destruct (ext_leb Z.ltb _ alpha);
      [inversion Hrun; subst; apply rtc_refl | eapply IH; exact Hrun].
Qed.

Lemma value_of_Some r value visited' :
  value_of r = Some (value, visited') ->
  exists move, r = Some (value, move, visited').
Proof.
  destruct r as [[[v m] vis] |]; simpl; intros Hr; [| discriminate].
  inversion Hr; subst. eauto.
Qed.

Lemma minimax_aux_writes (fuel : nat) :
  forall (state : State) alpha beta is_pacman visited r visited',
    Minimax.minimax_aux fuel state alpha beta is_pacman visited
    = Some (r, visited') ->
    rtc visited_write visited visited'.
Proof.
  induction fuel as [| fuel IH];
    intros state alpha beta is_pacman visited r visited' Hrun;
    simpl in Hrun; [discriminate |].
  destruct (Minimax.terminal state).
  - inversion Hrun; subst. apply rtc_refl.
  - destruct is_pacman;
      [eapply max_loop_visited_writes | eapply min_loop_visited_writes];
      try exact Hrun;
      intros ns a b v value v' Hcall;
      apply value_of_Some in Hcall as [move Hcall];
      eapply IH; exact Hcall.
Qed.

Lemma hminimax1_aux_writes (fuel : nat) :
  forall (state : State) alpha beta is_pacman visited depth r visited',
    HMinimax1.hminimax_aux fuel state alpha beta is_pacman visited depth
    = Some (r, visited') ->
    rtc visited_write visited visited'.
Proof.
  induction fuel as [| fuel IH];
    intros state alpha beta is_pacman visited depth r visited' Hrun;
    simpl in Hrun; [discriminate |].
  destruct (HMinimax1.cutoff state depth is_pacman).
  - inversion Hrun; subst. apply rtc_refl.
  - destruct is_pacman;
      [eapply max_loop_visited_writes | eapply min_loop_visited_writes];
      try exact Hrun;
      intros ns a b v value v' Hcall;
      apply value_of_Some in Hcall as [move Hcall];
      eapply IH; exact Hcall.
Qed.

(** Under such writes a stored score stays present and never decreases. *)
Lemma visited_writes_monotone (visited visited' : Visited) :
  rtc visited_write visited visited' ->
  forall k old, visited !! k = Some old ->
                exists new, visited' !! k = Some new /\ old <= new.
Proof.
  induction 1 as [v | v1 v2 v3 Hstep _ IH]; intros k old Hk.
  - exists old. split; [exact Hk | lia].
  - destruct Hstep as [v k0 s Hfresh | v k0 old0 s Hold0 Hlt].
    + destruct (decide (k0 = k)) as [-> | Hne]; [congruence |].
      apply IH. rewrite lookup_insert_ne by exact Hne. exact Hk.
    + destruct (decide (k0 = k)) as [-> | Hne].
      * destruct (IH k s) as [new [Hnew Hle]];
          [apply lookup_insert_eq |].
        exists new. split; [exact Hnew |]. rewrite Hk in Hold0.
        inversion Hold0; subst. lia.
      * apply IH. rewrite lookup_insert_ne by exact Hne. exact Hk.
Qed.
End VisitedFacts.

(** C6: in the engines with a visited table, a successor whose key is in
    the table with a stored score not below its own score is skipped by
    both loops whatever the recursive call would do: the loop goes on with
    the same values, bounds and table, so no call is made on it and nothing
    is written.  Over a whole search, the table changes only by writes of a
    fresh key or of a score strictly above the stored one; hence a stored
    score stays in the table and never decreases. *)
Theorem visited_table_discipline {State : Type} `{GameState State}
    (rec : rec_call) (next_state : State) (action : Direction)
    (rest : list (State * Direction)) (value : ZVal)
    (best_action : option Direction) (alpha beta : ZVal) (visited : Visited)
    (old : Z) (fuel : nat) (state : State) (is_pacman : bool) (depth : nat) :
  visited !! key next_state = Some old ->
  getScore next_state <= old ->
  max_loop_visited rec ((next_state, action) :: rest) value best_action
    alpha beta visited
  = max_loop_visited rec rest value best_action alpha beta visited
  /\ min_loop_visited rec ((next_state, action) :: rest) value best_action
       alpha beta visited
     = min_loop_visited rec rest value best_action alpha beta visited
  /\ (forall r visited',
         Minimax.minimax_aux fuel state alpha beta is_pacman visited
         = Some (r, visited') ->
         rtc visited_write visited visited'
         /\ exists new, visited' !! key next_state = Some new /\ old <= new)
  /\ (forall r visited',
         HMinimax1.hminimax_aux fuel state alpha beta is_pacman visited depth
         = Some (r, visited') ->
         rtc visited_write visited visited'
         /\ exists new, visited' !! key next_state = Some new /\ old <= new).
Proof.
  intros Hold Hle.
  split; [eapply max_loop_visited_skip; eassumption |].
  split; [eapply min_loop_visited_skip; eassumption |].
  split; intros r visited' Hrun.
  - pose proof (minimax_aux_writes _ _ _ _ _ _ _ _ Hrun) as Hw.
    split; [exact Hw |]. eapply visited_writes_monotone; eassumption.
  - pose proof (hminimax1_aux_writes _ _ _ _ _ _ _ _ _ Hrun) as Hw.
    split; [exact Hw |]. eapply visited_writes_monotone; eassumption.
Qed.

Lemma visited_table_discipline_witness :
  ({[ @key nat tie_game 1%nat := 0 ]} : Visited) !! @key nat tie_game 1%nat
  = Some 0
  /\ @getScore nat tie_game 1%nat <= 0
  /\ @max_loop_visited nat tie_game
       (fun ns a b v =>
          value_of (@HMinimax1.hminimax_aux nat tie_game 3 ns a b false v 1))
       [(1%nat, West); (2%nat, East)] NegInf None NegInf PosInf
       {[ @key nat tie_game 1%nat := 0 ]}
     = @max_loop_visited nat tie_game
         (fun ns a b v =>
            value_of (@HMinimax1.hminimax_aux nat tie_game 3 ns a b false v 1))
         [(2%nat, East)] NegInf None NegInf PosInf
         {[ @key nat tie_game 1%nat := 0 ]}
  /\ (forall r visited',
         @HMinimax1.hminimax_aux nat tie_game 4 0%nat NegInf PosInf true
           {[ @key nat tie_game 1%nat := 0 ]} 0
         = Some (r, visited') ->
         exists new, visited' !! @key nat tie_game 1%nat = Some new /\ 0 <= new).
Proof.
  assert (Hold : ({[ @key nat tie_game 1%nat := 0 ]} : Visited)
                   !! @key nat tie_game 1%nat = Some 0)
    by apply lookup_singleton_eq.
  assert (Hle : @getScore nat tie_game 1%nat <= 0) by (vm_compute; discriminate).
  destruct (@visited_table_discipline nat tie_game
              (fun ns a b v =>
                 value_of (@HMinimax1.hminimax_aux nat tie_game 3 ns a b false v 1))
              1%nat West [(2%nat, East)] NegInf None NegInf PosInf
              {[ @key nat tie_game 1%nat := 0 ]} 0 4 0%nat true 0%nat Hold Hle)
    as [Hmax [_ [_ Hrun]]].
  split; [exact Hold |]. split; [exact Hle |]. split; [exact Hmax |].
  intros r visited' Hr. destruct (Hrun r visited' Hr) as [_ Hnew]. exact Hnew.
Defined.

(** ** The plain engine evaluates terminal snapshots only *)

Section PlainEngine.
Context {State : Type} `{GameState State}.

Lemma terminal_win (state : State) :
  isWin state = true -> Minimax.terminal state = true.
Proof.
  intros Hw. unfold Minimax.terminal. rewrite Hw, orb_true_r. reflexivity.
Qed.

Lemma terminal_lose (state : State) :
  isLose state = true -> Minimax.terminal state = true.
Proof. intros Hl. unfold Minimax.terminal. rewrite Hl. reflexivity. Qed.

(** A finite value leaving the maximiser's loop entered it, or came from a
    recursive call on one of the successors. *)
Lemma max_loop_visited_value (P : Z -> Prop) (rec : rec_call)
    (succs : list (State * Direction))
    (Hrec : forall ns action a b v x v',
        In (ns, action) succs -> rec ns a b v = Some (Fin x, v') -> P x) :
  forall max_value best_action alpha beta visited x move visited',
    (forall y, max_value = Fin y -> P y) ->
    max_loop_visited rec succs max_value best_action alpha beta visited
    = Some (Fin x, move, visited') ->
    P x.
Proof.
  induction succs as [| [next_state action] rest IH];
    intros max_value best_action alpha beta visited x move visited' Hinit Hrun;
    simpl in Hrun.
  - inversion Hrun; subst. apply Hinit. reflexivity.
  - assert (Hrest : forall ns act a b v y v',
               In (ns, act) rest -> rec ns a b v = Some (Fin y, v') -> P y).
    { intros ns act a b v y v' Hin. eapply Hrec. right. exact Hin. }
    destruct (admissible visited next_state);
      [| eapply (IH Hrest); eassumption].
    destruct (rec next_state alpha beta _) as [[value visited1] |] eqn:Hcall;
      [| discriminate].
    assert (Hvalue : forall y, value = Fin y -> P y).
    { intros y ->. eapply Hrec; [left; reflexivity | exact Hcall]. }
    destruct (ext_ltb Z.ltb max_value value && negb (is_PosInf value));
      destruct (ext_geb Z.ltb _ beta);
      try (inversion Hrun; subst; auto; fail);
      eapply (IH Hrest); try exact Hrun; assumption.
Qed.

Lemma min_loop_visited_value (P : Z -> Prop) (rec : rec_call)
    (succs : list (State * Direction))
    (Hrec : forall ns action a b v x v',
        In (ns, action) succs -> rec ns a b v = Some (Fin x, v') -> P x) :
  forall min_value best_action alpha beta visited x move visited',
    (forall y, min_value = Fin y -> P y) ->
    min_loop_visited rec succs min_value best_action alpha beta visited
    = Some (Fin x, move, visited') ->
    P x.
Proof.
  induction succs as [| [next_state action] rest IH];
    intros min_value best_action alpha beta visited x move visited' Hinit Hrun;
    simpl in Hrun.
  - inversion Hrun; subst. apply Hinit. reflexivity.
  - assert (Hrest : forall ns act a b v y v',
               In (ns, act) rest -> rec ns a b v = Some (Fin y, v') -> P y).
    { intros ns act a b v y v' Hin. eapply Hrec. right. exact Hin. }
    destruct (admissible visited next_state);
      [| eapply (IH Hrest); eassumption].
    destruct (rec next_state alpha beta _) as [[value visited1] |] eqn:Hcall;
      [| discriminate].
    assert (Hvalue : forall y, value = Fin y -> P y).
    { intros y ->. eapply Hrec; [left; reflexivity | exact Hcall]. }
    destruct (ext_ltb Z.ltb value min_value && negb (is_NegInf value));
      destruct (ext_leb Z.ltb _ alpha);
      try (inversion Hrun; subst; auto; fail);
      eapply (IH Hrest); try exact Hrun; assumption.
Qed.

(** Every finite value the plain engine returns is the utility of a
    terminal snapshot reachable from the searched one. *)
Lemma minimax_aux_value_is_utility (fuel : nat) :
  forall (state : State) alpha beta is_pacman visited x move visited',
    Minimax.minimax_aux fuel state alpha beta is_pacman visited
    = Some (Fin x, move, visited') ->
    exists t, rtc successor state t
              /\ Minimax.terminal t = true
              /\ Minimax.utility_function t = Fin x.
Proof.
  induction fuel as [| fuel IH];
    intros state alpha beta is_pacman visited x move visited' Hrun;
    simpl in Hrun; [discriminate |].
  destruct (Minimax.terminal state) eqn:Hterm.
  - inversion Hrun; subst. exists state.
    split; [apply rtc_refl |]. split; [exact Hterm | reflexivity].
  - destruct is_pacman.
    + eapply (max_loop_visited_value
                (fun y => exists t, rtc successor state t
                                    /\ Minimax.terminal t = true
                                    /\ Minimax.utility_function t = Fin y));
        [| | exact Hrun].
      * intros ns action a b v y v' Hin Hcall.
        apply value_of_Some in Hcall as [m Hcall].
        destruct (IH _ _ _ _ _ _ _ _ Hcall) as [t [Hreach Ht]].
        exists t. split; [| exact Ht].
        eapply rtc_l; [| exact Hreach]. exists action. left. exact Hin.
      * intros y Hy. discriminate Hy.
    + eapply (min_loop_visited_value
                (fun y => exists t, rtc successor state t
                                    /\ Minimax.terminal t = true
                                    /\ Minimax.utility_function t = Fin y));
        [| | exact Hrun].
      * intros ns action a b v y v' Hin Hcall.
        apply value_of_Some in Hcall as [m Hcall].
        destruct (IH _ _ _ _ _ _ _ _ Hcall) as [t [Hreach Ht]].
        exists t. split; [| exact Ht].
        eapply rtc_l; [| exact Hreach]. exists action. right. exact Hin.
      * intros y Hy. discriminate Hy.
Qed.
End PlainEngine.

(** C8: the plain engine evaluates a terminal snapshot, whatever the
    bounds, the side and the table, to 1 with no move when it is a win and
    to 0 with no move when it is a loss and not a win; and it evaluates
    terminal snapshots only: every finite value it returns, on any
    snapshot, is the utility, 1 or 0, of a terminal snapshot reachable from
    the searched one. *)
Theorem plain_engine_binary_on_terminals {State : Type} `{GameState State}
    (fuel : nat) (state : State) (alpha beta : ZVal) (is_pacman : bool)
    (visited : Visited) :
  (isWin state = true ->
   Minimax.minimax_aux (S fuel) state alpha beta is_pacman visited
   = Some (Fin 1, None, visited))
  /\ (isLose state = true -> isWin state = false ->
      Minimax.minimax_aux (S fuel) state alpha beta is_pacman visited
      = Some (Fin 0, None, visited))
  /\ (forall x move visited',
         Minimax.minimax_aux fuel state alpha beta is_pacman visited
         = Some (Fin x, move, visited') ->
         exists t, rtc successor state t
                   /\ (isWin t = true \/ isLose t = true)
                   /\ x = (if isWin t then 1 else 0)).
Proof.
  split; [| split].
  - intros Hw. simpl. rewrite (terminal_win state Hw).
    unfold Minimax.utility_function. rewrite Hw. reflexivity.
  - intros Hl Hw. simpl. rewrite (terminal_lose state Hl).
    unfold Minimax.utility_function. rewrite Hw. reflexivity.
  - intros x move visited' Hrun.
    destruct (minimax_aux_value_is_utility _ _ _ _ _ _ _ _ _ Hrun)
      as [t [Hreach [Hterm Hutil]]].
    exists t. split; [exact Hreach |]. split.
    + unfold Minimax.terminal in Hterm.
      destruct (isWin t); [left; reflexivity |].
      destruct (isLose t); [right; reflexivity | discriminate Hterm].
    + unfold Minimax.utility_function in Hutil. inversion Hutil.
      destruct (isWin t); reflexivity.
Qed.

Lemma plain_engine_binary_on_terminals_witness :
  @isWin unit (single won_snapshot) tt = true
  /\ @Minimax.minimax_aux unit (single won_snapshot) 1 tt NegInf PosInf true ∅
     = Some (Fin 1, None, ∅)
  /\ @isLose unit (single lost_snapshot) tt = true
  /\ @isWin unit (single lost_snapshot) tt = false
  /\ @Minimax.minimax_aux unit (single lost_snapshot) 1 tt NegInf PosInf true ∅
     = Some (Fin 0, None, ∅)
  /\ (exists move visited',
         @Minimax.minimax_aux nat transposition_game 4 0%nat NegInf PosInf
           true ∅ = Some (Fin 1, move, visited'))
  /\ (exists t : nat,
         rtc (@successor nat transposition_game) 0%nat t
         /\ (@isWin nat transposition_game t = true
             \/ @isLose nat transposition_game t = true)
         /\ 1 = (if @isWin nat transposition_game t then 1 else 0)).
Proof.
  assert (Hw : @isWin unit (single won_snapshot) tt = true) by reflexivity.
  assert (Hl : @isLose unit (single lost_snapshot) tt = true) by reflexivity.
  assert (Hnw : @isWin unit (single lost_snapshot) tt = false) by reflexivity.
  destruct (@plain_engine_binary_on_terminals unit (single won_snapshot) 0 tt
              NegInf PosInf true ∅) as [Hwin _].
  destruct (@plain_engine_binary_on_terminals unit (single lost_snapshot) 0 tt
              NegInf PosInf true ∅) as [_ [Hlose _]].
  destruct (@plain_engine_binary_on_terminals nat transposition_game 4 0%nat
              NegInf PosInf true ∅) as [_ [_ Hval]].
  assert (Hfst : fst <$> @Minimax.minimax_aux nat transposition_game 4 0%nat
                           NegInf PosInf true ∅
                 = Some (Fin 1, Some East))
    by (vm_compute; reflexivity).
  destruct (@Minimax.minimax_aux nat transposition_game 4 0%nat NegInf PosInf
              true ∅) as [[[value move] visited'] |] eqn:Hrun;
    simpl in Hfst; [| discriminate Hfst].
  inversion Hfst; subst.
  split; [exact Hw |]. split; [exact (Hwin Hw) |].
  split; [exact Hl |]. split; [exact Hnw |]. split; [exact (Hlose Hl Hnw) |].
  split; [exists (Some East), visited'; reflexivity |].
  exact (Hval 1 (Some East) visited' eq_refl).
Defined.

(** ** Ties in the maximiser's loop *)

Section Ties.
Context {State : Type} `{GameState State}.

Lemma Qltb_irrefl (q : Q) : Qltb q q = false.
Proof.
  unfold Qltb. apply negb_false_iff. apply Qle_bool_iff. apply Qle_refl.
Qed.

(** A returned value that is not strictly greater than the running
    maximum leaves the maximum and the recorded move as they are. *)
Lemma max_loop0_no_overwrite (rec : State -> QVal -> QVal -> option QVal)
    (next_state : State) (action : Direction)
    (rest : list (State * Direction)) (max_value value : QVal)
    (best_action : option Direction) (alpha beta : QVal) :
  rec next_state alpha beta = Some value ->
  ext_ltb Qltb max_value value = false ->
  HMinimax0.max_loop rec ((next_state, action) :: rest) max_value best_action
    alpha beta
  = if ext_geb Qltb max_value beta then Some (max_value, best_action)
    else HMinimax0.max_loop rec rest max_value best_action
           (ext_max Qltb alpha max_value) beta.
Proof. intros Hcall Hle. simpl. rewrite Hcall, Hle. reflexivity. Qed.

Lemma max_loop_visited_no_overwrite (rec : rec_call)
    (next_state : State) (action : Direction)
    (rest : list (State * Direction)) (max_value value : ZVal)
    (best_action : option Direction) (alpha beta : ZVal)
    (visited visited1 : Visited) :
  admissible visited next_state = true ->
  rec next_state alpha beta (<[key next_state := getScore next_state]> visited)
  = Some (value, visited1) ->
  ext_ltb Z.ltb max_value value = false ->
  max_loop_visited rec ((next_state, action) :: rest) max_value best_action
    alpha beta visited
  = if ext_geb Z.ltb max_value beta then Some (max_value, best_action, visited1)
    else max_loop_visited rec rest max_value best_action
           (ext_max Z.ltb alpha max_value) beta visited1.
Proof.
  intros Hadm Hcall Hle. simpl. rewrite Hadm, Hcall, Hle. reflexivity.
Qed.
End Ties.

(** C9: in the maximiser's loop of variant A and in the one of the engines
    with a visited table, started as the engines start it, when the first
    two (admissible) successors return the same finite value and no other
    successor follows, the pair returned holds that value with the move of
    the first successor; and at any point of either loop, a returned value
    that is not strictly greater than the running maximum leaves the
    maximum and the recorded move unchanged, so a tie never overwrites the
    move found first. *)
Theorem maximiser_keeps_first_best {State : Type} `{GameState State}
    (rec0 : State -> QVal -> QVal -> option QVal) (rec : rec_call)
    (s1 s2 : State) (a1 a2 : Direction) (rest : list (State * Direction))
    (q : Q) (qalpha qbeta qmax qvalue : QVal)
    (z : Z) (alpha beta zmax zvalue : ZVal)
    (best_action : option Direction)
    (visited visited1 visited2 : Visited) :
  (rec0 s1 qalpha qbeta = Some (Fin q) ->
   rec0 s2 (ext_max Qltb qalpha (Fin q)) qbeta = Some (Fin q) ->
   HMinimax0.max_loop rec0 [(s1, a1); (s2, a2)] NegInf None qalpha qbeta
   = Some (Fin q, Some a1))
  /\ (admissible visited s1 = true ->
      rec s1 alpha beta (<[key s1 := getScore s1]> visited)
      = Some (Fin z, visited1) ->
      admissible visited1 s2 = true ->
      rec s2 (ext_max Z.ltb alpha (Fin z)) beta
        (<[key s2 := getScore s2]> visited1)
      = Some (Fin z, visited2) ->
      exists visited',
        max_loop_visited rec [(s1, a1); (s2, a2)] NegInf None alpha beta visited
        = Some (Fin z, Some a1, visited'))
  /\ (rec0 s2 qalpha qbeta = Some qvalue ->
      ext_ltb Qltb qmax qvalue = false ->
      HMinimax0.max_loop rec0 ((s2, a2) :: rest) qmax best_action qalpha qbeta
      = if ext_geb Qltb qmax qbeta then Some (qmax, best_action)
        else HMinimax0.max_loop rec0 rest qmax best_action
               (ext_max Qltb qalpha qmax) qbeta)
  /\ (admissible visited s2 = true ->
      rec s2 alpha beta (<[key s2 := getScore s2]> visited)
      = Some (zvalue, visited1) ->
      ext_ltb Z.ltb zmax zvalue = false ->
      max_loop_visited rec ((s2, a2) :: rest) zmax best_action alpha beta visited
      = if ext_geb Z.ltb zmax beta then Some (zmax, best_action, visited1)
        else max_loop_visited rec rest zmax best_action
               (ext_max Z.ltb alpha zmax) beta visited1).
Proof.
  split; [| split; [| split]].
  - intros Hfirst Hsecond. simpl. rewrite Hfirst. simpl.
    destruct (ext_geb Qltb (Fin q) qbeta); [reflexivity |].
    rewrite Hsecond. simpl. rewrite Qltb_irrefl. simpl.
    destruct (ext_geb Qltb (Fin q) qbeta); reflexivity.
  - intros Hadm1 Hfirst Hadm2 Hsecond. simpl. rewrite Hadm1, Hfirst. simpl.
    destruct (ext_geb Z.ltb (Fin z) beta); [eauto |].
    rewrite Hadm2, Hsecond. simpl. rewrite Z.ltb_irrefl. simpl.
    destruct (ext_geb Z.ltb (Fin z) beta); eauto.
  - apply max_loop0_no_overwrite.
  - apply max_loop_visited_no_overwrite.
Qed.

Lemma maximiser_keeps_first_best_witness :
  (fst <$> @HMinimax0.hminimax_aux nat tie_game 1 fresh_agent0 1%nat
             NegInf PosInf false 1) = Some (Fin (-8 # 8))
  /\ (fst <$> @HMinimax0.hminimax_aux nat tie_game 1 fresh_agent0 2%nat
                (ext_max Qltb NegInf (Fin (-8 # 8))) PosInf false 1)
     = Some (Fin (-8 # 8))
  /\ @HMinimax0.hminimax_aux nat tie_game 2 fresh_agent0 0%nat
       NegInf PosInf true 0
     = Some (Fin (-8 # 8), Some West)
  /\ @admissible nat tie_game ∅ 1%nat = true
  /\ @admissible nat tie_game
       (<[@key nat tie_game 1%nat := @getScore nat tie_game 1%nat]> ∅) 2%nat
     = true
  /\ (exists visited',
         @max_loop_visited nat tie_game
           (fun ns a b v =>
              value_of (@HMinimax1.hminimax_aux nat tie_game 1 ns a b false v 1))
           [(1%nat, West); (2%nat, East)] NegInf None NegInf PosInf ∅
         = Some (Fin (-19), Some West, visited'))
  /\ @HMinimax0.max_loop nat
       (fun next_state a b =>
          fst <$> @HMinimax0.hminimax_aux nat tie_game 1 fresh_agent0
                    next_state a b false 1)
       [(2%nat, East)] (Fin (-8 # 8)) (Some West) (Fin (-8 # 8)) PosInf
     = Some (Fin (-8 # 8), Some West).
Proof.
  assert (Hfirst : (fst <$> @HMinimax0.hminimax_aux nat tie_game 1 fresh_agent0
                              1%nat NegInf PosInf false 1)
                   = Some (Fin (-8 # 8)))
    by (vm_compute; reflexivity).
  assert (Hsecond : (fst <$> @HMinimax0.hminimax_aux nat tie_game 1 fresh_agent0
                               2%nat (ext_max Qltb NegInf (Fin (-8 # 8)))
                               PosInf false 1)
                    = Some (Fin (-8 # 8)))
    by (vm_compute; reflexivity).
  assert (Hadm1 : @admissible nat tie_game ∅ 1%nat = true) by reflexivity.
  assert (Hadm2 : @admissible nat tie_game
                    (<[@key nat tie_game 1%nat := @getScore nat tie_game 1%nat]> ∅)
                    2%nat = true)
    by (vm_compute; reflexivity).
  destruct (@maximiser_keeps_first_best nat tie_game
              (fun next_state a b =>
                 fst <$> @HMinimax0.hminimax_aux nat tie_game 1 fresh_agent0
                           next_state a b false 1)
              (fun ns a b v =>
                 value_of (@HMinimax1.hminimax_aux nat tie_game 1 ns a b false v 1))
              1%nat 2%nat West East [] (-8 # 8) NegInf PosInf NegInf NegInf
              (-19) NegInf PosInf NegInf NegInf None
              ∅
              (<[@key nat tie_game 1%nat := @getScore nat tie_game 1%nat]> ∅)
              (<[@key nat tie_game 2%nat := @getScore nat tie_game 2%nat]>
                 (<[@key nat tie_game 1%nat := @getScore nat tie_game 1%nat]> ∅)))
    as [Hloop [Htable _]].
  destruct (@maximiser_keeps_first_best nat tie_game
              (fun next_state a b =>
                 fst <$> @HMinimax0.hminimax_aux nat tie_game 1 fresh_agent0
                           next_state a b false 1)
              (fun _ _ _ _ => None)
              1%nat 2%nat West East [] (-8 # 8) (Fin (-8 # 8)) PosInf
              (Fin (-8 # 8)) (Fin (-8 # 8))
              0 NegInf PosInf NegInf NegInf (Some West) ∅ ∅ ∅)
    as [_ [_ [Hstep _]]].
  split; [exact Hfirst |]. split; [exact Hsecond |].
  split; [exact (Hloop Hfirst Hsecond) |].
  split; [exact Hadm1 |]. split; [exact Hadm2 |].
  split; [exact (Htable Hadm1 eq_refl Hadm2 eq_refl) |].
  rewrite (Hstep Hsecond eq_refl). reflexivity.
Defined.

(** ** Pruning in variant A, which has no visited table *)

Lemma Qltb_lt (a b : Q) : Qltb a b = true <-> (a < b)%Q.
Proof.
  unfold Qltb. rewrite negb_true_iff. split.
  - intros Hb. apply Qnot_le_lt. intros Hle. apply Qle_bool_iff in Hle. congruence.
  - intros Hlt. destruct (Qle_bool b a) eqn:E; [| reflexivity].
    apply Qle_bool_iff in E. exfalso. apply (Qlt_not_le _ _ Hlt E).
Qed.

Lemma Qltb_ge (a b : Q) : Qltb a b = false <-> (b <= a)%Q.
Proof.
  unfold Qltb. rewrite negb_false_iff. apply Qle_bool_iff.
Qed.

Ltac q_props :=
  repeat match goal with
    | H : Qltb _ _ = true |- _ => apply Qltb_lt in H
    | H : Qltb _ _ = false |- _ => apply Qltb_ge in H
    | H : context [Qltb ?a ?b] |- _ => destruct (Qltb a b) eqn:?; simpl in H
    | |- context [Qltb ?a ?b] => destruct (Qltb a b) eqn:?; simpl
    end.

Ltac ext_destruct :=
  repeat match goal with
    | x : QVal |- _ => destruct x; simpl in *; try discriminate; try congruence
    end.

Ltac ext_finish :=
  simpl in *; try discriminate; try congruence; q_props;
  try discriminate; try congruence; try reflexivity; try lra;
  repeat match goal with
    | H : Fin _ = Fin _ |- _ => inversion H; subst; clear H
    end; try reflexivity; try lra.

Ltac ext_order :=
  unfold qlt, qle, ext_geb, ext_leb, ext_max, ext_min in *;
  repeat match goal with
    | H : finite _ |- _ => destruct H as [? ->]
    | H : negb _ = true |- _ => apply negb_true_iff in H
    | H : negb _ = false |- _ => apply negb_false_iff in H
    end;
  ext_destruct; ext_finish.

Section PruningVariantA.
Context {State : Type} `{GameState State}.

Lemma max_loop_exhaustive_ge rec (succs : list (State * Direction)) :
  forall m ba v mv,
    max_loop_exhaustive rec succs m ba = Some (v, mv) ->
    qle m v /\ (m <> PosInf -> v <> PosInf).
Proof.
  induction succs as [| [ns act] rest IH]; intros m ba v mv Hrun; simpl in Hrun.
  - inversion Hrun; subst. split; [| auto]. ext_order.
  - destruct (rec ns) as [vi |]; [| discriminate].
    destruct (ext_ltb Qltb m vi && negb (is_PosInf vi)) eqn:Eu.
    + apply IH in Hrun as [Hge Hne]. apply andb_true_iff in Eu as [Eu1 Eu2].
      split.
      * clear Hne. ext_order.
      * intros _. apply Hne. clear Hge Hne. ext_order.
    + apply IH in Hrun as [Hge Hne]. split; assumption.
Qed.

Lemma max_loop_sim (rec_ex : State -> option QVal)
    (rec_pr : State -> QVal -> QVal -> option QVal)
    (Hrec : forall ns a b v, qlt a b -> rec_ex ns = Some v ->
              exists r, rec_pr ns a b = Some r /\ value_rel a b v r)
    (alpha0 beta : QVal) (Hwin : qlt alpha0 beta)
    (succs : list (State * Direction)) :
  forall m ba m' ba' a res,
    m <> PosInf ->
    qlt m' beta ->
    alpha_ok a alpha0 m' ->
    max_inv alpha0 (m, ba) (m', ba') ->
    max_loop_exhaustive rec_ex succs m ba = Some res ->
    exists res',
      HMinimax0.max_loop rec_pr succs m' ba' a beta = Some res'
      /\ node_rel alpha0 beta res res'.
Proof.
  induction succs as [| [ns act] rest IH];
    intros m ba m' ba' a res Hm Hm' Ha Hinv Hex; simpl in Hex.
  - inversion Hex; subst. exists (m', ba'). split; [reflexivity |].
    destruct Hinv as [Heq | (Hf & Hf' & Hle & Hle')].
    + left. exact Heq.
    + right. simpl in *. auto.
  - destruct (rec_ex ns) as [vi |] eqn:Evi; [| discriminate].
    assert (Hab : qlt a beta).
    { destruct Ha as (Ha1 & Ha2 & Ha3). clear Hinv Hex IH Hrec.
      destruct Ha3; ext_order. }
    destruct (Hrec ns a beta vi Hab Evi) as [ri [Hpr Hrel]].
    simpl. rewrite Hpr.
    destruct res as [v mv].
    destruct Ha as (Ha1 & Ha2 & Ha3).
    destruct (ext_ltb Qltb m vi && negb (is_PosInf vi)) eqn:Eu;
      destruct (ext_ltb Qltb m' ri && negb (is_PosInf ri)) eqn:Eu'.
    all: try (apply andb_true_iff in Eu as [Eu1 Eu2]).
    all: try (apply andb_true_iff in Eu' as [Eu1' Eu2']).
    { (* both update *)
      destruct (max_loop_exhaustive_ge _ _ _ _ _ _ Hex) as [Hge Hne].
      assert (Hvfin : vi <> PosInf) by (clear - Eu2; ext_order).
      specialize (Hne Hvfin).
      destruct (ext_geb Qltb ri beta) eqn:Eg.
      + exists (ri, Some act). split; [reflexivity |].
        right. simpl.
        clear IH Hrec Hex Evi Hpr Hinv.
        destruct Hrel as [-> | (Hfv & Hfr & [[Hl Hl'] | [Hh Hh']])];
          destruct Ha3; ext_order; repeat split; unfold finite; eauto;
          try (right; split); ext_finish.
      + eapply IH; try exact Hex; try exact Hvfin.
        * clear - Eg. ext_order.
        * clear - Ha1 Ha2 Ha3 Eu1'. unfold alpha_ok.
          destruct Ha3; ext_order; repeat split; try (left; ext_finish; fail);
            try (right; ext_finish; fail); ext_finish.
        * clear IH Hrec Hex Evi Hpr.
          destruct Hrel as [-> | (Hfv & Hfr & [[Hl Hl'] | [Hh Hh']])].
          -- left. reflexivity.
          -- right. simpl. destruct Ha3; ext_order;
               repeat split; unfold finite; eauto; ext_finish.
          -- exfalso. ext_order. }
    { (* only the exhaustive search updates *)
      assert (Hvfin : vi <> PosInf) by (clear - Eu2; ext_order).
      assert (Hgo : ext_geb Qltb m' beta = false) by (clear - Hm'; ext_order).
      rewrite Hgo.
      eapply IH; try exact Hex; try exact Hvfin; try exact Hm'.
      * clear - Ha1 Ha2 Ha3. unfold alpha_ok.
        destruct Ha3; ext_order; repeat split; try (left; ext_finish; fail);
          try (right; ext_finish; fail); ext_finish.
      * right. simpl. clear IH Hrec Hex Evi Hpr.
        destruct Hinv as [Heq | (Hf & Hf' & Hle & Hle')];
          [inversion Heq; subst; clear Heq | simpl in *];
          (destruct Hrel as [-> | (Hfv & Hfr & [[Hl Hl'] | [Hh Hh']])]);
          destruct Ha3; ext_order; repeat split; unfold finite; eauto;
          ext_finish. }
    { (* only the pruned search updates *)
      destruct (ext_geb Qltb ri beta) eqn:Eg.
      + exfalso. clear IH Hrec Hex Evi Hpr.
        destruct Hinv as [Heq | (Hf & Hf' & Hle & Hle')];
          [inversion Heq; subst; clear Heq | simpl in *];
          (destruct Hrel as [-> | (Hfv & Hfr & [[Hl Hl'] | [Hh Hh']])]);
          destruct Ha3; ext_order.
      + eapply IH; try exact Hex; try exact Hm.
        * clear - Eg. ext_order.
        * clear - Ha1 Ha2 Ha3 Eu1'. unfold alpha_ok.
          destruct Ha3; ext_order; repeat split; try (left; ext_finish; fail);
            try (right; ext_finish; fail); ext_finish.
        * right. simpl. clear IH Hrec Hex Evi Hpr.
          destruct Hinv as [Heq | (Hf & Hf' & Hle & Hle')];
            [inversion Heq; subst; clear Heq | simpl in *];
            (destruct Hrel as [-> | (Hfv & Hfr & [[Hl Hl'] | [Hh Hh']])]);
            destruct Ha3; ext_order; repeat split; unfold finite; eauto;
            ext_finish. }
    { (* no update *)
      assert (Hgo : ext_geb Qltb m' beta = false) by (clear - Hm'; ext_order).
      rewrite Hgo.
      eapply IH; try exact Hex; try exact Hm; try exact Hm'; try exact Hinv.
      clear - Ha1 Ha2 Ha3. unfold alpha_ok.
      destruct Ha3; ext_order; repeat split; try (left; ext_finish; fail);
        try (right; ext_finish; fail); ext_finish. }
Qed.

Lemma min_loop_exhaustive_le rec (succs : list (State * Direction)) :
  forall m ba v mv,
    min_loop_exhaustive rec succs m ba = Some (v, mv) ->
    qle v m /\ (m <> NegInf -> v <> NegInf).
Proof.
  induction succs as [| [ns act] rest IH]; intros m ba v mv Hrun; simpl in Hrun.
  - inversion Hrun; subst. split; [| auto]. ext_order.
  - destruct (rec ns) as [vi |]; [| discriminate].
    destruct (ext_ltb Qltb vi m && negb (is_NegInf vi)) eqn:Eu.
    + apply IH in Hrun as [Hge Hne]. apply andb_true_iff in Eu as [Eu1 Eu2].
      split.
      * clear Hne. ext_order.
      * intros _. apply Hne. clear Hge Hne. ext_order.
    + apply IH in Hrun as [Hge Hne]. split; assumption.
Qed.

Lemma min_loop_sim (rec_ex : State -> option QVal)
    (rec_pr : State -> QVal -> QVal -> option QVal)
    (Hrec : forall ns a b v, qlt a b -> rec_ex ns = Some v ->
              exists r, rec_pr ns a b = Some r /\ value_rel a b v r)
    (alpha beta0 : QVal) (Hwin : qlt alpha beta0)
    (succs : list (State * Direction)) :
  forall m ba m' b res,
    m <> NegInf ->
    qlt alpha m' ->
    beta_ok b beta0 m' ->
    min_inv beta0 (m, ba) (m', ba) ->
    min_loop_exhaustive rec_ex succs m ba = Some res ->
    exists res',
      HMinimax0.min_loop rec_pr succs m' ba alpha b = Some res'
      /\ node_rel alpha beta0 res res'.
Proof.
  induction succs as [| [ns act] rest IH];
    intros m ba m' b res Hm Hm' Hb Hinv Hex; simpl in Hex.
  - inversion Hex; subst. exists (m', ba). split; [reflexivity |].
    destruct Hinv as [Heq | (Hf & Hf' & Hle & Hle')].
    + left. exact Heq.
    + right. simpl in *. auto.
  - destruct (rec_ex ns) as [vi |] eqn:Evi; [| discriminate].
    assert (Hab : qlt alpha b).
    { destruct Hb as (Hb1 & Hb2 & Hb3). clear Hinv Hex IH Hrec.
      destruct Hb3; ext_order. }
    destruct (Hrec ns alpha b vi Hab Evi) as [ri [Hpr Hrel]].
    simpl. rewrite Hpr.
    destruct res as [v mv].
    destruct Hb as (Hb1 & Hb2 & Hb3).
    destruct (ext_ltb Qltb vi m && negb (is_NegInf vi)) eqn:Eu;
      destruct (ext_ltb Qltb ri m' && negb (is_NegInf ri)) eqn:Eu'.
    all: try (apply andb_true_iff in Eu as [Eu1 Eu2]).
    all: try (apply andb_true_iff in Eu' as [Eu1' Eu2']).
    { (* both update *)
      destruct (min_loop_exhaustive_le _ _ _ _ _ _ Hex) as [Hge Hne].
      assert (Hvfin : vi <> NegInf) by (clear - Eu2; ext_order).
      specialize (Hne Hvfin).
      destruct (ext_leb Qltb ri alpha) eqn:Eg.
      + exists (ri, ba). split; [reflexivity |].
        right. simpl.
        clear IH Hrec Hex Evi Hpr Hinv.
        destruct Hrel as [-> | (Hfv & Hfr & [[Hl Hl'] | [Hh Hh']])];
          destruct Hb3; ext_order; repeat split; unfold finite; eauto;
          try (left; split); ext_finish.
      + eapply IH; try exact Hex; try exact Hvfin.
        * clear - Eg. ext_order.
        * clear - Hb1 Hb2 Hb3 Eu1'. unfold beta_ok.
          destruct Hb3; ext_order; repeat split; try (left; ext_finish; fail);
            try (right; ext_finish; fail); ext_finish.
        * clear IH Hrec Hex Evi Hpr.
          destruct Hrel as [-> | (Hfv & Hfr & [[Hl Hl'] | [Hh Hh']])].
          -- left. reflexivity.
          -- exfalso. ext_order.
          -- right. simpl. destruct Hb3; ext_order;
               repeat split; unfold finite; eauto; ext_finish. }
    { (* only the exhaustive search updates *)
      assert (Hvfin : vi <> NegInf) by (clear - Eu2; ext_order).
      assert (Hgo : ext_leb Qltb m' alpha = false) by (clear - Hm'; ext_order).
      rewrite Hgo.
      eapply IH; try exact Hex; try exact Hvfin; try exact Hm'.
      * clear - Hb1 Hb2 Hb3. unfold beta_ok.
        destruct Hb3; ext_order; repeat split; try (left; ext_finish; fail);
          try (right; ext_finish; fail); ext_finish.
      * right. simpl. clear IH Hrec Hex Evi Hpr.
        destruct Hinv as [Heq | (Hf & Hf' & Hle & Hle')];
          [inversion Heq; subst; clear Heq | simpl in *];
          (destruct Hrel as [-> | (Hfv & Hfr & [[Hl Hl'] | [Hh Hh']])]);
          destruct Hb3; ext_order; repeat split; unfold finite; eauto;
          ext_finish. }
    { (* only the pruned search updates *)
      destruct (ext_leb Qltb ri alpha) eqn:Eg.
      + exfalso. clear IH Hrec Hex Evi Hpr.
        destruct Hinv as [Heq | (Hf & Hf' & Hle & Hle')];
          [inversion Heq; subst; clear Heq | simpl in *];
          (destruct Hrel as [-> | (Hfv & Hfr & [[Hl Hl'] | [Hh Hh']])]);
          destruct Hb3; ext_order.
      + eapply IH; try exact Hex; try exact Hm.
        * clear - Eg. ext_order.
        * clear - Hb1 Hb2 Hb3 Eu1'. unfold beta_ok.
          destruct Hb3; ext_order; repeat split; try (left; ext_finish; fail);
            try (right; ext_finish; fail); ext_finish.
        * right. simpl. clear IH Hrec Hex Evi Hpr.
          destruct Hinv as [Heq | (Hf & Hf' & Hle & Hle')];
            [inversion Heq; subst; clear Heq | simpl in *];
            (destruct Hrel as [-> | (Hfv & Hfr & [[Hl Hl'] | [Hh Hh']])]);
            destruct Hb3; ext_order; repeat split; unfold finite; eauto;
            ext_finish. }
    { (* no update *)
      assert (Hgo : ext_leb Qltb m' alpha = false) by (clear - Hm'; ext_order).
      rewrite Hgo.
      eapply IH; try exact Hex; try exact Hm; try exact Hm'; try exact Hinv.
      clear - Hb1 Hb2 Hb3. unfold beta_ok.
      destruct Hb3; ext_order; repeat split; try (left; ext_finish; fail);
        try (right; ext_finish; fail); ext_finish. }
Qed.

Lemma node_rel_value (alpha beta : QVal) (res res' : QVal * option Direction) :
  node_rel alpha beta res res' -> value_rel alpha beta (fst res) (fst res').
Proof.
  intros [-> | Hr]; [left; reflexivity | right; exact Hr].
Qed.

(** The pruned search, under any window [alpha < beta], returns whenever
    the exhaustive one does with the same fuel, and the two results are
    related by [node_rel]. *)
Lemma hminimax0_sim (self : HMinimax0.PacmanAgent) (fuel : nat) :
  forall (state : State) alpha beta is_pacman depth res,
    qlt alpha beta ->
    hminimax0_exhaustive fuel self state is_pacman depth = Some res ->
    exists res',
      HMinimax0.hminimax_aux fuel self state alpha beta is_pacman depth
      = Some res'
      /\ node_rel alpha beta res res'.
Proof.
  induction fuel as [| fuel IH];
    intros state alpha beta is_pacman depth res Hwin Hex; simpl in Hex;
    [discriminate |].
  simpl. destruct (HMinimax0.cutoff state depth is_pacman).
  - exists res. split; [congruence | left; reflexivity].
  - assert (Hbeta : beta <> NegInf) by (clear - Hwin; ext_order).
    assert (Halpha : alpha <> PosInf) by (clear - Hwin; ext_order).
    destruct is_pacman.
    + eapply (max_loop_sim _ _) with (alpha0 := alpha); try exact Hex;
        try exact Hwin.
      * intros ns a b v Hab Hv. cbv beta in Hv.
        destruct (hminimax0_exhaustive fuel self ns false (S depth))
          as [r |] eqn:Er; simpl in Hv; [| discriminate Hv].
        destruct (IH ns a b false (S depth) r Hab Er) as [r' [Hr' Hrel]].
        exists (fst r'). rewrite Hr'. split; [reflexivity |].
        inversion Hv; subst. apply node_rel_value. exact Hrel.
      * discriminate.
      * clear - Hbeta. ext_order.
      * clear - Halpha. unfold alpha_ok. ext_order; repeat split;
          try (left; ext_finish; fail); ext_finish.
      * left. reflexivity.
    + eapply (min_loop_sim _ _) with (beta0 := beta); try exact Hex;
        try exact Hwin.
      * intros ns a b v Hab Hv. cbv beta in Hv.
        destruct (hminimax0_exhaustive fuel self ns true (S depth))
          as [r |] eqn:Er; simpl in Hv; [| discriminate Hv].
        destruct (IH ns a b true (S depth) r Hab Er) as [r' [Hr' Hrel]].
        exists (fst r'). rewrite Hr'. split; [reflexivity |].
        inversion Hv; subst. apply node_rel_value. exact Hrel.
      * discriminate.
      * clear - Halpha. ext_order.
      * clear - Hbeta. unfold beta_ok. ext_order; repeat split;
          try (left; ext_finish; fail); ext_finish.
      * left. reflexivity.
Qed.
End PruningVariantA.

(** C1, amended: in variant A, the engine without a visited table, for
    every snapshot on which the exhaustive, non-pruned search with the same
    cutoff policy and evaluation returns, the recursive search called for
    the maximiser with the full window returns, with the same fuel, the
    same value and the same move. *)
Theorem pruning_preserves_result_without_table {State : Type}
    `{GameState State} (fuel : nat) (self : HMinimax0.PacmanAgent)
    (state : State) (depth : nat) (value : QVal) (move : option Direction) :
  hminimax0_exhaustive fuel self state true depth = Some (value, move) ->
  HMinimax0.hminimax_aux fuel self state NegInf PosInf true depth
  = Some (value, move).
Proof.
  intros Hex.
  destruct (hminimax0_sim self fuel state NegInf PosInf true depth
              (value, move) eq_refl Hex) as [res' [Hrun Hrel]].
  rewrite Hrun. f_equal.
  destruct Hrel as [Heq | (Hf & Hf' & [[Hl Hl'] | [Hh Hh']])].
  - exact Heq.
  - exfalso. simpl in *. clear - Hf Hl. ext_order.
  - exfalso. simpl in *. clear - Hf Hh. ext_order.
Qed.

Lemma pruning_preserves_result_without_table_witness :
  @hminimax0_exhaustive nat tie_game 2 fresh_agent0 0%nat true 0
  = Some (Fin (-8 # 8), Some West)
  /\ @HMinimax0.hminimax_aux nat tie_game 2 fresh_agent0 0%nat
       NegInf PosInf true 0
     = Some (Fin (-8 # 8), Some West).
Proof.
  assert (Hex : @hminimax0_exhaustive nat tie_game 2 fresh_agent0 0%nat true 0
                = Some (Fin (-8 # 8), Some West))
    by (vm_compute; reflexivity).
  split; [exact Hex |].
  exact (@pruning_preserves_result_without_table nat tie_game 2 fresh_agent0
           0%nat 0%nat (Fin (-8 # 8)) (Some West) Hex).
Defined.

(** * Further properties *)

(** ** The evaluation functions, in full *)

Section EvalFull.
Context {State : Type} `{GameState State}.

Lemma fold_right_max_init (l : list Z) : forall d x,
  fold_right Z.max (Z.max d x) l = Z.max d (fold_right Z.max x l).
Proof.
  induction l as [| y l IH]; intros d x; simpl; [reflexivity |].
  rewrite IH. lia.
Qed.

(** Variant A's scan from finite distances. *)
Lemma scan_cells0_from_Fin pac_pos cells : forall num_food x y,
  fold_left (scan_cell0 pac_pos) cells (num_food, Fin x, Fin y)
  = (num_food + Z.of_nat (length cells),
     Fin (fold_right Z.min x
            (map (fun cell => manhattanDistance cell pac_pos) cells)),
     Fin (fold_right Z.max y
            (map (fun cell => manhattanDistance cell pac_pos) cells))).
Proof.
  induction cells as [| cell cells IH]; intros num_food x y; simpl.
  - do 2 f_equal. lia.
  - set (d := manhattanDistance cell pac_pos).
    assert (Hx : (if d <? x then Fin d else Fin x) = Fin (Z.min d x))
      by (destruct (Z.ltb_spec d x); f_equal; lia).
    assert (Hy : (if y <? d then Fin d else Fin y) = Fin (Z.max d y))
      by (destruct (Z.ltb_spec y d); f_equal; lia).
    rewrite Hx, Hy, IH, fold_right_min_init, fold_right_max_init.
    do 2 f_equal. lia.
Qed.

Lemma scan_grid0_result (pac_pos : Z * Z) (grid : list (list bool)) :
  HMinimax0.scan_grid pac_pos grid 0 (0, PosInf, NegInf)
  = (count_targets grid,
     match map (fun cell => manhattanDistance cell pac_pos) (targets grid) with
     | [] => PosInf
     | d :: ds => Fin (fold_right Z.min d ds)
     end,
     match map (fun cell => manhattanDistance cell pac_pos) (targets grid) with
     | [] => NegInf
     | d :: ds => Fin (fold_right Z.max d ds)
     end).
Proof.
  rewrite scan_grid0_targets. unfold count_targets. fold (targets grid).
  destruct (targets grid) as [| cell cells]; simpl; [reflexivity |].
  rewrite scan_cells0_from_Fin. f_equal. f_equal. lia.
Qed.

Lemma manhattanDistance_nonneg (p q : Z * Z) : 0 <= manhattanDistance p q.
Proof. unfold manhattanDistance. lia. Qed.

Lemma fold_right_min_nonneg (l : list Z) : forall d,
  0 <= d -> Forall (fun x => 0 <= x) l -> 0 <= fold_right Z.min d l.
Proof.
  induction l as [| y l IH]; intros d Hd Hl; simpl; [exact Hd |].
  inversion Hl; subst. specialize (IH d Hd ltac:(assumption)). lia.
Qed.

Lemma nearest_target_distance_nonneg (pos : Z * Z) (grid : list (list bool)) :
  0 <= nearest_target_distance pos grid.
Proof.
  unfold nearest_target_distance.
  destruct (targets grid) as [| cell cells]; simpl; [lia |].
  apply fold_right_min_nonneg; [apply manhattanDistance_nonneg |].
  induction cells as [| c cells IH]; simpl; constructor;
    [apply manhattanDistance_nonneg | exact IH].
Qed.

Lemma count_targets_nonneg (grid : list (list bool)) : 0 <= count_targets grid.
Proof. unfold count_targets. lia. Qed.
End EvalFull.

Lemma eval_function0_formula {State : Type} `{GameState State}
    (self : HMinimax0.PacmanAgent) (state : State) :
  HMinimax0.eval_function self state
  = Fin (inject_Z (getScore state - HMinimax0.current_score self
                   - (if bool_decide
                           ((getPacmanPosition state, getFood state)
                              ∈ HMinimax0.previousKeyStates self)
                      then 400 else 0))
         + (1 # 2) * inject_Z (manhattanDistance (getPacmanPosition state)
                                 (getGhostPosition state))
         - inject_Z (nearest_target_distance (getPacmanPosition state)
                       (getFood state))
         - inject_Z (2 * count_targets (getFood state))
         + (1 # 2) * inject_Z (farthest_target_distance
                                 (getPacmanPosition state) (getFood state))
         + (1 # 2) * inject_Z (Z.of_nat (length (getLegalActions state))))%Q.
Proof.
  unfold HMinimax0.eval_function. rewrite scan_grid0_result.
  unfold nearest_target_distance, farthest_target_distance, count_targets.
  destruct (targets (getFood state)) as [| cell cells]; simpl; [reflexivity |].
  replace (Z.pos (Pos.of_succ_nat (length cells)) =? 0) with false
    by (symmetry; apply Z.eqb_neq; lia).
  reflexivity.
Qed.


(** X2: variant B's evaluation never exceeds the snapshot's score, and
    equals it exactly when no target remains. *)
Theorem eval_function_variant_B_at_most_score {State : Type} `{GameState State}
    (state : State) :
  exists e, HMinimax1.eval_function state = Fin e
            /\ e <= getScore state
            /\ (e = getScore state <-> count_targets (getFood state) = 0).
Proof.
  rewrite eval_function1_formula. eexists. split; [reflexivity |].
  pose proof (nearest_target_distance_nonneg (getPacmanPosition state)
                (getFood state)) as Hn.
  pose proof (count_targets_nonneg (getFood state)) as Hc.
  split; [lia |]. split; [lia |].
  intros Hz. apply count_targets_zero in Hz.
  unfold nearest_target_distance, count_targets. rewrite Hz. simpl. lia.
Qed.

(** ** The cutoff policy of variant B, in full *)

Section CutoffB.
Context {State : Type} `{GameState State}.

Lemma sum_row_targets pac_pos ghost_pos i row : forall j acc,
  HMinimax1.sum_row pac_pos ghost_pos i row j acc
  = fold_left (sum_cell pac_pos ghost_pos) (row_targets i j row) acc.
Proof.
  induction row as [| element row IH]; intros j acc; simpl; [reflexivity |].
  rewrite IH. destruct element; simpl; [| reflexivity].
  destruct acc as [a b]. reflexivity.
Qed.

Lemma sum_grid_targets pac_pos ghost_pos grid : forall i acc,
  HMinimax1.sum_grid pac_pos ghost_pos grid i acc
  = fold_left (sum_cell pac_pos ghost_pos) (grid_targets i grid) acc.
Proof.
  induction grid as [| row grid IH]; intros i acc; simpl; [reflexivity |].
  rewrite IH, sum_row_targets, fold_left_app. reflexivity.
Qed.

Lemma sum_cells_total pac_pos ghost_pos cells : forall a b,
  fold_left (sum_cell pac_pos ghost_pos) cells (a, b)
  = (a + fold_right Z.add 0
           (map (fun cell => manhattanDistance cell pac_pos) cells),
     b + fold_right Z.add 0
           (map (fun cell => manhattanDistance cell ghost_pos) cells)).
Proof.
  induction cells as [| cell cells IH]; intros a b; simpl.
  - f_equal; lia.
  - rewrite IH. f_equal; lia.
Qed.

Lemma sum_grid_result (pac_pos ghost_pos : Z * Z) (grid : list (list bool)) :
  HMinimax1.sum_grid pac_pos ghost_pos grid 0 (0, 0)
  = (total_target_distance pac_pos grid, total_target_distance ghost_pos grid).
Proof.
  rewrite sum_grid_targets. fold (targets grid). rewrite sum_cells_total.
  reflexivity.
Qed.
End CutoffB.

(** X3: at depth greater than 0 and on a non-terminal snapshot, the cutoff
    policy of variant B fires on Pacman's turn exactly when the ghost is
    more than 2 away or the sum of the distances from Pacman to the targets
    is at most the sum of the distances from the ghost to the targets, and
    on the ghost's turn exactly when the ghost is at least 2 away; so on
    Pacman's turn a snapshot without target is always cut off. *)
Theorem cutoff_variant_B_characterised {State : Type} `{GameState State}
    (state : State) (depth : nat) :
  (0 < depth)%nat ->
  isWin state || isLose state = false ->
  (HMinimax1.cutoff state depth true = true
   <-> 2 < manhattanDistance (getPacmanPosition state) (getGhostPosition state)
       \/ total_target_distance (getPacmanPosition state) (getFood state)
          <= total_target_distance (getGhostPosition state) (getFood state))
  /\ (HMinimax1.cutoff state depth false = true
      <-> 2 <= manhattanDistance (getPacmanPosition state)
                (getGhostPosition state))
  /\ (count_targets (getFood state) = 0 ->
      HMinimax1.cutoff state depth true = true).
Proof.
  intros Hd Ht.
  assert (Hp : HMinimax1.cutoff state depth true = true
               <-> 2 < manhattanDistance (getPacmanPosition state)
                         (getGhostPosition state)
                   \/ total_target_distance (getPacmanPosition state)
                        (getFood state)
                      <= total_target_distance (getGhostPosition state)
                           (getFood state)).
  { unfold HMinimax1.cutoff. rewrite (depth_positive depth Hd), Ht.
    rewrite sum_grid_result.
    destruct (Z.ltb_spec 2 (manhattanDistance (getPacmanPosition state)
                              (getGhostPosition state))) as [Hfar | Hnear].
    - split; [intros _; left; exact Hfar | reflexivity].
    - rewrite andb_true_r.
      destruct (Z.leb_spec (total_target_distance (getPacmanPosition state)
                              (getFood state))
                  (total_target_distance (getGhostPosition state)
                     (getFood state))) as [Hle | Hgt].
      + split; [intros _; right; exact Hle | reflexivity].
      + split; [discriminate | intros [Hfar | Hle]; lia]. }
  split; [exact Hp |]. split.
  - unfold HMinimax1.cutoff. rewrite (depth_positive depth Hd), Ht.
    rewrite sum_grid_result, andb_false_r.
    destruct (Z.leb_spec 2 (manhattanDistance (getPacmanPosition state)
                              (getGhostPosition state))) as [Hfar | Hnear].
    + split; [intros _; exact Hfar | reflexivity].
    + split; [discriminate | lia].
  - intros Hz. apply Hp. right. apply count_targets_zero in Hz.
    unfold total_target_distance. rewrite Hz. simpl. lia.
Qed.

Lemma cutoff_variant_B_characterised_witness :
  (0 < 1)%nat
  /\ @isWin nat transposition_B_game 4%nat
     || @isLose nat transposition_B_game 4%nat = false
  /\ @HMinimax1.cutoff nat transposition_B_game 4%nat 1 true = false
  /\ @HMinimax1.cutoff nat transposition_B_game 2%nat 1 true = true.
Proof.
  assert (Hd : (0 < 1)%nat) by lia.
  assert (Ht4 : @isWin nat transposition_B_game 4%nat
                || @isLose nat transposition_B_game 4%nat = false)
    by reflexivity.
  assert (Ht2 : @isWin nat transposition_B_game 2%nat
                || @isLose nat transposition_B_game 2%nat = false)
    by reflexivity.
  destruct (@cutoff_variant_B_characterised nat transposition_B_game 4%nat 1
              Hd Ht4) as [H4 _].
  destruct (@cutoff_variant_B_characterised nat transposition_B_game 2%nat 1
              Hd Ht2) as [H2 _].
  split; [exact Hd |]. split; [exact Ht4 |]. split.
  - destruct (@HMinimax1.cutoff nat transposition_B_game 4%nat 1 true) eqn:Hc;
      [| reflexivity].
    exfalso. destruct H4 as [H4 _]. destruct (H4 eq_refl) as [Hfar | Hle].
    + vm_compute in Hfar. discriminate Hfar.
    + vm_compute in Hle. apply Hle. reflexivity.
  - apply H2. right. vm_compute. discriminate.
Defined.

(** ** What the searches return *)

Section Returned.
Context {State : Type} `{GameState State}.

Lemma ext_ltb_not_NegInf {A : Type} (ltb : A -> A -> bool) (x y : ext A) :
  ext_ltb ltb x y = true -> y <> NegInf.
Proof. destruct x, y; simpl; congruence. Qed.

Lemma ext_ltb_not_PosInf {A : Type} (ltb : A -> A -> bool) (x y : ext A) :
  ext_ltb ltb x y = true -> x <> PosInf.
Proof. destruct x, y; simpl; congruence. Qed.

Lemma is_PosInf_false {A : Type} (x : ext A) :
  negb (is_PosInf x) = true -> x <> PosInf.
Proof. destruct x; simpl; congruence. Qed.

Lemma is_NegInf_false {A : Type} (x : ext A) :
  negb (is_NegInf x) = true -> x <> NegInf.
Proof. destruct x; simpl; congruence. Qed.

(** The pair leaving the maximiser's loop of variant A. *)
Lemma max_loop0_returned rec (succs : list (State * Direction)) :
  forall max_value best_action alpha beta value move,
    HMinimax0.max_loop rec succs max_value best_action alpha beta
    = Some (value, move) ->
    (max_value <> PosInf -> value <> PosInf)
    /\ ((best_action = None <-> max_value = NegInf) ->
        (move = None <-> value = NegInf))
    /\ (move = best_action
        \/ exists ns a, In (ns, a) succs /\ move = Some a).
Proof.
  induction succs as [| [next_state action] rest IH];
    intros max_value best_action alpha beta value move Hrun; simpl in Hrun.
  - inversion Hrun; subst. split; [tauto |]. split; [tauto | left; reflexivity].
  - destruct (rec next_state alpha beta) as [v |]; [| discriminate].
    destruct (ext_ltb Qltb max_value v && negb (is_PosInf v)) eqn:Eu.
    + apply andb_true_iff in Eu as [Eu1 Eu2].
      pose proof (ext_ltb_not_NegInf _ _ _ Eu1) as Hneg.
      pose proof (is_PosInf_false _ Eu2) as Hpos.
      assert (Hnew : (Some action = None <-> v = NegInf))
        by (split; [discriminate | intros Hv; contradiction]).
      destruct (ext_geb Qltb v beta).
      * inversion Hrun; subst.
        split; [auto |]. split; [auto |].
        right. exists next_state, action. split; [left; reflexivity | reflexivity].
      * destruct (IH _ _ _ _ _ _ Hrun) as (H1 & H2 & H3).
        split; [auto |]. split; [auto |].
        destruct H3 as [-> | (ns & a & Hin & ->)].
        -- right. exists next_state, action.
           split; [left; reflexivity | reflexivity].
        -- right. exists ns, a. split; [right; exact Hin | reflexivity].
    + destruct (ext_geb Qltb max_value beta).
      * inversion Hrun; subst. split; [tauto |]. split; [tauto | left; reflexivity].
      * destruct (IH _ _ _ _ _ _ Hrun) as (H1 & H2 & H3).
        split; [exact H1 |]. split; [exact H2 |].
        destruct H3 as [-> | (ns & a & Hin & ->)]; [left; reflexivity |].
        right. exists ns, a. split; [right; exact Hin | reflexivity].
Qed.

Lemma min_loop0_returned rec (succs : list (State * Direction)) :
  forall min_value best_action alpha beta value move,
    HMinimax0.min_loop rec succs min_value best_action alpha beta
    = Some (value, move) ->
    min_value <> NegInf -> value <> NegInf.
Proof.
  induction succs as [| [next_state action] rest IH];
    intros min_value best_action alpha beta value move Hrun Hm; simpl in Hrun.
  - inversion Hrun; subst. exact Hm.
  - destruct (rec next_state alpha beta) as [v |]; [| discriminate].
    destruct (ext_ltb Qltb v min_value && negb (is_NegInf v)) eqn:Eu.
    + apply andb_true_iff in Eu as [Eu1 Eu2].
      pose proof (is_NegInf_false _ Eu2) as Hneg.
      destruct (ext_leb Qltb v alpha).
      * inversion Hrun; subst. exact Hneg.
      * eapply IH; eassumption.
    + destruct (ext_leb Qltb min_value alpha).
      * inversion Hrun; subst. exact Hm.
      * eapply IH; eassumption.
Qed.

(** The same for the loops with a visited table. *)
Lemma max_loop_visited_returned rec (succs : list (State * Direction)) :
  forall max_value best_action alpha beta visited value move visited',
    max_loop_visited rec succs max_value best_action alpha beta visited
    = Some (value, move, visited') ->
    (max_value <> PosInf -> value <> PosInf)
    /\ ((best_action = None <-> max_value = NegInf) ->
        (move = None <-> value = NegInf))
    /\ (move = best_action
        \/ exists ns a, In (ns, a) succs /\ move = Some a).
Proof.
  induction succs as [| [next_state action] rest IH];
    intros max_value best_action alpha beta visited value move visited' Hrun;
    simpl in Hrun.
  - inversion Hrun; subst. split; [tauto |]. split; [tauto | left; reflexivity].
  - destruct (admissible visited next_state).
    2:{ destruct (IH _ _ _ _ _ _ _ _ Hrun) as (H1 & H2 & H3).
        split; [exact H1 |]. split; [exact H2 |].
        destruct H3 as [-> | (ns & a & Hin & ->)]; [left; reflexivity |].
        right. exists ns, a. split; [right; exact Hin | reflexivity]. }
    destruct (rec next_state alpha beta _) as [[v visited1] |]; [| discriminate].
    destruct (ext_ltb Z.ltb max_value v && negb (is_PosInf v)) eqn:Eu.
    + apply andb_true_iff in Eu as [Eu1 Eu2].
      pose proof (ext_ltb_not_NegInf _ _ _ Eu1) as Hneg.
      pose proof (is_PosInf_false _ Eu2) as Hpos.
      assert (Hnew : (Some action = None <-> v = NegInf))
        by (split; [discriminate | intros Hv; contradiction]).
      destruct (ext_geb Z.ltb v beta).
      * inversion Hrun; subst.
        split; [auto |]. split; [auto |].
        right. exists next_state, action. split; [left; reflexivity | reflexivity].
      * destruct (IH _ _ _ _ _ _ _ _ Hrun) as (H1 & H2 & H3).
        split; [auto |]. split; [auto |].
        destruct H3 as [-> | (ns & a & Hin & ->)].
        -- right. exists next_state, action.
           split; [left; reflexivity | reflexivity].
        -- right. exists ns, a. split; [right; exact Hin | reflexivity].
    + destruct (ext_geb Z.ltb max_value beta).
      * inversion Hrun; subst. split; [tauto |]. split; [tauto | left; reflexivity].
      * destruct (IH _ _ _ _ _ _ _ _ Hrun) as (H1 & H2 & H3).
        split; [exact H1 |]. split; [exact H2 |].
        destruct H3 as [-> | (ns & a & Hin & ->)]; [left; reflexivity |].
        right. exists ns, a. split; [right; exact Hin | reflexivity].
Qed.

Lemma min_loop_visited_returned rec (succs : list (State * Direction)) :
  forall min_value best_action alpha beta visited value move visited',
    min_loop_visited rec succs min_value best_action alpha beta visited
    = Some (value, move, visited') ->
    min_value <> NegInf -> value <> NegInf.
Proof.
  induction succs as [| [next_state action] rest IH];
    intros min_value best_action alpha beta visited value move visited' Hrun Hm;
    simpl in Hrun.
  - inversion Hrun; subst. exact Hm.
  - destruct (admissible visited next_state); [| eapply IH; eassumption].
    destruct (rec next_state alpha beta _) as [[v visited1] |]; [| discriminate].
    destruct (ext_ltb Z.ltb v min_value && negb (is_NegInf v)) eqn:Eu.
    + apply andb_true_iff in Eu as [Eu1 Eu2].
      pose proof (is_NegInf_false _ Eu2) as Hneg.
      destruct (ext_leb Z.ltb v alpha).
      * inversion Hrun; subst. exact Hneg.
      * eapply IH; eassumption.
    + destruct (ext_leb Z.ltb min_value alpha).
      * inversion Hrun; subst. exact Hm.
      * eapply IH; eassumption.
Qed.

Lemma start_max_inv {A : Type} :
  (None : option Direction) = None <-> (NegInf : ext A) = NegInf.
Proof. split; reflexivity. Qed.
End Returned.

Section ReturnedEngines.
Context {State : Type} `{GameState State}.

Lemma hminimax0_aux_returned (fuel : nat) (self : HMinimax0.PacmanAgent)
    (state : State) (alpha beta : QVal) (depth : nat) (value : QVal)
    (move : option Direction) :
  HMinimax0.hminimax_aux fuel self state alpha beta true depth
  = Some (value, move) ->
  value <> PosInf
  /\ (value = NegInf -> move = None)
  /\ (depth = 0%nat -> move = None -> value = NegInf)
  /\ (forall a, move = Some a ->
                exists ns, In (ns, a) (generatePacmanSuccessors state)).
Proof.
  destruct fuel as [| fuel]; [discriminate |]. simpl.
  destruct (HMinimax0.cutoff state depth true) eqn:Hcut.
  - intros Hrun. inversion Hrun; subst.
    destruct (eval_function0_finite self state) as [q Hq]. rewrite Hq.
    split; [discriminate |]. split; [discriminate |].
    split; [| discriminate].
    intros ->. rewrite cutoff0_depth_0 in Hcut. discriminate Hcut.
  - intros Hrun.
    destruct (max_loop0_returned _ _ _ _ _ _ _ _ Hrun) as (H1 & H2 & H3).
    specialize (H1 ltac:(discriminate)). specialize (H2 start_max_inv).
    split; [exact H1 |]. split; [apply H2 |]. split; [intros _; apply H2 |].
    intros a ->. destruct H3 as [Hnone | (ns & a' & Hin & Heq)];
      [discriminate Hnone |].
    inversion Heq; subst. exists ns. exact Hin.
Qed.

Lemma minimax_aux_returned (fuel : nat) (state : State) (alpha beta : ZVal)
    (visited : Visited) (value : ZVal) (move : option Direction)
    (visited' : Visited) :
  Minimax.minimax_aux fuel state alpha beta true visited
  = Some (value, move, visited') ->
  value <> PosInf
  /\ (value = NegInf -> move = None)
  /\ (Minimax.terminal state = false -> move = None -> value = NegInf)
  /\ (forall a, move = Some a ->
                exists ns, In (ns, a) (generatePacmanSuccessors state)).
Proof.
  destruct fuel as [| fuel]; [discriminate |]. simpl.
  destruct (Minimax.terminal state) eqn:Hterm.
  - intros Hrun. inversion Hrun; subst. unfold Minimax.utility_function.
    split; [discriminate |]. split; [discriminate |].
    split; discriminate.
  - intros Hrun.
    destruct (max_loop_visited_returned _ _ _ _ _ _ _ _ _ _ Hrun)
      as (H1 & H2 & H3).
    specialize (H1 ltac:(discriminate)). specialize (H2 start_max_inv).
    split; [exact H1 |]. split; [apply H2 |]. split; [intros _; apply H2 |].
    intros a ->. destruct H3 as [Hnone | (ns & a' & Hin & Heq)];
      [discriminate Hnone |].
    inversion Heq; subst. exists ns. exact Hin.
Qed.

Lemma hminimax1_aux_returned (fuel : nat) (state : State) (alpha beta : ZVal)
    (visited : Visited) (depth : nat) (value : ZVal) (move : option Direction)
    (visited' : Visited) :
  HMinimax1.hminimax_aux fuel state alpha beta true visited depth
  = Some (value, move, visited') ->
  value <> PosInf
  /\ (value = NegInf -> move = None)
  /\ (depth = 0%nat -> move = None -> value = NegInf)
  /\ (forall a, move = Some a ->
                exists ns, In (ns, a) (generatePacmanSuccessors state)).
Proof.
  destruct fuel as [| fuel]; [discriminate |]. simpl.
  destruct (HMinimax1.cutoff state depth true) eqn:Hcut.
  - intros Hrun. inversion Hrun; subst. rewrite eval_function1_formula.
    split; [discriminate |]. split; [discriminate |].
    split; [| discriminate].
    intros ->. rewrite cutoff1_depth_0 in Hcut. discriminate Hcut.
  - intros Hrun.
    destruct (max_loop_visited_returned _ _ _ _ _ _ _ _ _ _ Hrun)
      as (H1 & H2 & H3).
    specialize (H1 ltac:(discriminate)). specialize (H2 start_max_inv).
    split; [exact H1 |]. split; [apply H2 |]. split; [intros _; apply H2 |].
    intros a ->. destruct H3 as [Hnone | (ns & a' & Hin & Heq)];
      [discriminate Hnone |].
    inversion Heq; subst. exists ns. exact Hin.
Qed.
End ReturnedEngines.

(** X4: in the three engines, a call of the recursive search for the
    maximiser never returns the value [+inf], and a call for the minimiser
    never returns [-inf]; a maximiser's value of [-inf] comes with no move,
    and where the snapshot is expanded (at depth 0 in the heuristic
    variants, on a non-terminal snapshot in the plain engine) no move comes
    with the value [-inf] only. *)
Theorem sentinels_of_returned_values {State : Type} `{GameState State}
    (fuel : nat) (self : HMinimax0.PacmanAgent) (state : State)
    (qalpha qbeta : QVal) (alpha beta : ZVal) (visited : Visited)
    (depth : nat) :
  (forall value move,
      HMinimax0.hminimax_aux fuel self state qalpha qbeta true depth
      = Some (value, move) ->
      value <> PosInf /\ (value = NegInf -> move = None)
      /\ (depth = 0%nat -> move = None -> value = NegInf))
  /\ (forall value move visited',
         Minimax.minimax_aux fuel state alpha beta true visited
         = Some (value, move, visited') ->
         value <> PosInf /\ (value = NegInf -> move = None)
         /\ (Minimax.terminal state = false -> move = None -> value = NegInf))
  /\ (forall value move visited',
         HMinimax1.hminimax_aux fuel state alpha beta true visited depth
         = Some (value, move, visited') ->
         value <> PosInf /\ (value = NegInf -> move = None)
         /\ (depth = 0%nat -> move = None -> value = NegInf))
  /\ (forall value move,
         HMinimax0.hminimax_aux fuel self state qalpha qbeta false depth
         = Some (value, move) -> value <> NegInf)
  /\ (forall value move visited',
         Minimax.minimax_aux fuel state alpha beta false visited
         = Some (value, move, visited') -> value <> NegInf)
  /\ (forall value move visited',
         HMinimax1.hminimax_aux fuel state alpha beta false visited depth
         = Some (value, move, visited') -> value <> NegInf).
Proof.
  split; [| split; [| split; [| split; [| split]]]].
  - intros value move Hrun.
    destruct (hminimax0_aux_returned _ _ _ _ _ _ _ _ Hrun) as (H1 & H2 & H3 & _).
    auto.
  - intros value move visited' Hrun.
    destruct (minimax_aux_returned _ _ _ _ _ _ _ _ Hrun) as (H1 & H2 & H3 & _).
    auto.
  - intros value move visited' Hrun.
    destruct (hminimax1_aux_returned _ _ _ _ _ _ _ _ _ Hrun)
      as (H1 & H2 & H3 & _).
    auto.
  - destruct fuel as [| fuel]; [discriminate |]. simpl. intros value move.
    destruct (HMinimax0.cutoff state depth false).
    + intros Hrun. inversion Hrun; subst.
      destruct (eval_function0_finite self state) as [q Hq]. rewrite Hq.
      discriminate.
    + intros Hrun. eapply min_loop0_returned; [exact Hrun | discriminate].
  - destruct fuel as [| fuel]; [discriminate |]. simpl.
    intros value move visited'.
    destruct (Minimax.terminal state).
    + intros Hrun. inversion Hrun; subst. discriminate.
    + intros Hrun. eapply min_loop_visited_returned; [exact Hrun | discriminate].
  - destruct fuel as [| fuel]; [discriminate |]. simpl.
    intros value move visited'.
    destruct (HMinimax1.cutoff state depth false).
    + intros Hrun. inversion Hrun; subst. rewrite eval_function1_formula.
      discriminate.
    + intros Hrun. eapply min_loop_visited_returned; [exact Hrun | discriminate].
Qed.

Lemma sentinels_of_returned_values_witness :
  @HMinimax0.hminimax_aux unit (single ghost_facing_pacman) 1 fresh_agent0 tt
    NegInf PosInf true 0 = Some (NegInf, None)
  /\ (NegInf : QVal) <> PosInf
  /\ fst <$> @Minimax.minimax_aux nat tie_game 2 1%nat NegInf PosInf false ∅
     = Some (PosInf, None)
  /\ (PosInf : ZVal) <> NegInf.
Proof.
  assert (Hrun : @HMinimax0.hminimax_aux unit (single ghost_facing_pacman) 1
                   fresh_agent0 tt NegInf PosInf true 0 = Some (NegInf, None))
    by (vm_compute; reflexivity).
  assert (Hfst : fst <$> @Minimax.minimax_aux nat tie_game 2 1%nat
                           NegInf PosInf false ∅
                 = Some (PosInf, None))
    by (vm_compute; reflexivity).
  destruct (@sentinels_of_returned_values unit (single ghost_facing_pacman) 1
              fresh_agent0 tt NegInf PosInf NegInf PosInf ∅ 0%nat)
    as [Hmax _].
  destruct (@sentinels_of_returned_values nat tie_game 2 fresh_agent0 1%nat
              NegInf PosInf NegInf PosInf ∅ 0%nat)
    as (_ & _ & _ & _ & Hmin & _).
  destruct (Hmax NegInf None Hrun) as [Hne _].
  split; [exact Hrun |]. split; [exact Hne |]. split; [exact Hfst |].
  destruct (@Minimax.minimax_aux nat tie_game 2 1%nat NegInf PosInf false ∅)
    as [[[value move] visited'] |] eqn:Hplain; simpl in Hfst;
    [| discriminate Hfst].
  inversion Hfst; subst. exact (Hmin PosInf None visited' eq_refl).
Defined.

(** ** The decision cache, in full *)

Section Cache.
Context {State : Type} `{GameState State}.

(** The agent of hminimax0.py as [get_action] sets it up before a search on
    [state]. *)
Lemma get_action0_empty (fuel : nat) (self : HMinimax0.PacmanAgent)
    (state : State) :
  HMinimax0.moves self = [] ->
  HMinimax0.get_action fuel self state
  = match HMinimax0.hminimax fuel
            {| HMinimax0.moves := [];
               HMinimax0.previousKeyStates :=
                 {[ (getPacmanPosition state, getFood state) ]}
                   ∪ HMinimax0.previousKeyStates self;
               HMinimax0.current_score := getScore state |} state with
    | Some m =>
        Some (m, {| HMinimax0.moves := [];
                    HMinimax0.previousKeyStates :=
                      {[ (getPacmanPosition state, getFood state) ]}
                        ∪ HMinimax0.previousKeyStates self;
                    HMinimax0.current_score := getScore state |})
    | None => None
    end.
Proof.
  intros Hempty. unfold HMinimax0.get_action. simpl. rewrite Hempty.
  destruct (HMinimax0.hminimax fuel _ state) as [m |]; reflexivity.
Qed.

Lemma get_action0_buffered (fuel : nat) (self : HMinimax0.PacmanAgent)
    (state : State) (rest : list (option Direction)) (m : option Direction) :
  HMinimax0.moves self = rest ++ [m] ->
  HMinimax0.get_action fuel self state
  = Some (m, {| HMinimax0.moves := rest;
                HMinimax0.previousKeyStates :=
                  {[ (getPacmanPosition state, getFood state) ]}
                    ∪ HMinimax0.previousKeyStates self;
                HMinimax0.current_score := HMinimax0.current_score self |}).
Proof.
  intros Hm. unfold HMinimax0.get_action. simpl. rewrite Hm.
  destruct (rest ++ [m]) as [| x l] eqn:Hl.
  - destruct rest; discriminate Hl.
  - simpl. rewrite <- Hl, pop_snoc. reflexivity.
Qed.

Lemma get_action_plain_empty (fuel : nat) (state : State) :
  Minimax.get_action fuel {| Minimax.moves := [] |} state
  = match Minimax.minimax fuel state with
    | Some m => Some (m, {| Minimax.moves := [] |})
    | None => None
    end.
Proof.
  unfold Minimax.get_action. simpl.
  destruct (Minimax.minimax fuel state) as [m |]; reflexivity.
Qed.

Lemma get_action_plain_buffered (fuel : nat) (state : State)
    (rest : list (option Direction)) (m : option Direction) :
  Minimax.get_action fuel {| Minimax.moves := rest ++ [m] |} state
  = Some (m, {| Minimax.moves := rest |}).
Proof.
  unfold Minimax.get_action. simpl.
  destruct (rest ++ [m]) as [| x l] eqn:Hl.
  - destruct rest; discriminate Hl.
  - simpl. rewrite <- Hl, pop_snoc. reflexivity.
Qed.

Lemma get_action_B_empty (fuel : nat) (state : State) :
  HMinimax1.get_action fuel {| HMinimax1.moves := [] |} state
  = match HMinimax1.hminimax fuel state with
    | Some m => Some (m, {| HMinimax1.moves := [] |})
    | None => None
    end.
Proof.
  unfold HMinimax1.get_action. simpl.
  destruct (HMinimax1.hminimax fuel state) as [m |]; reflexivity.
Qed.

Lemma get_action_B_buffered (fuel : nat) (state : State)
    (rest : list (option Direction)) (m : option Direction) :
  HMinimax1.get_action fuel {| HMinimax1.moves := rest ++ [m] |} state
  = Some (m, {| HMinimax1.moves := rest |}).
Proof.
  unfold HMinimax1.get_action. simpl.
  destruct (rest ++ [m]) as [| x l] eqn:Hl.
  - destruct rest; discriminate Hl.
  - simpl. rewrite <- Hl, pop_snoc. reflexivity.
Qed.

Lemma snoc_cases {A : Type} (l : list A) :
  l = [] \/ exists rest x, l = rest ++ [x].
Proof.
  induction l as [| y l IH]; [left; reflexivity | right].
  destruct IH as [-> | (rest & x & ->)].
  - exists [], y. reflexivity.
  - exists (y :: rest), x. reflexivity.
Qed.
End Cache.

(** X5: in the three engines, a move returned by [get_action] on an empty
    buffer is the move of a successor enumerated by
    [generatePacmanSuccessors] on the snapshot of the request. *)
Theorem get_action_move_is_enumerated {State : Type} `{GameState State}
    (fuel : nat) (self : HMinimax0.PacmanAgent) (state : State)
    (a : Direction) :
  (forall self', HMinimax0.moves self = [] ->
                 HMinimax0.get_action fuel self state = Some (Some a, self') ->
                 exists ns, In (ns, a) (generatePacmanSuccessors state))
  /\ (forall self',
         Minimax.get_action fuel {| Minimax.moves := [] |} state
         = Some (Some a, self') ->
         exists ns, In (ns, a) (generatePacmanSuccessors state))
  /\ (forall self',
         HMinimax1.get_action fuel {| HMinimax1.moves := [] |} state
         = Some (Some a, self') ->
         exists ns, In (ns, a) (generatePacmanSuccessors state)).
Proof.
  split; [| split].
  - intros self' Hempty Hget. rewrite (get_action0_empty _ _ _ Hempty) in Hget.
    unfold HMinimax0.hminimax in Hget.
    destruct (HMinimax0.hminimax_aux fuel _ state NegInf PosInf true 0)
      as [[value move] |] eqn:Hrun; simpl in Hget; [| discriminate Hget].
    inversion Hget; subst.
    destruct (hminimax0_aux_returned _ _ _ _ _ _ _ _ Hrun) as (_ & _ & _ & Hin).
    apply Hin. reflexivity.
  - intros self' Hget. rewrite get_action_plain_empty in Hget.
    unfold Minimax.minimax in Hget.
    destruct (Minimax.minimax_aux fuel state NegInf PosInf true ∅)
      as [[[value move] visited'] |] eqn:Hrun; [| discriminate Hget].
    inversion Hget; subst.
    destruct (minimax_aux_returned _ _ _ _ _ _ _ _ Hrun) as (_ & _ & _ & Hin).
    apply Hin. reflexivity.
  - intros self' Hget. rewrite get_action_B_empty in Hget.
    unfold HMinimax1.hminimax in Hget.
    destruct (HMinimax1.hminimax_aux fuel state NegInf PosInf true ∅ 0)
      as [[[value move] visited'] |] eqn:Hrun; [| discriminate Hget].
    inversion Hget; subst.
    destruct (hminimax1_aux_returned _ _ _ _ _ _ _ _ _ Hrun)
      as (_ & _ & _ & Hin).
    apply Hin. reflexivity.
Qed.

Lemma get_action_move_is_enumerated_witness :
  HMinimax0.moves fresh_agent0 = []
  /\ (fst <$> @HMinimax0.get_action nat tie_game 2 fresh_agent0 0%nat)
     = Some (Some West)
  /\ exists ns, In (ns, West) (@generatePacmanSuccessors nat tie_game 0%nat).
Proof.
  assert (Hempty : HMinimax0.moves fresh_agent0 = []) by reflexivity.
  assert (Hfst : (fst <$> @HMinimax0.get_action nat tie_game 2 fresh_agent0 0%nat)
                 = Some (Some West))
    by (vm_compute; reflexivity).
  destruct (@get_action_move_is_enumerated nat tie_game 2 fresh_agent0 0%nat West)
    as [H0 _].
  split; [exact Hempty |]. split; [exact Hfst |].
  destruct (@HMinimax0.get_action nat tie_game 2 fresh_agent0 0%nat)
    as [[action self'] |] eqn:Hget; simpl in Hfst; [| discriminate Hfst].
  inversion Hfst; subst. exact (H0 self' Hempty eq_refl).
Defined.

(** X6: in the three engines, a successful request leaves the buffer one
    entry shorter, or empty when it was empty; on an empty buffer the
    returned action is the move selected by the search; on a non-empty
    buffer it is the last buffered entry, which is removed, and the request
    succeeds without any search (with no fuel at all).  The handler of
    [IndexError] is therefore never the source of the returned action. *)
Theorem decision_cache_single_slot {State : Type} `{GameState State}
    (fuel : nat) (self0 : HMinimax0.PacmanAgent) (self : Minimax.PacmanAgent)
    (self1 : HMinimax1.PacmanAgent) (state : State)
    (action : option Direction) :
  (forall self', HMinimax0.get_action fuel self0 state = Some (action, self') ->
     length (HMinimax0.moves self') = Nat.pred (length (HMinimax0.moves self0))
     /\ (HMinimax0.moves self0 = [] ->
         HMinimax0.hminimax fuel
           {| HMinimax0.moves := [];
              HMinimax0.previousKeyStates :=
                {[ (getPacmanPosition state, getFood state) ]}
                  ∪ HMinimax0.previousKeyStates self0;
              HMinimax0.current_score := getScore state |} state
         = Some action)
     /\ (forall rest m, HMinimax0.moves self0 = rest ++ [m] ->
           action = m /\ HMinimax0.moves self' = rest
           /\ HMinimax0.get_action 0 self0 state = Some (action, self')))
  /\ (forall self', Minimax.get_action fuel self state = Some (action, self') ->
        length (Minimax.moves self') = Nat.pred (length (Minimax.moves self))
        /\ (Minimax.moves self = [] -> Minimax.minimax fuel state = Some action)
        /\ (forall rest m, Minimax.moves self = rest ++ [m] ->
              action = m /\ Minimax.moves self' = rest
              /\ Minimax.get_action 0 self state = Some (action, self')))
  /\ (forall self', HMinimax1.get_action fuel self1 state = Some (action, self') ->
        length (HMinimax1.moves self') = Nat.pred (length (HMinimax1.moves self1))
        /\ (HMinimax1.moves self1 = [] ->
            HMinimax1.hminimax fuel state = Some action)
        /\ (forall rest m, HMinimax1.moves self1 = rest ++ [m] ->
              action = m /\ HMinimax1.moves self' = rest
              /\ HMinimax1.get_action 0 self1 state = Some (action, self'))).
Proof.
  split; [| split].
  - intros self' Hget.
    destruct (snoc_cases (HMinimax0.moves self0)) as [Hempty | (rest & m & Hm)].
    + rewrite (get_action0_empty _ _ _ Hempty) in Hget.
      destruct (HMinimax0.hminimax fuel _ state) as [m |] eqn:Hsearch;
        [| discriminate Hget].
      inversion Hget; subst. rewrite Hempty. simpl.
      split; [reflexivity |]. split; [intros _; reflexivity |].
      intros rest m0 Hm. destruct rest; discriminate Hm.
    + rewrite (get_action0_buffered _ _ _ _ _ Hm) in Hget.
      inversion Hget; subst. rewrite Hm. simpl.
      split; [rewrite length_app; simpl; lia |].
      split; [intros Hnil; destruct rest; discriminate Hnil |].
      intros rest0 m0 Hm0. apply app_inj_tail in Hm0 as [-> ->].
      split; [reflexivity |]. split; [reflexivity |].
      apply get_action0_buffered. exact Hm.
  - intros self' Hget. destruct self as [moves]. simpl.
    destruct (snoc_cases moves) as [-> | (rest & m & ->)].
    + rewrite get_action_plain_empty in Hget.
      destruct (Minimax.minimax fuel state) as [m |] eqn:Hsearch;
        [| discriminate Hget].
      inversion Hget; subst. simpl.
      split; [reflexivity |]. split; [reflexivity |].
      intros rest m0 Hm. destruct rest; discriminate Hm.
    + rewrite get_action_plain_buffered in Hget.
      inversion Hget; subst. simpl.
      split; [rewrite length_app; simpl; lia |].
      split; [intros Hnil; destruct rest; discriminate Hnil |].
      intros rest0 m0 Hm0. apply app_inj_tail in Hm0 as [-> ->].
      split; [reflexivity |]. split; [reflexivity |].
      apply get_action_plain_buffered.
  - intros self' Hget. destruct self1 as [moves]. simpl.
    destruct (snoc_cases moves) as [-> | (rest & m & ->)].
    + rewrite get_action_B_empty in Hget.
      destruct (HMinimax1.hminimax fuel state) as [m |] eqn:Hsearch;
        [| discriminate Hget].
      inversion Hget; subst. simpl.
      split; [reflexivity |]. split; [reflexivity |].
      intros rest m0 Hm. destruct rest; discriminate Hm.
    + rewrite get_action_B_buffered in Hget.
      inversion Hget; subst. simpl.
      split; [rewrite length_app; simpl; lia |].
      split; [intros Hnil; destruct rest; discriminate Hnil |].
      intros rest0 m0 Hm0. apply app_inj_tail in Hm0 as [-> ->].
      split; [reflexivity |]. split; [reflexivity |].
      apply get_action_B_buffered.
Qed.

Lemma decision_cache_single_slot_witness :
  @Minimax.get_action nat tie_game 0 {| Minimax.moves := [Some North; None] |}
    0%nat
  = Some (None, {| Minimax.moves := [Some North] |})
  /\ length [Some North]
     = Nat.pred (length [Some North; (None : option Direction)]).
Proof.
  assert (Hget : @Minimax.get_action nat tie_game 0
                   {| Minimax.moves := [Some North; None] |} 0%nat
                 = Some (None, {| Minimax.moves := [Some North] |}))
    by reflexivity.
  destruct (@decision_cache_single_slot nat tie_game 0 fresh_agent0
              {| Minimax.moves := [Some North; None] |}
              {| HMinimax1.moves := [] |} 0%nat None) as (_ & Hplain & _).
  destruct (Hplain _ Hget) as [Hlen _].
  split; [exact Hget | exact Hlen].
Defined.

(** X7: in hminimax0.py, after any successful request the revisit set is
    the former one with the (Pacman position, food grid) of the request's
    snapshot added, whether a search ran or not; from then on the
    evaluation of every snapshot with that position and that grid carries
    the penalty 400. *)
Theorem revisit_set_grows_and_penalises {State : Type} `{GameState State}
    (fuel : nat) (self self' : HMinimax0.PacmanAgent) (state t : State)
    (action : option Direction) :
  HMinimax0.get_action fuel self state = Some (action, self') ->
  HMinimax0.previousKeyStates self'
  = {[ (getPacmanPosition state, getFood state) ]}
      ∪ HMinimax0.previousKeyStates self
  /\ (getPacmanPosition t = getPacmanPosition state ->
      getFood t = getFood state ->
      HMinimax0.eval_function self' t
      = Fin (inject_Z (getScore t - HMinimax0.current_score self' - 400)
             + (1 # 2) * inject_Z (manhattanDistance (getPacmanPosition t)
                                     (getGhostPosition t))
             - inject_Z (nearest_target_distance (getPacmanPosition t)
                           (getFood t))
             - inject_Z (2 * count_targets (getFood t))
             + (1 # 2) * inject_Z (farthest_target_distance
                                     (getPacmanPosition t) (getFood t))
             + (1 # 2) * inject_Z (Z.of_nat (length (getLegalActions t))))%Q).
Proof.
  intros Hget.
  assert (Hset : HMinimax0.previousKeyStates self'
                 = {[ (getPacmanPosition state, getFood state) ]}
                     ∪ HMinimax0.previousKeyStates self).
  { destruct (snoc_cases (HMinimax0.moves self)) as [Hempty | (rest & m & Hm)].
    - rewrite (get_action0_empty _ _ _ Hempty) in Hget.
      destruct (HMinimax0.hminimax fuel _ state) as [m |];
        [| discriminate Hget].
      inversion Hget; subst. reflexivity.
    - rewrite (get_action0_buffered _ _ _ _ _ Hm) in Hget.
      inversion Hget; subst. reflexivity. }
  split; [exact Hset |].
  intros Hpos Hfood. rewrite eval_function0_formula.
  rewrite bool_decide_true; [reflexivity |].
  rewrite Hpos, Hfood, Hset. apply elem_of_union_l, elem_of_singleton.
  reflexivity.
Qed.

Lemma revisit_set_grows_and_penalises_witness :
  exists self',
    @HMinimax0.get_action nat tie_game 2 fresh_agent0 0%nat
    = Some (Some West, self')
    /\ HMinimax0.previousKeyStates self'
       = {[ (@getPacmanPosition nat tie_game 0%nat, @getFood nat tie_game 0%nat) ]}
           ∪ HMinimax0.previousKeyStates fresh_agent0.
Proof.
  assert (Hfst : (fst <$> @HMinimax0.get_action nat tie_game 2 fresh_agent0 0%nat)
                 = Some (Some West))
    by (vm_compute; reflexivity).
  destruct (@HMinimax0.get_action nat tie_game 2 fresh_agent0 0%nat)
    as [[action self'] |] eqn:Hget; simpl in Hfst; [| discriminate Hfst].
  inversion Hfst; subst. exists self'. split; [reflexivity |].
  exact (proj1 (@revisit_set_grows_and_penalises nat tie_game 2 fresh_agent0
                  self' 0%nat 0%nat (Some West) Hget)).
Defined.

(** ** The visited table over a whole search *)

Section TableFacts.
Context {State : Type} `{GameState State}.

Lemma not_admissible_recorded (visited : Visited) (next_state : State) :
  admissible visited next_state = false -> recorded visited next_state.
Proof.
  unfold admissible, recorded. cbv zeta.
  destruct (visited !! key next_state) as [old |] eqn:Hold; intros Ha.
  - rewrite bool_decide_true in Ha by eauto. simpl in Ha.
    apply Z.ltb_ge in Ha. exists old. split; [reflexivity | exact Ha].
  - rewrite bool_decide_false in Ha by (intros [x Hx]; discriminate Hx).
    discriminate Ha.
Qed.

Lemma recorded_not_admissible (visited : Visited) (next_state : State) :
  recorded visited next_state -> admissible visited next_state = false.
Proof.
  intros (stored & Hs & Hle).
  eapply admissible_stored_not_below; eassumption.
Qed.

Lemma recorded_after_write (visited : Visited) (next_state : State) :
  recorded (<[key next_state := getScore next_state]> visited) next_state.
Proof.
  exists (getScore next_state). split; [apply lookup_insert_eq | lia].
Qed.

Lemma recorded_monotone (visited visited' : Visited) (next_state : State) :
  rtc visited_write visited visited' ->
  recorded visited next_state -> recorded visited' next_state.
Proof.
  intros Hw (stored & Hs & Hle).
  destruct (visited_writes_monotone _ _ Hw _ _ Hs) as (new & Hnew & Hge).
  exists new. split; [exact Hnew | lia].
Qed.

(** With [beta] at [+inf] the maximiser's loop runs to the end of the
    enumeration and leaves every successor recorded. *)
Lemma max_loop_visited_records_all (rec : rec_call)
    (Hrec : forall ns a b v value v',
        rec ns a b v = Some (value, v') -> rtc visited_write v v')
    (succs : list (State * Direction)) :
  forall max_value best_action alpha visited r visited',
    max_value <> PosInf ->
    max_loop_visited rec succs max_value best_action alpha PosInf visited
    = Some (r, visited') ->
    forall ns a, In (ns, a) succs -> recorded visited' ns.
Proof.
  induction succs as [| [next_state action] rest IH];
    intros max_value best_action alpha visited r visited' Hmax Hrun ns a Hin.
  - destruct Hin.
  - simpl in Hrun.
    destruct (admissible visited next_state) eqn:Hadm.
    + destruct (rec next_state alpha PosInf _) as [[value visited1] |] eqn:Hcall;
        [| discriminate].
      pose proof (Hrec _ _ _ _ _ _ Hcall) as Hw1.
      destruct (ext_ltb Z.ltb max_value value && negb (is_PosInf value)) eqn:Eu.
      * apply andb_true_iff in Eu as [_ Eu2].
        pose proof (is_PosInf_false _ Eu2) as Hv.
        assert (Hgo : ext_geb Z.ltb value PosInf = false)
          by (unfold ext_geb; destruct value; simpl; congruence).
        rewrite Hgo in Hrun.
        destruct Hin as [Heq | Hin]; [| eapply IH; eassumption].
        inversion Heq; subst.
        eapply recorded_monotone;
          [eapply max_loop_visited_writes; eassumption |].
        eapply recorded_monotone; [exact Hw1 | apply recorded_after_write].
      * assert (Hgo : ext_geb Z.ltb max_value PosInf = false)
          by (unfold ext_geb; destruct max_value; simpl; congruence).
        rewrite Hgo in Hrun.
        destruct Hin as [Heq | Hin]; [| eapply IH; eassumption].
        inversion Heq; subst.
        eapply recorded_monotone;
          [eapply max_loop_visited_writes; eassumption |].
        eapply recorded_monotone; [exact Hw1 | apply recorded_after_write].
    + destruct Hin as [Heq | Hin]; [| eapply IH; eassumption].
      inversion Heq; subst.
      eapply recorded_monotone;
        [eapply max_loop_visited_writes; eassumption |].
      apply not_admissible_recorded. exact Hadm.
Qed.

(** When every successor is recorded already, both loops return what they
    were started with. *)
Lemma max_loop_visited_exhausted (rec : rec_call)
    (succs : list (State * Direction)) (max_value : ZVal)
    (best_action : option Direction) (alpha beta : ZVal) (visited : Visited) :
  (forall ns a, In (ns, a) succs -> recorded visited ns) ->
  max_loop_visited rec succs max_value best_action alpha beta visited
  = Some (max_value, best_action, visited).
Proof.
  induction succs as [| [next_state action] rest IH]; intros Hall; simpl;
    [reflexivity |].
  rewrite (recorded_not_admissible visited next_state)
    by (eapply Hall; left; reflexivity).
  apply IH. intros ns a Hin. eapply Hall. right. exact Hin.
Qed.

Lemma min_loop_visited_exhausted (rec : rec_call)
    (succs : list (State * Direction)) (min_value : ZVal)
    (best_action : option Direction) (alpha beta : ZVal) (visited : Visited) :
  (forall ns a, In (ns, a) succs -> recorded visited ns) ->
  min_loop_visited rec succs min_value best_action alpha beta visited
  = Some (min_value, best_action, visited).
Proof.
  induction succs as [| [next_state action] rest IH]; intros Hall; simpl;
    [reflexivity |].
  rewrite (recorded_not_admissible visited next_state)
    by (eapply Hall; left; reflexivity).
  apply IH. intros ns a Hin. eapply Hall. right. exact Hin.
Qed.

Lemma minimax_rec_writes (fuel : nat) (is_pacman : bool) :
  forall (ns : State) a b v value v',
    value_of (Minimax.minimax_aux fuel ns a b is_pacman v) = Some (value, v') ->
    rtc visited_write v v'.
Proof.
  intros ns a b v value v' Hcall.
  apply value_of_Some in Hcall as [move Hcall].
  eapply minimax_aux_writes. exact Hcall.
Qed.

Lemma hminimax1_rec_writes (fuel : nat) (is_pacman : bool) (depth : nat) :
  forall (ns : State) a b v value v',
    value_of (HMinimax1.hminimax_aux fuel ns a b is_pacman v depth)
    = Some (value, v') ->
    rtc visited_write v v'.
Proof.
  intros ns a b v value v' Hcall.
  apply value_of_Some in Hcall as [move Hcall].
  eapply hminimax1_aux_writes. exact Hcall.
Qed.
End TableFacts.

(** X8: in the engines with a visited table, a maximiser's call with
    [beta = +inf] on a snapshot that is expanded (non-terminal in the plain
    engine, not cut off in variant B; the top-level call is such a call)
    never returns before the end of the enumeration: when it returns, every
    successor enumerated by [generatePacmanSuccessors] has its key in the
    table with a stored score not below its own, so each root move was
    either searched or already known with a score at least as good. *)
Theorem root_examines_every_move {State : Type} `{GameState State}
    (fuel : nat) (state : State) (alpha : ZVal) (visited : Visited)
    (depth : nat) (next_state : State) (action : Direction) :
  In (next_state, action) (generatePacmanSuccessors state) ->
  (Minimax.terminal state = false ->
   forall r visited',
     Minimax.minimax_aux fuel state alpha PosInf true visited
     = Some (r, visited') ->
     recorded visited' next_state)
  /\ (HMinimax1.cutoff state depth true = false ->
      forall r visited',
        HMinimax1.hminimax_aux fuel state alpha PosInf true visited depth
        = Some (r, visited') ->
        recorded visited' next_state).
Proof.
  intros Hin. split.
  - intros Hterm r visited' Hrun.
    destruct fuel as [| fuel]; [discriminate |]. simpl in Hrun.
    rewrite Hterm in Hrun.
    eapply max_loop_visited_records_all; [| | exact Hrun | exact Hin].
    + apply minimax_rec_writes.
    + discriminate.
  - intros Hcut r visited' Hrun.
    destruct fuel as [| fuel]; [discriminate |]. simpl in Hrun.
    rewrite Hcut in Hrun.
    eapply max_loop_visited_records_all; [| | exact Hrun | exact Hin].
    + apply hminimax1_rec_writes.
    + discriminate.
Qed.

Lemma root_examines_every_move_witness :
  In (2%nat, East) (@generatePacmanSuccessors nat transposition_game 0%nat)
  /\ @Minimax.terminal nat transposition_game 0%nat = false
  /\ (exists r visited',
         @Minimax.minimax_aux nat transposition_game 4 0%nat NegInf PosInf
           true ∅ = Some (r, visited')
         /\ @recorded nat transposition_game visited' 2%nat).
Proof.
  assert (Hin : In (2%nat, East)
                  (@generatePacmanSuccessors nat transposition_game 0%nat))
    by (right; left; reflexivity).
  assert (Hterm : @Minimax.terminal nat transposition_game 0%nat = false)
    by reflexivity.
  destruct (@root_examines_every_move nat transposition_game 4 0%nat NegInf ∅
              0%nat 2%nat East Hin) as [Hplain _].
  assert (Hsome : is_Some (fst <$> @Minimax.minimax_aux nat transposition_game
                                     4 0%nat NegInf PosInf true ∅))
    by (vm_compute; eauto).
  split; [exact Hin |]. split; [exact Hterm |].
  destruct (@Minimax.minimax_aux nat transposition_game 4 0%nat NegInf PosInf
              true ∅) as [[r visited'] |] eqn:Hrun.
  - exists r, visited'. split; [reflexivity |].
    exact (Hplain Hterm r visited' eq_refl).
  - exfalso. destruct Hsome as [x Hx]. discriminate Hx.
Defined.

(** X9: in the engines with a visited table, a call on a snapshot that is
    expanded and whose successors for the side to move are all in the table
    already, with stored scores not below their own, makes no recursive
    call at all (one unit of fuel is enough): it returns [-inf] for the
    maximiser and [+inf] for the minimiser, with no move and the table
    unchanged. *)
Theorem exhausted_node_returns_sentinel {State : Type} `{GameState State}
    (fuel : nat) (state : State) (alpha beta : ZVal) (visited : Visited)
    (depth : nat) :
  ((forall ns a, In (ns, a) (generatePacmanSuccessors state) ->
                 recorded visited ns) ->
   (Minimax.terminal state = false ->
    Minimax.minimax_aux (S fuel) state alpha beta true visited
    = Some (NegInf, None, visited))
   /\ (HMinimax1.cutoff state depth true = false ->
       HMinimax1.hminimax_aux (S fuel) state alpha beta true visited depth
       = Some (NegInf, None, visited)))
  /\ ((forall ns a, In (ns, a) (generateGhostSuccessors state) ->
                    recorded visited ns) ->
      (Minimax.terminal state = false ->
       Minimax.minimax_aux (S fuel) state alpha beta false visited
       = Some (PosInf, None, visited))
      /\ (HMinimax1.cutoff state depth false = false ->
          HMinimax1.hminimax_aux (S fuel) state alpha beta false visited depth
          = Some (PosInf, None, visited))).
Proof.
  split; intros Hall; split; intros Hexp; simpl; rewrite Hexp.
  - apply max_loop_visited_exhausted. exact Hall.
  - apply max_loop_visited_exhausted. exact Hall.
  - apply min_loop_visited_exhausted. exact Hall.
  - apply min_loop_visited_exhausted. exact Hall.
Qed.

Lemma exhausted_node_returns_sentinel_witness :
  (forall ns a,
      In (ns, a) (@generatePacmanSuccessors nat exhausted_game 2%nat) ->
      @recorded nat exhausted_game
        {[ @key nat exhausted_game 2%nat := -1 ]} ns)
  /\ @Minimax.terminal nat exhausted_game 2%nat = false
  /\ @Minimax.minimax_aux nat exhausted_game 1 2%nat NegInf PosInf true
       {[ @key nat exhausted_game 2%nat := -1 ]}
     = Some (NegInf, None, {[ @key nat exhausted_game 2%nat := -1 ]}).
Proof.
  assert (Hall : forall ns a,
             In (ns, a) (@generatePacmanSuccessors nat exhausted_game 2%nat) ->
             @recorded nat exhausted_game
               {[ @key nat exhausted_game 2%nat := -1 ]} ns).
  { intros ns a [Heq | []]. inversion Heq; subst.
    exists (-1). split; [apply lookup_singleton_eq | vm_compute; discriminate]. }
  assert (Hterm : @Minimax.terminal nat exhausted_game 2%nat = false)
    by reflexivity.
  destruct (@exhausted_node_returns_sentinel nat exhausted_game 0 2%nat
              NegInf PosInf {[ @key nat exhausted_game 2%nat := -1 ]} 0%nat)
    as [Hmax _].
  split; [exact Hall |]. split; [exact Hterm |].
  exact (proj1 (Hmax Hall) Hterm).
Defined.

Section Provenance.
Context {State : Type} `{GameState State}.

Lemma entries_from_refl (state : State) (visited : Visited) :
  entries_from state visited visited.
Proof. intros k x Hk. left. exact Hk. Qed.

Lemma entries_from_write (state next_state : State)
    (visited0 visited : Visited) :
  successor state next_state ->
  entries_from state visited0 visited ->
  entries_from state visited0
    (<[key next_state := getScore next_state]> visited).
Proof.
  intros Hs Hent k x Hk.
  destruct (decide (key next_state = k)) as [Heq | Hne].
  - subst k. rewrite lookup_insert_eq in Hk. inversion Hk; subst.
    right. exists next_state. split; [apply tc_once; exact Hs |].
    split; reflexivity.
  - rewrite lookup_insert_ne in Hk by exact Hne. apply Hent. exact Hk.
Qed.

Lemma entries_from_step (state next_state : State)
    (visited0 visited visited' : Visited) :
  successor state next_state ->
  entries_from state visited0 visited ->
  entries_from next_state visited visited' ->
  entries_from state visited0 visited'.
Proof.
  intros Hs Hent Hnext k x Hk.
  destruct (Hnext k x Hk) as [Hold | (t & Hreach & Hkey & Hscore)].
  - apply Hent. exact Hold.
  - right. exists t. split; [| split; assumption].
    eapply tc_l; eassumption.
Qed.

Lemma max_loop_visited_entries (state : State) (rec : rec_call)
    (succs : list (State * Direction)) (visited0 : Visited)
    (Hsucc : forall ns a, In (ns, a) succs -> successor state ns)
    (Hrec : forall ns a0 a b v value v',
        In (ns, a0) succs -> rec ns a b v = Some (value, v') ->
        entries_from ns v v') :
  forall max_value best_action alpha beta visited r visited',
    entries_from state visited0 visited ->
    max_loop_visited rec succs max_value best_action alpha beta visited
    = Some (r, visited') ->
    entries_from state visited0 visited'.
Proof.
  induction succs as [| [next_state action] rest IH];
    intros max_value best_action alpha beta visited r visited' Hent Hrun;
    simpl in Hrun.
  - inversion Hrun; subst. exact Hent.
  - assert (Hsucc' : forall ns a, In (ns, a) rest -> successor state ns)
      by (intros ns a Hin; eapply Hsucc; right; exact Hin).
    assert (Hrec' : forall ns a0 a b v value v',
               In (ns, a0) rest -> rec ns a b v = Some (value, v') ->
               entries_from ns v v')
      by (intros ns a0 a b v value v' Hin; eapply Hrec; right; exact Hin).
    destruct (admissible visited next_state);
      [| eapply (IH Hsucc' Hrec'); eassumption].
    destruct (rec next_state alpha beta _) as [[value visited1] |] eqn:Hcall;
      [| discriminate].
    assert (Hent1 : entries_from state visited0 visited1).
    { eapply entries_from_step.
      - eapply Hsucc. left. reflexivity.
      - apply entries_from_write; [eapply Hsucc; left; reflexivity | exact Hent].
      - eapply Hrec; [left; reflexivity | exact Hcall]. }
    destruct (ext_ltb Z.ltb max_value value && negb (is_PosInf value));
      destruct (ext_geb Z.ltb _ beta);
      try (inversion Hrun; subst; exact Hent1);
      eapply (IH Hsucc' Hrec'); eassumption.
Qed.

Lemma min_loop_visited_entries (state : State) (rec : rec_call)
    (succs : list (State * Direction)) (visited0 : Visited)
    (Hsucc : forall ns a, In (ns, a) succs -> successor state ns)
    (Hrec : forall ns a0 a b v value v',
        In (ns, a0) succs -> rec ns a b v = Some (value, v') ->
        entries_from ns v v') :
  forall min_value best_action alpha beta visited r visited',
    entries_from state visited0 visited ->
    min_loop_visited rec succs min_value best_action alpha beta visited
    = Some (r, visited') ->
    entries_from state visited0 visited'.
Proof.
  induction succs as [| [next_state action] rest IH];
    intros min_value best_action alpha beta visited r visited' Hent Hrun;
    simpl in Hrun.
  - inversion Hrun; subst. exact Hent.
  - assert (Hsucc' : forall ns a, In (ns, a) rest -> successor state ns)
      by (intros ns a Hin; eapply Hsucc; right; exact Hin).
    assert (Hrec' : forall ns a0 a b v value v',
               In (ns, a0) rest -> rec ns a b v = Some (value, v') ->
               entries_from ns v v')
      by (intros ns a0 a b v value v' Hin; eapply Hrec; right; exact Hin).
    destruct (admissible visited next_state);
      [| eapply (IH Hsucc' Hrec'); eassumption].
    destruct (rec next_state alpha beta _) as [[value visited1] |] eqn:Hcall;
      [| discriminate].
    assert (Hent1 : entries_from state visited0 visited1).
    { eapply entries_from_step.
      - eapply Hsucc. left. reflexivity.
      - apply entries_from_write; [eapply Hsucc; left; reflexivity | exact Hent].
      - eapply Hrec; [left; reflexivity | exact Hcall]. }
    destruct (ext_leb Z.ltb _ alpha);
      [inversion Hrun; subst; exact Hent1 |].
    eapply (IH Hsucc' Hrec'); eassumption.
Qed.

Lemma minimax_aux_entries (fuel : nat) :
  forall (state : State) alpha beta is_pacman visited r visited',
    Minimax.minimax_aux fuel state alpha beta is_pacman visited
    = Some (r, visited') ->
    entries_from state visited visited'.
Proof.
  induction fuel as [| fuel IH];
    intros state alpha beta is_pacman visited r visited' Hrun;
    simpl in Hrun; [discriminate |].
  destruct (Minimax.terminal state).
  - inversion Hrun; subst. apply entries_from_refl.
  - destruct is_pacman.
    + eapply (max_loop_visited_entries state); [| | apply entries_from_refl
                                                  | exact Hrun].
      * intros ns a Hin. exists a. left. exact Hin.
      * intros ns a0 a b v value v' _ Hcall.
        apply value_of_Some in Hcall as [move Hcall]. eapply IH. exact Hcall.
    + eapply (min_loop_visited_entries state); [| | apply entries_from_refl
                                                  | exact Hrun].
      * intros ns a Hin. exists a. right. exact Hin.
      * intros ns a0 a b v value v' _ Hcall.
        apply value_of_Some in Hcall as [move Hcall]. eapply IH. exact Hcall.
Qed.

Lemma hminimax1_aux_entries (fuel : nat) :
  forall (state : State) alpha beta is_pacman visited depth r visited',
    HMinimax1.hminimax_aux fuel state alpha beta is_pacman visited depth
    = Some (r, visited') ->
    entries_from state visited visited'.
Proof.
  induction fuel as [| fuel IH];
    intros state alpha beta is_pacman visited depth r visited' Hrun;
    simpl in Hrun; [discriminate |].
  destruct (HMinimax1.cutoff state depth is_pacman).
  - inversion Hrun; subst. apply entries_from_refl.
  - destruct is_pacman.
    + eapply (max_loop_visited_entries state); [| | apply entries_from_refl
                                                  | exact Hrun].
      * intros ns a Hin. exists a. left. exact Hin.
      * intros ns a0 a b v value v' _ Hcall.
        apply value_of_Some in Hcall as [move Hcall]. eapply IH. exact Hcall.
    + eapply (min_loop_visited_entries state); [| | apply entries_from_refl
                                                  | exact Hrun].
      * intros ns a Hin. exists a. right. exact Hin.
      * intros ns a0 a b v value v' _ Hcall.
        apply value_of_Some in Hcall as [move Hcall]. eapply IH. exact Hcall.
Qed.
End Provenance.

(** X10: in the engines with a visited table, every entry of the table
    after a search is an entry the table had before it, or the key of a
    snapshot reachable from the searched one in one ply or more, stored
    with that snapshot's score; so a top-level search, which starts from
    the empty table, ends with keys and scores of reachable snapshots
    only. *)
Theorem visited_entries_are_reachable {State : Type} `{GameState State}
    (fuel : nat) (state : State) (alpha beta : ZVal) (is_pacman : bool)
    (visited : Visited) (depth : nat) (k : Key) (x : Z) :
  (forall r visited',
      Minimax.minimax_aux fuel state alpha beta is_pacman visited
      = Some (r, visited') ->
      visited' !! k = Some x ->
      visited !! k = Some x
      \/ exists t, tc successor state t /\ key t = k /\ getScore t = x)
  /\ (forall r visited',
         HMinimax1.hminimax_aux fuel state alpha beta is_pacman visited depth
         = Some (r, visited') ->
         visited' !! k = Some x ->
         visited !! k = Some x
         \/ exists t, tc successor state t /\ key t = k /\ getScore t = x).
Proof.
  split; intros r visited' Hrun Hk.
  - exact (minimax_aux_entries _ _ _ _ _ _ _ _ Hrun k x Hk).
  - exact (hminimax1_aux_entries _ _ _ _ _ _ _ _ _ Hrun k x Hk).
Qed.

Lemma visited_entries_are_reachable_witness :
  exists r visited',
    @Minimax.minimax_aux nat transposition_game 4 0%nat NegInf PosInf true ∅
    = Some (r, visited')
    /\ visited' !! @key nat transposition_game 6%nat = Some 0
    /\ exists t : nat,
         tc (@successor nat transposition_game) 0%nat t
         /\ @key nat transposition_game t = @key nat transposition_game 6%nat
         /\ @getScore nat transposition_game t = 0.
Proof.
  assert (Hlook : (fun o => match o with
                            | Some (_, v) =>
                                v !! @key nat transposition_game 6%nat
                            | None => None
                            end)
                    (@Minimax.minimax_aux nat transposition_game 4 0%nat
                       NegInf PosInf true ∅) = Some 0)
    by (vm_compute; reflexivity).
  destruct (@Minimax.minimax_aux nat transposition_game 4 0%nat NegInf PosInf
              true ∅) as [[r visited'] |] eqn:Hrun; simpl in Hlook;
    [| discriminate Hlook].
  exists r, visited'. split; [reflexivity |]. split; [exact Hlook |].
  destruct (@visited_entries_are_reachable nat transposition_game 4 0%nat
              NegInf PosInf true ∅ 0%nat
              (@key nat transposition_game 6%nat) 0) as [Hplain _].
  destruct (Hplain r visited' Hrun Hlook) as [Hempty | Hreach].
  - rewrite lookup_empty in Hempty. discriminate Hempty.
  - exact Hreach.
Defined.

(** ** Pruning under any window, variant A *)

(** X11: in variant A, for either side and any window [alpha < beta], when
    the exhaustive search returns the value [v], the pruned search returns
    with the same fuel a value [r] such that: if [alpha < v < beta] then
    [r] is [v] and the moves agree; if [v <= alpha] then [r <= alpha]; if
    [beta <= v] then [beta <= r]. *)
Theorem pruned_value_within_window {State : Type} `{GameState State}
    (fuel : nat) (self : HMinimax0.PacmanAgent) (state : State)
    (alpha beta : QVal) (is_pacman : bool) (depth : nat)
    (v : QVal) (m : option Direction) :
  qlt alpha beta ->
  hminimax0_exhaustive fuel self state is_pacman depth = Some (v, m) ->
  exists r m',
    HMinimax0.hminimax_aux fuel self state alpha beta is_pacman depth
    = Some (r, m')
    /\ (qlt alpha v -> qlt v beta -> r = v /\ m' = m)
    /\ (qle v alpha -> qle r alpha)
    /\ (qle beta v -> qle beta r).
Proof.
  intros Hwin Hex.
  destruct (hminimax0_sim self fuel state alpha beta is_pacman depth (v, m)
              Hwin Hex) as [[r m'] [Hrun Hrel]].
  exists r, m'. split; [exact Hrun |].
  destruct Hrel as [Heq | (Hf & Hf' & [[Hl Hl'] | [Hh Hh']])].
  - inversion Heq; subst. repeat split; auto.
  - simpl in *. split; [| split].
    + intros Hlow _. exfalso. clear - Hl Hlow. ext_order.
    + intros _. exact Hl'.
    + intros Hhigh. exfalso. clear - Hwin Hl Hhigh Hf. ext_order.
  - simpl in *. split; [| split].
    + intros _ Hup. exfalso. clear - Hh Hup. ext_order.
    + intros Hlow. exfalso. clear - Hwin Hh Hlow Hf. ext_order.
    + intros _. exact Hh'.
Qed.

Lemma pruned_value_within_window_witness :
  qlt (Fin (-2)%Q) (Fin 0%Q)
  /\ @hminimax0_exhaustive nat tie_game 2 fresh_agent0 0%nat true 0
     = Some (Fin (-8 # 8), Some West)
  /\ @HMinimax0.hminimax_aux nat tie_game 2 fresh_agent0 0%nat
       (Fin (-2)%Q) (Fin 0%Q) true 0
     = Some (Fin (-8 # 8), Some West).
Proof.
  assert (Hwin : qlt (Fin (-2)%Q) (Fin 0%Q)) by reflexivity.
  assert (Hex : @hminimax0_exhaustive nat tie_game 2 fresh_agent0 0%nat true 0
                = Some (Fin (-8 # 8), Some West))
    by (vm_compute; reflexivity).
  split; [exact Hwin |]. split; [exact Hex |].
  destruct (@pruned_value_within_window nat tie_game 2 fresh_agent0 0%nat
              (Fin (-2)%Q) (Fin 0%Q) true 0%nat (Fin (-8 # 8)) (Some West)
              Hwin Hex) as (r & m' & Hrun & Hin & _).
  destruct (Hin eq_refl eq_refl) as [-> ->]. exact Hrun.
Defined.

(** ** Depth and leaves in the heuristic engines *)

Section DepthAndLeaves.
Context {State : Type} `{GameState State}.

Lemma cutoff0_below_root (state : State) (d d' : nat) (is_pacman : bool) :
  (0 < d)%nat -> (0 < d')%nat ->
  HMinimax0.cutoff state d is_pacman = HMinimax0.cutoff state d' is_pacman.
Proof.
  intros Hd Hd'. unfold HMinimax0.cutoff.
  rewrite (depth_positive d Hd), (depth_positive d' Hd'). reflexivity.
Qed.

Lemma cutoff1_below_root (state : State) (d d' : nat) (is_pacman : bool) :
  (0 < d)%nat -> (0 < d')%nat ->
  HMinimax1.cutoff state d is_pacman = HMinimax1.cutoff state d' is_pacman.
Proof.
  intros Hd Hd'. unfold HMinimax1.cutoff.
  rewrite (depth_positive d Hd), (depth_positive d' Hd'). reflexivity.
Qed.

Lemma max_loop0_ext rec1 rec2 (succs : list (State * Direction)) :
  (forall ns a b, rec1 ns a b = rec2 ns a b) ->
  forall max_value best_action alpha beta,
    HMinimax0.max_loop rec1 succs max_value best_action alpha beta
    = HMinimax0.max_loop rec2 succs max_value best_action alpha beta.
Proof.
  intros Hext. induction succs as [| [next_state action] rest IH];
    intros max_value best_action alpha beta; simpl; [reflexivity |].
  rewrite Hext. destruct (rec2 next_state alpha beta) as [v |]; [| reflexivity].
  destruct (ext_ltb Qltb max_value v && negb (is_PosInf v));
    destruct (ext_geb Qltb _ beta); try reflexivity; apply IH.
Qed.

Lemma min_loop0_ext rec1 rec2 (succs : list (State * Direction)) :
  (forall ns a b, rec1 ns a b = rec2 ns a b) ->
  forall min_value best_action alpha beta,
    HMinimax0.min_loop rec1 succs min_value best_action alpha beta
    = HMinimax0.min_loop rec2 succs min_value best_action alpha beta.
Proof.
  intros Hext. induction succs as [| [next_state action] rest IH];
    intros min_value best_action alpha beta; simpl; [reflexivity |].
  rewrite Hext. destruct (rec2 next_state alpha beta) as [v |]; [| reflexivity].
  destruct (ext_leb Qltb _ alpha); [reflexivity | apply IH].
Qed.

Lemma max_loop_visited_ext (rec1 rec2 : rec_call)
    (succs : list (State * Direction)) :
  (forall ns a b v, rec1 ns a b v = rec2 ns a b v) ->
  forall max_value best_action alpha beta visited,
    max_loop_visited rec1 succs max_value best_action alpha beta visited
    = max_loop_visited rec2 succs max_value best_action alpha beta visited.
Proof.
  intros Hext. induction succs as [| [next_state action] rest IH];
    intros max_value best_action alpha beta visited; simpl; [reflexivity |].
  destruct (admissible visited next_state); [| apply IH].
  rewrite Hext.
  destruct (rec2 next_state alpha beta _) as [[v visited1] |]; [| reflexivity].
  destruct (ext_ltb Z.ltb max_value v && negb (is_PosInf v));
    destruct (ext_geb Z.ltb _ beta); try reflexivity; apply IH.
Qed.

Lemma min_loop_visited_ext (rec1 rec2 : rec_call)
    (succs : list (State * Direction)) :
  (forall ns a b v, rec1 ns a b v = rec2 ns a b v) ->
  forall min_value best_action alpha beta visited,
    min_loop_visited rec1 succs min_value best_action alpha beta visited
    = min_loop_visited rec2 succs min_value best_action alpha beta visited.
Proof.
  intros Hext. induction succs as [| [next_state action] rest IH];
    intros min_value best_action alpha beta visited; simpl; [reflexivity |].
  destruct (admissible visited next_state); [| apply IH].
  rewrite Hext.
  destruct (rec2 next_state alpha beta _) as [[v visited1] |]; [| reflexivity].
  destruct (ext_leb Z.ltb _ alpha); [reflexivity | apply IH].
Qed.

Lemma hminimax0_below_root (self : HMinimax0.PacmanAgent) (fuel : nat) :
  forall (state : State) alpha beta is_pacman d d',
    (0 < d)%nat -> (0 < d')%nat ->
    HMinimax0.hminimax_aux fuel self state alpha beta is_pacman d
    = HMinimax0.hminimax_aux fuel self state alpha beta is_pacman d'.
Proof.
  induction fuel as [| fuel IH]; intros state alpha beta is_pacman d d' Hd Hd';
    simpl; [reflexivity |].
  rewrite (cutoff0_below_root state d d' is_pacman Hd Hd').
  destruct (HMinimax0.cutoff state d' is_pacman); [reflexivity |].
  destruct is_pacman.
  - apply max_loop0_ext. intros ns a b.
    rewrite (IH ns a b false (S d) (S d')) by lia. reflexivity.
  - apply min_loop0_ext. intros ns a b.
    rewrite (IH ns a b true (S d) (S d')) by lia. reflexivity.
Qed.

Lemma hminimax1_below_root (fuel : nat) :
  forall (state : State) alpha beta is_pacman visited d d',
    (0 < d)%nat -> (0 < d')%nat ->
    HMinimax1.hminimax_aux fuel state alpha beta is_pacman visited d
    = HMinimax1.hminimax_aux fuel state alpha beta is_pacman visited d'.
Proof.
  induction fuel as [| fuel IH];
    intros state alpha beta is_pacman visited d d' Hd Hd';
    simpl; [reflexivity |].
  rewrite (cutoff1_below_root state d d' is_pacman Hd Hd').
  destruct (HMinimax1.cutoff state d' is_pacman); [reflexivity |].
  destruct is_pacman.
  - apply max_loop_visited_ext. intros ns a b v.
    rewrite (IH ns a b false v (S d) (S d')) by lia. reflexivity.
  - apply min_loop_visited_ext. intros ns a b v.
    rewrite (IH ns a b true v (S d) (S d')) by lia. reflexivity.
Qed.

(** A finite value leaving a loop of variant A entered it or came from a
    recursive call on one of the successors. *)
Lemma max_loop0_value (P : Q -> Prop)
    (rec : State -> QVal -> QVal -> option QVal)
    (succs : list (State * Direction))
    (Hrec : forall ns action a b x,
        In (ns, action) succs -> rec ns a b = Some (Fin x) -> P x) :
  forall max_value best_action alpha beta x move,
    (forall y, max_value = Fin y -> P y) ->
    HMinimax0.max_loop rec succs max_value best_action alpha beta
    = Some (Fin x, move) ->
    P x.
Proof.
  induction succs as [| [next_state action] rest IH];
    intros max_value best_action alpha beta x move Hinit Hrun; simpl in Hrun.
  - inversion Hrun; subst. apply Hinit. reflexivity.
  - assert (Hrest : forall ns act a b y,
               In (ns, act) rest -> rec ns a b = Some (Fin y) -> P y)
      by (intros ns act a b y Hin; eapply Hrec; right; exact Hin).
    destruct (rec next_state alpha beta) as [value |] eqn:Hcall;
      [| discriminate].
    assert (Hvalue : forall y, value = Fin y -> P y)
      by (intros y ->; eapply Hrec; [left; reflexivity | exact Hcall]).
    destruct (ext_ltb Qltb max_value value && negb (is_PosInf value));
      destruct (ext_geb Qltb _ beta);
      try (inversion Hrun; subst; auto; fail);
      eapply (IH Hrest); try exact Hrun; assumption.
Qed.

Lemma min_loop0_value (P : Q -> Prop)
    (rec : State -> QVal -> QVal -> option QVal)
    (succs : list (State * Direction))
    (Hrec : forall ns action a b x,
        In (ns, action) succs -> rec ns a b = Some (Fin x) -> P x) :
  forall min_value best_action alpha beta x move,
    (forall y, min_value = Fin y -> P y) ->
    HMinimax0.min_loop rec succs min_value best_action alpha beta
    = Some (Fin x, move) ->
    P x.
Proof.
  induction succs as [| [next_state action] rest IH];
    intros min_value best_action alpha beta x move Hinit Hrun; simpl in Hrun.
  - inversion Hrun; subst. apply Hinit. reflexivity.
  - assert (Hrest : forall ns act a b y,
               In (ns, act) rest -> rec ns a b = Some (Fin y) -> P y)
      by (intros ns act a b y Hin; eapply Hrec; right; exact Hin).
    destruct (rec next_state alpha beta) as [value |] eqn:Hcall;
      [| discriminate].
    assert (Hvalue : forall y, value = Fin y -> P y)
      by (intros y ->; eapply Hrec; [left; reflexivity | exact Hcall]).
    destruct (ext_ltb Qltb value min_value && negb (is_NegInf value));
      destruct (ext_leb Qltb _ alpha);
      try (inversion Hrun; subst; auto; fail);
      eapply (IH Hrest); try exact Hrun; assumption.
Qed.

Lemma hminimax0_value_is_evaluation (self : HMinimax0.PacmanAgent)
    (fuel : nat) :
  forall (state : State) alpha beta is_pacman depth x move,
    HMinimax0.hminimax_aux fuel self state alpha beta is_pacman depth
    = Some (Fin x, move) ->
    exists t d p, rtc successor state t
                  /\ HMinimax0.cutoff t d p = true
                  /\ HMinimax0.eval_function self t = Fin x.
Proof.
  induction fuel as [| fuel IH];
    intros state alpha beta is_pacman depth x move Hrun; simpl in Hrun;
    [discriminate |].
  destruct (HMinimax0.cutoff state depth is_pacman) eqn:Hcut.
  - exists state, depth, is_pacman.
    split; [apply rtc_refl |]. split; [exact Hcut | congruence].
  - destruct is_pacman.
    + eapply (max_loop0_value
                (fun y => exists t d p, rtc successor state t
                            /\ HMinimax0.cutoff t d p = true
                            /\ HMinimax0.eval_function self t = Fin y));
        [| | exact Hrun].
      * intros ns action a b y Hin Hcall. cbv beta in Hcall.
        destruct (HMinimax0.hminimax_aux fuel self ns a b false (S depth))
          as [[v m] |] eqn:Hsub; simpl in Hcall; [| discriminate Hcall].
        inversion Hcall; subst.
        destruct (IH _ _ _ _ _ _ _ Hsub) as (t & d & p & Hreach & Ht).
        exists t, d, p. split; [| exact Ht].
        eapply rtc_l; [| exact Hreach]. exists action. left. exact Hin.
      * intros y Hy. discriminate Hy.
    + eapply (min_loop0_value
                (fun y => exists t d p, rtc successor state t
                            /\ HMinimax0.cutoff t d p = true
                            /\ HMinimax0.eval_function self t = Fin y));
        [| | exact Hrun].
      * intros ns action a b y Hin Hcall. cbv beta in Hcall.
        destruct (HMinimax0.hminimax_aux fuel self ns a b true (S depth))
          as [[v m] |] eqn:Hsub; simpl in Hcall; [| discriminate Hcall].
        inversion Hcall; subst.
        destruct (IH _ _ _ _ _ _ _ Hsub) as (t & d & p & Hreach & Ht).
        exists t, d, p. split; [| exact Ht].
        eapply rtc_l; [| exact Hreach]. exists action. right. exact Hin.
      * intros y Hy. discriminate Hy.
Qed.

Lemma hminimax1_value_is_evaluation (fuel : nat) :
  forall (state : State) alpha beta is_pacman visited depth x move visited',
    HMinimax1.hminimax_aux fuel state alpha beta is_pacman visited depth
    = Some (Fin x, move, visited') ->
    exists t d p, rtc successor state t
                  /\ HMinimax1.cutoff t d p = true
                  /\ HMinimax1.eval_function t = Fin x.
Proof.
  induction fuel as [| fuel IH];
    intros state alpha beta is_pacman visited depth x move visited' Hrun;
    simpl in Hrun; [discriminate |].
  destruct (HMinimax1.cutoff state depth is_pacman) eqn:Hcut.
  - exists state, depth, is_pacman.
    split; [apply rtc_refl |]. split; [exact Hcut | congruence].
  - destruct is_pacman.
    + eapply (max_loop_visited_value
                (fun y => exists t d p, rtc successor state t
                            /\ HMinimax1.cutoff t d p = true
                            /\ HMinimax1.eval_function t = Fin y));
        [| | exact Hrun].
      * intros ns action a b v y v' Hin Hcall.
        apply value_of_Some in Hcall as [m Hcall].
        destruct (IH _ _ _ _ _ _ _ _ _ Hcall) as (t & d & p & Hreach & Ht).
        exists t, d, p. split; [| exact Ht].
        eapply rtc_l; [| exact Hreach]. exists action. left. exact Hin.
      * intros y Hy. discriminate Hy.
    + eapply (min_loop_visited_value
                (fun y => exists t d p, rtc successor state t
                            /\ HMinimax1.cutoff t d p = true
                            /\ HMinimax1.eval_function t = Fin y));
        [| | exact Hrun].
      * intros ns action a b v y v' Hin Hcall.
        apply value_of_Some in Hcall as [m Hcall].
        destruct (IH _ _ _ _ _ _ _ _ _ Hcall) as (t & d & p & Hreach & Ht).
        exists t, d, p. split; [| exact Ht].
        eapply rtc_l; [| exact Hreach]. exists action. right. exact Hin.
      * intros y Hy. discriminate Hy.
Qed.
End DepthAndLeaves.

(** X12: the heuristic engines use the depth only to tell the root from the
    rest: for any two depths greater than 0 the cutoff policy decides the
    same and the recursive search returns the same result, so no depth
    limit bounds the search below the root. *)
Theorem search_below_root_ignores_depth {State : Type} `{GameState State}
    (fuel : nat) (self : HMinimax0.PacmanAgent) (state : State)
    (qalpha qbeta : QVal) (alpha beta : ZVal) (is_pacman : bool)
    (visited : Visited) (d d' : nat) :
  (0 < d)%nat -> (0 < d')%nat ->
  HMinimax0.cutoff state d is_pacman = HMinimax0.cutoff state d' is_pacman
  /\ HMinimax0.hminimax_aux fuel self state qalpha qbeta is_pacman d
     = HMinimax0.hminimax_aux fuel self state qalpha qbeta is_pacman d'
  /\ HMinimax1.cutoff state d is_pacman = HMinimax1.cutoff state d' is_pacman
  /\ HMinimax1.hminimax_aux fuel state alpha beta is_pacman visited d
     = HMinimax1.hminimax_aux fuel state alpha beta is_pacman visited d'.
Proof.
  intros Hd Hd'.
  split; [apply cutoff0_below_root; assumption |].
  split; [apply hminimax0_below_root; assumption |].
  split; [apply cutoff1_below_root; assumption |].
  apply hminimax1_below_root; assumption.
Qed.

Lemma search_below_root_ignores_depth_witness :
  (0 < 1)%nat /\ (0 < 7)%nat
  /\ @HMinimax0.hminimax_aux nat tie_game 3 fresh_agent0 0%nat
       NegInf PosInf true 1
     = @HMinimax0.hminimax_aux nat tie_game 3 fresh_agent0 0%nat
         NegInf PosInf true 7.
Proof.
  assert (Hd : (0 < 1)%nat) by lia.
  assert (Hd' : (0 < 7)%nat) by lia.
  split; [exact Hd |]. split; [exact Hd' |].
  exact (proj1 (proj2 (@search_below_root_ignores_depth nat tie_game 3
                         fresh_agent0 0%nat NegInf PosInf NegInf PosInf true ∅
                         1%nat 7%nat Hd Hd'))).
Defined.

(** X13: every finite value returned by the recursive search of a heuristic
    engine is the evaluation, by that engine's [eval_function], of a
    snapshot reachable from the searched one at which the cutoff policy
    fired: the search compares and passes on evaluations, it never computes
    with them. *)
Theorem heuristic_values_are_evaluations {State : Type} `{GameState State}
    (fuel : nat) (self : HMinimax0.PacmanAgent) (state : State)
    (qalpha qbeta : QVal) (alpha beta : ZVal) (is_pacman : bool)
    (visited : Visited) (depth : nat) :
  (forall x move,
      HMinimax0.hminimax_aux fuel self state qalpha qbeta is_pacman depth
      = Some (Fin x, move) ->
      exists t d p, rtc successor state t
                    /\ HMinimax0.cutoff t d p = true
                    /\ HMinimax0.eval_function self t = Fin x)
  /\ (forall x move visited',
         HMinimax1.hminimax_aux fuel state alpha beta is_pacman visited depth
         = Some (Fin x, move, visited') ->
         exists t d p, rtc successor state t
                       /\ HMinimax1.cutoff t d p = true
                       /\ HMinimax1.eval_function t = Fin x).
Proof.
  split.
  - intros x move Hrun. eapply hminimax0_value_is_evaluation. exact Hrun.
  - intros x move visited' Hrun. eapply hminimax1_value_is_evaluation.
    exact Hrun.
Qed.

Lemma heuristic_values_are_evaluations_witness :
  @HMinimax0.hminimax_aux nat tie_game 2 fresh_agent0 0%nat NegInf PosInf true 0
  = Some (Fin (-8 # 8), Some West)
  /\ exists (t : nat) d p,
       rtc (@successor nat tie_game) 0%nat t
       /\ @HMinimax0.cutoff nat tie_game t d p = true
       /\ @HMinimax0.eval_function nat tie_game fresh_agent0 t = Fin (-8 # 8).
Proof.
  assert (Hrun : @HMinimax0.hminimax_aux nat tie_game 2 fresh_agent0 0%nat
                   NegInf PosInf true 0 = Some (Fin (-8 # 8), Some West))
    by (vm_compute; reflexivity).
  split; [exact Hrun |].
  exact (proj1 (@heuristic_values_are_evaluations nat tie_game 2 fresh_agent0
                  0%nat NegInf PosInf NegInf PosInf true ∅ 0%nat)
           (-8 # 8)%Q (Some West) Hrun).
Defined.

(** ** One-ply decisions of variant A *)

Section Greedy.
Context {State : Type} `{GameState State}.

(** The maximiser's loop of variant A, run with [beta = +inf] over
    successors that all return their finite evaluation. *)
Lemma max_loop0_greedy (rec : State -> QVal -> QVal -> option QVal)
    (evalf : State -> QVal) (succs : list (State * Direction))
    (Hrec : forall ns a0 a b,
        In (ns, a0) succs ->
        exists q, evalf ns = Fin q /\ rec ns a b = Some (Fin q)) :
  forall max_value best_action alpha,
    max_value <> PosInf ->
    exists v m,
      HMinimax0.max_loop rec succs max_value best_action alpha PosInf
      = Some (v, m)
      /\ qle max_value v
      /\ (forall ns a0, In (ns, a0) succs -> qle (evalf ns) v)
      /\ ((v, m) = (max_value, best_action)
          \/ exists ns a, In (ns, a) succs /\ evalf ns = v /\ m = Some a).
Proof.
  induction succs as [| [next_state action] rest IH];
    intros max_value best_action alpha Hmax; simpl.
  - exists max_value, best_action. split; [reflexivity |].
    split; [clear; ext_order |]. split; [intros ns a0 [] |].
    left. reflexivity.
  - assert (Hrest : forall ns a0 a b,
               In (ns, a0) rest ->
               exists q, evalf ns = Fin q /\ rec ns a b = Some (Fin q))
      by (intros ns a0 a b Hin; eapply Hrec; right; exact Hin).
    destruct (Hrec next_state action alpha PosInf ltac:(left; reflexivity))
      as (q & Heval & Hcall).
    rewrite Hcall. simpl. rewrite andb_true_r.
    destruct (ext_ltb Qltb max_value (Fin q)) eqn:Eu.
    + assert (Hgo : ext_geb Qltb (Fin q) PosInf = false) by reflexivity.
      rewrite Hgo.
      destruct (IH Hrest (Fin q) (Some action)
                  (ext_max Qltb alpha (Fin q)) ltac:(discriminate))
        as (v & m & Hrun & Hge & Hall & Hwho).
      exists v, m. split; [exact Hrun |].
      split; [clear - Eu Hge; ext_order |].
      split.
      * intros ns a0 [Heq | Hin]; [| eapply Hall; exact Hin].
        inversion Heq; subst. rewrite Heval. exact Hge.
      * right. destruct Hwho as [Heq | (ns & a & Hin & Hv & Hm)].
        -- inversion Heq; subst. exists next_state, action.
           split; [left; reflexivity |]. split; [exact Heval | reflexivity].
        -- exists ns, a. split; [right; exact Hin |]. split; assumption.
    + assert (Hgo : ext_geb Qltb max_value PosInf = false)
        by (clear - Hmax; unfold ext_geb; destruct max_value; simpl; congruence).
      rewrite Hgo.
      destruct (IH Hrest max_value best_action
                  (ext_max Qltb alpha max_value) Hmax)
        as (v & m & Hrun & Hge & Hall & Hwho).
      exists v, m. split; [exact Hrun |]. split; [exact Hge |].
      split.
      * intros ns a0 [Heq | Hin]; [| eapply Hall; exact Hin].
        inversion Heq; subst. rewrite Heval. clear - Eu Hge. ext_order.
      * destruct Hwho as [Heq | (ns & a & Hin & Hv & Hm)];
          [left; exact Heq |].
        right. exists ns, a. split; [right; exact Hin |]. split; assumption.
Qed.
End Greedy.

(** X14: in variant A, when Pacman has at least one move and every
    successor of the searched snapshot is cut off on the ghost's turn at
    depth 1 (for instance because the ghost is 2 or more away after each
    move), two units of fuel are enough and the top-level search is a
    one-ply choice: it returns the evaluation of a successor that no
    other successor's evaluation exceeds, with the move of that
    successor. *)
Theorem one_ply_choice_when_successors_cut_off {State : Type}
    `{GameState State} (fuel : nat) (self : HMinimax0.PacmanAgent)
    (state : State) :
  generatePacmanSuccessors state <> [] ->
  (forall ns a, In (ns, a) (generatePacmanSuccessors state) ->
                HMinimax0.cutoff ns 1 false = true) ->
  exists q ns a,
    HMinimax0.hminimax_aux (S (S fuel)) self state NegInf PosInf true 0
    = Some (Fin q, Some a)
    /\ In (ns, a) (generatePacmanSuccessors state)
    /\ HMinimax0.eval_function self ns = Fin q
    /\ (forall ns' a' q', In (ns', a') (generatePacmanSuccessors state) ->
                          HMinimax0.eval_function self ns' = Fin q' ->
                          (q' <= q)%Q).
Proof.
  intros Hne Hcut.
  destruct (max_loop0_greedy
              (fun next_state a b =>
                 fst <$> HMinimax0.hminimax_aux (S fuel) self next_state a b
                           false 1)
              (HMinimax0.eval_function self)
              (generatePacmanSuccessors state)) with
    (max_value := (NegInf : QVal)) (best_action := (None : option Direction))
    (alpha := (NegInf : QVal))
    as (v & m & Hrun & _ & Hall & Hwho).
  - intros ns a0 a b Hin. simpl. rewrite (Hcut ns a0 Hin). simpl.
    destruct (eval_function0_finite self ns) as [q Hq]. exists q.
    rewrite Hq. split; reflexivity.
  - discriminate.
  - assert (Hstep : HMinimax0.hminimax_aux (S (S fuel)) self state
                      NegInf PosInf true 0 = Some (v, m))
      by exact Hrun.
    destruct Hwho as [Heq | (ns & a & Hin & Hv & Hm)].
    + exfalso. inversion Heq; subst.
      destruct (generatePacmanSuccessors state) as [| [ns a] rest] eqn:Hs;
        [congruence |].
      specialize (Hall ns a ltac:(left; reflexivity)).
      destruct (eval_function0_finite self ns) as [q Hq]. rewrite Hq in Hall.
      discriminate Hall.
    + destruct (eval_function0_finite self ns) as [q Hq].
      exists q, ns, a. rewrite Hstep. subst v m. rewrite Hq in *.
      split; [reflexivity |]. split; [exact Hin |]. split; [reflexivity |].
      intros ns' a' q' Hin' Hq'. specialize (Hall ns' a' Hin').
      rewrite Hq' in Hall. unfold qle in Hall. simpl in Hall.
      apply Qltb_ge in Hall. exact Hall.
Qed.

Lemma one_ply_choice_when_successors_cut_off_witness :
  @generatePacmanSuccessors nat tie_game 0%nat <> []
  /\ (forall ns a, In (ns, a) (@generatePacmanSuccessors nat tie_game 0%nat) ->
                   @HMinimax0.cutoff nat tie_game ns 1 false = true)
  /\ exists q ns a,
       @HMinimax0.hminimax_aux nat tie_game 2 fresh_agent0 0%nat
         NegInf PosInf true 0 = Some (Fin q, Some a)
       /\ In (ns, a) (@generatePacmanSuccessors nat tie_game 0%nat)
       /\ @HMinimax0.eval_function nat tie_game fresh_agent0 ns = Fin q.
Proof.
  assert (Hne : @generatePacmanSuccessors nat tie_game 0%nat <> [])
    by discriminate.
  assert (Hcut : forall ns a,
             In (ns, a) (@generatePacmanSuccessors nat tie_game 0%nat) ->
             @HMinimax0.cutoff nat tie_game ns 1 false = true).
  { intros ns a [Heq | [Heq | []]]; inversion Heq; subst; reflexivity. }
  split; [exact Hne |]. split; [exact Hcut |].
  destruct (@one_ply_choice_when_successors_cut_off nat tie_game 0
              fresh_agent0 0%nat Hne Hcut)
    as (q & ns & a & Hrun & Hin & Hq & _).
  exists q, ns, a. split; [exact Hrun |]. split; [exact Hin | exact Hq].
Defined.
